(** * discord-formatting: a shallow embedding of [formatting.go]

    The development follows the Go source: byte strings, the ordered rule
    table built by [NewParser], and the stack-driven loop of [Parser.Parse].
    The patterns of the rule table are compiled by Go's [regexp] package,
    which is outside the repository; its documented behaviour (leftmost-first
    matching on UTF-8 decoded runes, byte offsets of the submatches) is
    modelled by a backtracking matcher that enumerates the candidate matches
    in priority order. *)

From Stdlib Require Import String Ascii ZArith List Bool Lia DecimalString.
Import ListNotations.
Local Open Scope Z_scope.

(** ** Byte strings *)

(** A Go [string] is a sequence of bytes; a byte is an 8-bit value held in a [Z]. *)
Definition bytes := list Z.

Definition chr (a : ascii) : Z := Z.of_N (N_of_ascii a).

Definition bytes_of_string (s : string) : bytes := map chr (list_ascii_of_string s).

Definition len (s : bytes) : Z := Z.of_nat (length s).

(** [s[a:b]] on a Go string panics unless [0 <= a <= b <= len(s)]. *)
Definition slice (s : bytes) (a b : Z) : option bytes :=
  if (0 <=? a) && (a <=? b) && (b <=? len s)
  then Some (firstn (Z.to_nat (b - a)) (skipn (Z.to_nat a) s))
  else None.

(** The same substring, as a total function, for offsets that the regexp
    package guarantees to be in range. *)
Definition substr (s : bytes) (a b : Z) : bytes :=
  firstn (Z.to_nat (b - a)) (skipn (Z.to_nat a) s).

(** [strings.HasSuffix(s, "\n")] *)
Definition LF : Z := 10.

Definition HasSuffixLF (s : bytes) : bool :=
  match rev s with
  | c :: _ => c =? LF
  | [] => false
  end.

Definition is_empty (s : bytes) : bool :=
  match s with [] => true | _ => false end.

(** ** UTF-8 decoding, as [unicode/utf8.DecodeRuneInString] *)

Definition RuneError : Z := 0xFFFD.

Definition within (lo hi b : Z) : bool := (lo <=? b) && (b <=? hi).

(** Returns the rune and its width in bytes; an invalid or truncated
    encoding yields [(RuneError, 1)], the empty string [(RuneError, 0)]. *)
Definition DecodeRune (s : bytes) : Z * Z :=
  match s with
  | [] => (RuneError, 0)
  | s0 :: t =>
    if s0 <? 0x80 then (s0, 1)
    else if s0 <? 0xC2 then (RuneError, 1)
    else if s0 <? 0xE0 then
      match t with
      | s1 :: _ =>
        if within 0x80 0xBF s1
        then ((s0 - 0xC0) * 64 + (s1 - 0x80), 2)
        else (RuneError, 1)
      | _ => (RuneError, 1)
      end
    else if s0 <? 0xF0 then
      let lo := if s0 =? 0xE0 then 0xA0 else 0x80 in
      let hi := if s0 =? 0xED then 0x9F else 0xBF in
      match t with
      | s1 :: s2 :: _ =>
        if within lo hi s1 && within 0x80 0xBF s2
        then ((s0 - 0xE0) * 4096 + (s1 - 0x80) * 64 + (s2 - 0x80), 3)
        else (RuneError, 1)
      | _ => (RuneError, 1)
      end
    else if s0 <? 0xF5 then
      let lo := if s0 =? 0xF0 then 0x90 else 0x80 in
      let hi := if s0 =? 0xF4 then 0x8F else 0xBF in
      match t with
      | s1 :: s2 :: s3 :: _ =>
        if within lo hi s1 && within 0x80 0xBF s2 && within 0x80 0xBF s3
        then ((s0 - 0xF0) * 262144 + (s1 - 0x80) * 4096
              + (s2 - 0x80) * 64 + (s3 - 0x80), 4)
        else (RuneError, 1)
      | _ => (RuneError, 1)
      end
    else (RuneError, 1)
  end.

(** The UTF-8 encoding of a rune ([utf8.AppendRune]); used to state
    properties about "a character [c]". *)
Definition valid_rune (c : Z) : Prop :=
  0 <= c <= 0x10FFFF /\ ~ (0xD800 <= c <= 0xDFFF).

Definition EncodeRune (c : Z) : bytes :=
  if c <? 0x80 then [c]
  else if c <? 0x800 then [0xC0 + c / 64; 0x80 + c mod 64]
  else if c <? 0x10000 then
    [0xE0 + c / 4096; 0x80 + (c / 64) mod 64; 0x80 + c mod 64]
  else
    [0xF0 + c / 262144; 0x80 + (c / 4096) mod 64;
     0x80 + (c / 64) mod 64; 0x80 + c mod 64].

(** ** Regular expressions (the subset of RE2 syntax the patterns use) *)

Inductive citem : Type :=
| Rg (lo hi : Z)      (* a range [lo-hi] of runes; one rune when lo = hi *)
| PerlD               (* \d *)
| PerlS               (* \s *)
| PerlW               (* \w *)
| PerlNotS.           (* \S *)

Definition is_digit (c : Z) : bool := within 48 57 c.
Definition is_space (c : Z) : bool :=
  (c =? 9) || (c =? 10) || (c =? 12) || (c =? 13) || (c =? 32).
Definition is_word (c : Z) : bool :=
  within 48 57 c || within 65 90 c || within 97 122 c || (c =? 95).

Definition in_item (c : Z) (it : citem) : bool :=
  match it with
  | Rg lo hi => within lo hi c
  | PerlD => is_digit c
  | PerlS => is_space c
  | PerlW => is_word c
  | PerlNotS => negb (is_space c)
  end.

Inductive Regexp : Type :=
| Eps                                   (* the empty expression *)
| Chr (c : Z)                           (* a literal rune *)
| Cls (neg : bool) (items : list citem) (* [...] and [^...] *)
| Dot                                   (* . without (?s): any rune but \n *)
| DotAll                                (* . under (?s) *)
| Bol                                   (* ^ (no (?m)): beginning of text *)
| Eol                                   (* $ (no (?m)): end of text *)
| WordB                                 (* \b, ASCII word boundary *)
| Cat (r1 r2 : Regexp)
| Alt (r1 r2 : Regexp)                  (* r1|r2, r1 preferred *)
| Star (greedy : bool) (r : Regexp)     (* r* and r*? *)
| Cap (k : nat) (r : Regexp).           (* the k-th capturing group *)

Definition Plus (greedy : bool) (r : Regexp) : Regexp := Cat r (Star greedy r).
Definition Quest (greedy : bool) (r : Regexp) : Regexp :=
  if greedy then Alt r Eps else Alt Eps r.

(** [r{0,n}], greedy, as the regexp package expands it: (r(r(r)?)?)? *)
Fixpoint UpTo (n : nat) (r : Regexp) : Regexp :=
  match n with
  | O => Eps
  | S n' => Alt (Cat r (UpTo n' r)) Eps
  end.

Fixpoint Lits (cs : list Z) : Regexp :=
  match cs with
  | [] => Eps
  | [c] => Chr c
  | c :: cs' => Cat (Chr c) (Lits cs')
  end.

Definition Str (s : string) : Regexp := Lits (bytes_of_string s).

Fixpoint Seq (rs : list Regexp) : Regexp :=
  match rs with
  | [] => Eps
  | [r] => r
  | r :: rs' => Cat r (Seq rs')
  end.

(** ** The matcher *)

(** A matcher state: byte offset, the rune before the offset (-1 at the
    beginning of the text), the unread input and the capture offsets of the
    groups 1..n, two entries per group, -1 when the group did not take part. *)
Record mstate : Type := MState {
  m_pos : Z;
  m_prev : Z;
  m_rest : bytes;
  m_caps : list Z
}.

Fixpoint set_nth (n : nat) (v : Z) (l : list Z) {struct l} : list Z :=
  match l, n with
  | [], _ => []
  | _ :: t, O => v :: t
  | x :: t, S n' => x :: set_nth n' v t
  end.

Definition set_cap (k : nat) (a : Z) (st : mstate) : mstate :=
  MState (m_pos st) (m_prev st) (m_rest st)
         (set_nth (2 * k - 1) (m_pos st) (set_nth (2 * k - 2) a (m_caps st))).

(** Reads one rune satisfying [p]. *)
Definition take (p : Z -> bool) (st : mstate) : list mstate :=
  match m_rest st with
  | [] => []
  | _ :: _ =>
    let (c, w) := DecodeRune (m_rest st) in
    if p c
    then [MState (m_pos st + w) c (skipn (Z.to_nat w) (m_rest st)) (m_caps st)]
    else []
  end.

Definition in_class (neg : bool) (items : list citem) (c : Z) : bool :=
  xorb neg (existsb (in_item c) items).

Definition at_word_boundary (st : mstate) : bool :=
  let before := is_word (m_prev st) in
  let after :=
      match m_rest st with
      | [] => false
      | _ => is_word (fst (DecodeRune (m_rest st)))
      end in
  xorb before after.

(** Iteration of a star; an iteration that consumes nothing is not repeated.
    [fuel] bounds the number of iterations and is at least the number of
    unread bytes. *)
Fixpoint star_loop (body : mstate -> list mstate) (greedy : bool)
         (fuel : nat) (st : mstate) : list mstate :=
  match fuel with
  | O => [st]
  | S fuel' =>
    let more :=
        flat_map (fun st' =>
                    if m_pos st <? m_pos st'
                    then star_loop body greedy fuel' st'
                    else [])
                 (body st) in
    if greedy then more ++ [st] else st :: more
  end.

(** All the ways [r] matches at [st], in the order a backtracking search
    tries them. The first one is the leftmost-first match. *)
Fixpoint run (r : Regexp) (st : mstate) : list mstate :=
  match r with
  | Eps => [st]
  | Chr c => take (fun x => x =? c) st
  | Cls neg items => take (in_class neg items) st
  | Dot => take (fun x => negb (x =? LF)) st
  | DotAll => take (fun _ => true) st
  | Bol => if m_pos st =? 0 then [st] else []
  | Eol => match m_rest st with [] => [st] | _ => [] end
  | WordB => if at_word_boundary st then [st] else []
  | Cat r1 r2 => flat_map (run r2) (run r1 st)
  | Alt r1 r2 => run r1 st ++ run r2 st
  | Star greedy r' => star_loop (run r') greedy (length (m_rest st)) st
  | Cap k r' => map (set_cap k (m_pos st)) (run r' st)
  end.

Fixpoint num_caps (r : Regexp) : nat :=
  match r with
  | Cat r1 r2 | Alt r1 r2 => Nat.max (num_caps r1) (num_caps r2)
  | Star _ r' => num_caps r'
  | Cap k r' => Nat.max k (num_caps r')
  | _ => O
  end.

(** The unanchored search of [Regexp.FindStringSubmatchIndex]: the match
    at the leftmost start offset; [None] stands for the nil slice. *)
Fixpoint search (r : Regexp) (fuel : nat) (st : mstate) : option (list Z) :=
  match run r st with
  | st' :: _ => Some (m_pos st :: m_pos st' :: m_caps st')
  | [] =>
    match fuel with
    | O => None
    | S fuel' =>
      match take (fun _ => true) st with
      | st1 :: _ => search r fuel' st1
      | [] => None
      end
    end
  end.

Definition FindStringSubmatchIndex (r : Regexp) (s : bytes) : option (list Z) :=
  search r (length s) (MState 0 (-1) s (repeat (-1) (2 * num_caps r))).

(** ** The patterns of [formatting.go]

    Each pattern is preceded by its source text. In these comments a blank
    is inserted between a star and a closing parenthesis, and DQ stands for
    the double quote character. *)

Arguments chr a%_char.

Definition TAB : Z := 9.
Definition CR : Z := 13.
Definition DQUOTE : Z := 34.

Definition One (c : Z) : citem := Rg c c.
Definition Ch (a : ascii) : Regexp := Chr (chr a).
Arguments Ch a%_char.
Definition Of (a : ascii) : citem := One (chr a).
Arguments Of a%_char.
Definition Range (a b : ascii) : citem := Rg (chr a) (chr b).
Arguments Range (a b)%_char.

Definition digit : Regexp := Cls false [PerlD].          (* \d *)
Definition space : Regexp := Cls false [PerlS].          (* \s *)
Definition nonspace : Regexp := Cls false [PerlNotS].    (* \S *)
Definition word : Regexp := Cls false [PerlW].           (* \w *)
Definition any : Regexp := Cls false [PerlS; PerlNotS].  (* [\s\S] *)
Definition sp : Regexp := Chr 32.

(** (?s)^(?: *>>> +(.* )| *> +([^\n]*\n?)) *)
Definition patternBlockQuote : Regexp :=
  Cat Bol
      (Alt (Seq [Star true sp; Str ">>>"; Plus true sp; Cap 1 (Star true DotAll)])
           (Seq [Star true sp; Ch ">"; Plus true sp;
                 Cap 2 (Cat (Star true (Cls true [One LF])) (Quest true (Chr LF)))])).

(** ^<#(\d+)> *)
Definition patternChannelMention : Regexp :=
  Seq [Bol; Str "<#"; Cap 1 (Plus true digit); Ch ">"].

(** ^<@&(\d+)> *)
Definition patternRoleMention : Regexp :=
  Seq [Bol; Str "<@&"; Cap 1 (Plus true digit); Ch ">"].

(** ^<@!?(\d+)> *)
Definition patternUserMention : Regexp :=
  Seq [Bol; Str "<@"; Quest true (Ch "!"); Cap 1 (Plus true digit); Ch ">"].

(** ^@(everyone|here) *)
Definition patternSpecialMention : Regexp :=
  Seq [Bol; Ch "@"; Cap 1 (Alt (Str "everyone") (Str "here"))].

(** ^<(a)?:([a-zA-Z_0-9]+):(\d+)> *)
Definition patternCustomEmoji : Regexp :=
  Seq [Bol; Ch "<"; Quest true (Cap 1 (Ch "a")); Ch ":";
       Cap 2 (Plus true (Cls false [Range "a" "z"; Range "A" "Z"; Of "_"; Range "0" "9"]));
       Ch ":"; Cap 3 (Plus true digit); Ch ">"].

(** ^:([^\s:]+?(?:::skin-tone-\d)?): *)
Definition patternNamedEmoji : Regexp :=
  Seq [Bol; Ch ":";
       Cap 1 (Cat (Plus false (Cls true [PerlS; Of ":"]))
                  (Quest true (Cat (Str "::skin-tone-") digit)));
       Ch ":"].

(** ^(U+00AF\\_\(U+30C4\)_/U+00AF), the runes U+00AF and U+30C4 around ASCII literals *)
Definition patternUnescapeEmoticon : Regexp :=
  Seq [Bol; Cap 1 (Lits [0xAF; chr "\"; chr "_"; chr "("; 0x30C4;
                         chr ")"; chr "_"; chr "/"; 0xAF])].

(** ^<t:(-?\d{1,17})(?::(t|T|d|D|f|F|R))?> *)
Definition patternTimestamp : Regexp :=
  Seq [Bol; Str "<t:";
       Cap 1 (Seq [Quest true (Ch "-"); digit; UpTo 16 digit]);
       Quest true
             (Cat (Ch ":")
                  (Cap 2 (Alt (Ch "t") (Alt (Ch "T") (Alt (Ch "d") (Alt (Ch "D")
                          (Alt (Ch "f") (Alt (Ch "F") (Ch "R")))))))));
       Ch ">"].

(** https?://[^\s<]+[^<.,:;DQ')\]\s] *)
Definition url_body : Regexp :=
  Seq [Str "http"; Quest true (Ch "s"); Str "://";
       Plus true (Cls true [PerlS; Of "<"]);
       Cls true [Of "<"; Of "."; Of ","; Of ":"; Of ";"; One DQUOTE; Of "'";
                 Of ")"; Of "]"; PerlS]].

(** ^(https?://[^\s<]+[^<.,:;DQ')\]\s]) *)
Definition patternURL : Regexp := Seq [Bol; Cap 1 url_body].

(** ^(\[(?:\[[^]]*]|[^]])*](?:[^\[]*])?)\(\s*<?((?:[^\s\\]|\\.)*?)>?(?:\s+['DQ]([\s\S]*?)['DQ])?\s*\) *)
Definition patternMaskedLink : Regexp :=
  Seq [Bol;
       Cap 1 (Seq [Ch "[";
                   Star true (Alt (Seq [Ch "["; Star true (Cls true [Of "]"]); Ch "]"])
                                  (Cls true [Of "]"]));
                   Ch "]";
                   Quest true (Cat (Star true (Cls true [Of "["])) (Ch "]"))]);
       Ch "("; Star true space; Quest true (Ch "<");
       Cap 2 (Star false (Alt (Cls true [PerlS; Of "\"]) (Cat (Ch "\") Dot)));
       Quest true (Ch ">");
       Quest true (Seq [Plus true space; Cls false [Of "'"; One DQUOTE];
                        Cap 3 (Star false any);
                        Cls false [Of "'"; One DQUOTE]]);
       Star true space; Ch ")"].

(** ^<(https?://[^\s<]+[^<.,:;DQ')\]\s])> *)
Definition patternURLNoEmbed : Regexp := Seq [Bol; Ch "<"; Cap 1 url_body; Ch ">"].

(** ^\x{00AD} *)
Definition patternSoftHyphen : Regexp := Seq [Bol; Chr 0xAD].

(** ^\|\|([\s\S]+?)\|\| *)
Definition patternSpoiler : Regexp :=
  Seq [Bol; Str "||"; Cap 1 (Plus false any); Str "||"].

(** ^([^\S\r\n]* )[*-][ \s]+(.* )([\n|$])? *)
Definition patternListItem : Regexp :=
  Seq [Bol; Cap 1 (Star true (Cls true [PerlNotS; One CR; One LF]));
       Cls false [Of "*"; Of "-"];
       Plus true (Cls false [Of " "; PerlS]);
       Cap 2 (Star true Dot);
       Quest true (Cap 3 (Cls false [One LF; Of "|"; Of "$"]))].

(** ^(\s*(#+)[ \t](.* ) * )(?:\n|$) *)
Definition patternHeaderItem : Regexp :=
  Seq [Bol;
       Cap 1 (Seq [Star true space; Cap 2 (Plus true (Ch "#"));
                   Cls false [Of " "; One TAB]; Cap 3 (Star true Dot); Star true sp]);
       Alt (Chr LF) Eol].

(** ^(\*\*([\s\S]+?)\*\* )(?:[^*]|$) *)
Definition patternBold : Regexp :=
  Seq [Bol; Cap 1 (Seq [Str "**"; Cap 2 (Plus false any); Str "**"]);
       Alt (Cls true [Of "*"]) Eol].

(** ^(__([\s\S]+?)__)(?:[^_]|$) *)
Definition patternUnderline : Regexp :=
  Seq [Bol; Cap 1 (Seq [Str "__"; Cap 2 (Plus false any); Str "__"]);
       Alt (Cls true [Of "_"]) Eol].

(** ^~~(\S|\S[\s\S]*?\S)~~ *)
Definition patternStrikethrough : Regexp :=
  Seq [Bol; Str "~~";
       Cap 1 (Alt nonspace (Seq [nonspace; Star false any; nonspace]));
       Str "~~"].

(** ^(?:\n * )*\n *)
Definition patternNewline : Regexp :=
  Seq [Bol; Star true (Cat (Chr LF) (Star true sp)); Chr LF].

(** ^([\s\S]+?)(?:[^0-9A-Za-z\s\x{00c0}-\x{ffff}]|\n| {2,}\n|\w+:\S|$) *)
Definition patternText : Regexp :=
  Seq [Bol; Cap 1 (Plus false any);
       Alt (Cls true [Range "0" "9"; Range "A" "Z"; Range "a" "z"; PerlS;
                      Rg 0xc0 0xffff])
      (Alt (Chr LF)
      (Alt (Seq [sp; sp; Star true sp; Chr LF])
      (Alt (Seq [Plus true word; Ch ":"; nonspace])
           Eol)))].

(** ^\\([^0-9A-Za-z\s]) *)
Definition patternEscape : Regexp :=
  Seq [Bol; Ch "\";
       Cap 1 (Cls true [Range "0" "9"; Range "A" "Z"; Range "a" "z"; PerlS])].

(** ^(\b_((?:__|\\[\s\S]|[^\\_])+?)_\b)|^(\*((?:\*\*|[^\s*])(?:\*\*|\s+(?:[^*\s]|\*\* )|[^\s*])*?)\* )(?:[^*]|$) *)
Definition patternItalics : Regexp :=
  Alt (Seq [Bol;
            Cap 1 (Seq [WordB; Ch "_";
                        Cap 2 (Plus false
                                 (Alt (Str "__")
                                 (Alt (Cat (Ch "\") any)
                                      (Cls true [Of "\"; Of "_"]))));
                        Ch "_"; WordB])])
      (Seq [Bol;
            Cap 3 (Seq [Ch "*";
                        Cap 4 (Cat (Alt (Str "**") (Cls true [PerlS; Of "*"]))
                                   (Star false
                                      (Alt (Str "**")
                                      (Alt (Cat (Plus true space)
                                                (Alt (Cls true [Of "*"; PerlS]) (Str "**")))
                                           (Cls true [PerlS; Of "*"])))));
                        Ch "*"]);
            Alt (Cls true [Of "*"]) Eol]).

(** (?s)^```(?:([\w+\-.]+?)?(\s*\n))?([^\n].*?)\n*``` *)
Definition patternCodeBlock : Regexp :=
  Seq [Bol; Str "```";
       Quest true
             (Cat (Quest true (Cap 1 (Plus false (Cls false [PerlW; Of "+"; Of "-"; Of "."]))))
                  (Cap 2 (Cat (Star true space) (Chr LF))));
       Cap 3 (Cat (Cls true [One LF]) (Star false DotAll));
       Star true (Chr LF); Str "```"].

(** (?s)^``([^`]* )``|^`([^`]* )` *)
Definition patternCodeInline : Regexp :=
  Alt (Seq [Bol; Str "``"; Cap 1 (Star true (Cls true [Of "`"])); Str "``"])
      (Seq [Bol; Ch "`"; Cap 2 (Star true (Cls true [Of "`"])); Ch "`"]).

(** ** Nodes *)

(** The payload of a node; [rootNode] is the bare [node] struct that
    [Parse] uses as the root. *)
Inductive NodeData : Type :=
| rootNode
| TextNode (Content : bytes)
| BlockQuoteNode
| CodeNode (Content Language : bytes)
| SpoilerNode
| URLNode (URL Mask : bytes)
| EmojiNode (Animated : bool) (Text ID : bytes)
| ChannelMentionNode (ID : bytes)
| RoleMentionNode (ID : bytes)
| UserMentionNode (ID : bytes)
| SpecialMentionNode (Mention : bytes)
| TimestampNode (Stamp Suffix : bytes)
| HeaderNode (Level : Z)
| BulletListNode (NestedLevel : Z) (IncludesNewline : bool)
| BoldNode
| UnderlineNode
| ItalicsNode
| StrikethroughNode.

(** The tree a caller sees through [Children]. *)
#[warnings="-register-all"] Inductive Node : Type :=
| Tree (data : NodeData) (children : list Node).

(** Nodes are Go pointers, and [addChild] mutates the node pointed to: the
    store maps an address (an index) to the payload and the addresses of
    the children. *)
Abbreviation ptr := nat.
Definition store := list (NodeData * list ptr).

Fixpoint update {A : Type} (n : nat) (f : A -> A) (l : list A) {struct l} : list A :=
  match l, n with
  | [], _ => []
  | x :: t, O => f x :: t
  | x :: t, S n' => x :: update n' f t
  end.

Definition addChild (parent child : ptr) (h : store) : store :=
  update parent (fun cell => (fst cell, snd cell ++ [child])) h.

(** Allocation of a fresh node without children. *)
Definition alloc (d : NodeData) (h : store) : ptr * store :=
  (length h, h ++ [(d, [])]).

(** Reading the tree below an address back from the store. *)
Fixpoint reify (fuel : nat) (h : store) (p : ptr) : Node :=
  match fuel with
  | O => Tree rootNode []
  | S fuel' =>
    match nth_error h p with
    | Some (d, cs) => Tree d (map (reify fuel' h) cs)
    | None => Tree rootNode []
    end
  end.

(** ** Rules *)

Record parseSpec (N : Type) : Type := ParseSpec {
  node : N;
  matchEnd : Z;
  start : Z;
  end_ : Z
}.
Arguments ParseSpec {N}.
Arguments node {N}.
Arguments matchEnd {N}.
Arguments start {N}.
Arguments end_ {N}.

Record match_ : Type := Match {
  m_match : bytes;
  groups : list Z
}.

Definition m_start (m : match_) (i : nat) : Z := nth (i * 2) (groups m) 0.
Definition m_end (m : match_) (i : nat) : Z := nth (i * 2 + 1) (groups m) 0.

Definition group (m : match_) (i : nat) : bytes :=
  let start := m_start m i in
  if start =? -1 then []
  else substr (m_match m) start (m_end m i).

(** A rule action returns [None] where the Go closure would panic on a
    slice expression. *)
Record rule : Type := Rule {
  pattern : Regexp;
  block : bool;
  parser : match_ -> option (parseSpec NodeData);
  blockQuote : bool
}.

Record Parser : Type := MkParser { rules : list rule }.

Record ParserOptions : Type := MkParserOptions {
  EnableBlockQuote : bool;
  EnableMaskedLinks : bool;
  EnableMentions : bool;
  EnableForumMarkdown : bool
}.

Definition DefaultParserOptions : ParserOptions :=
  {| EnableBlockQuote := true;
     EnableMaskedLinks := false;
     EnableMentions := true;
     EnableForumMarkdown := false |}.

(** A leaf: no explicit match end, no child span. *)
Definition leaf (d : NodeData) : option (parseSpec NodeData) :=
  Some (ParseSpec d 0 0 0).

Definition ruleSoftHyphen : rule :=
  Rule patternSoftHyphen false (fun m => leaf (TextNode [])) false.

Definition ruleEscape : rule :=
  Rule patternEscape false (fun m => leaf (TextNode (group m 1))) false.

Definition ruleBlockQuote : rule :=
  Rule patternBlockQuote true
       (fun m =>
          let i := if 0 <? len (group m 1) then 1%nat else 2%nat in
          Some (ParseSpec BlockQuoteNode 0 (m_start m i) (m_end m i)))
       true.

Definition ruleCodeBlock : rule :=
  Rule patternCodeBlock false
       (fun m => leaf (CodeNode (group m 3) (group m 1))) false.

Definition ruleCodeInline : rule :=
  Rule patternCodeInline false
       (fun m =>
          let i := if 0 <? len (group m 2) then 2%nat else 1%nat in
          leaf (CodeNode (group m i) []))
       false.

Definition ruleSpoiler : rule :=
  Rule patternSpoiler false
       (fun m => Some (ParseSpec SpoilerNode 0 (m_start m 1) (m_end m 1))) false.

Definition ruleMaskedLink : rule :=
  Rule patternMaskedLink false
       (fun m =>
          let mask := group m 1 in
          match slice mask 1 (len mask - 1) with
          | Some mask' => leaf (URLNode (group m 2) mask')
          | None => None
          end)
       false.

Definition ruleURLNoEmbed : rule :=
  Rule patternURLNoEmbed false (fun m => leaf (URLNode (group m 1) [])) false.

Definition ruleURL : rule :=
  Rule patternURL false (fun m => leaf (URLNode (group m 1) [])) false.

Definition ruleCustomEmoji : rule :=
  Rule patternCustomEmoji false
       (fun m => leaf (EmojiNode (0 <? len (group m 1)) (group m 2) (group m 3)))
       false.

Definition ruleNamedEmoji : rule :=
  Rule patternNamedEmoji false (fun m => leaf (TextNode (group m 0))) false.

Definition ruleUnescapeEmoticon : rule :=
  Rule patternUnescapeEmoticon false (fun m => leaf (TextNode (group m 1))) false.

Definition ruleChannelMention : rule :=
  Rule patternChannelMention false (fun m => leaf (ChannelMentionNode (group m 1))) false.

Definition ruleRoleMention : rule :=
  Rule patternRoleMention false (fun m => leaf (RoleMentionNode (group m 1))) false.

Definition ruleUserMention : rule :=
  Rule patternUserMention false (fun m => leaf (UserMentionNode (group m 1))) false.

Definition ruleSpecialMention : rule :=
  Rule patternSpecialMention false (fun m => leaf (SpecialMentionNode (group m 1))) false.

Definition ruleTimestamp : rule :=
  Rule patternTimestamp false
       (fun m => leaf (TimestampNode (group m 1) (group m 2))) false.

Definition ruleHeaderItem : rule :=
  Rule patternHeaderItem true
       (fun m =>
          let n := if 0 <? len (group m 2) then len (group m 2) else 1 in
          Some (ParseSpec (HeaderNode n) (m_end m 1) (m_start m 3) (m_end m 3)))
       false.

Definition ruleListItem : rule :=
  Rule patternListItem false
       (fun m =>
          let level := if 0 <? len (group m 1) then 2 else 1 in
          Some (ParseSpec (BulletListNode level (0 <? len (group m 3)))
                          0 (m_start m 2) (m_end m 2)))
       false.

Definition ruleNewline : rule :=
  Rule patternNewline true (fun m => leaf (TextNode [LF])) false.

Definition ruleBold : rule :=
  Rule patternBold false
       (fun m => Some (ParseSpec BoldNode (m_end m 1) (m_start m 2) (m_end m 2)))
       false.

Definition ruleUnderline : rule :=
  Rule patternUnderline false
       (fun m => Some (ParseSpec UnderlineNode (m_end m 1) (m_start m 2) (m_end m 2)))
       false.

Definition ruleItalics : rule :=
  Rule patternItalics false
       (fun m =>
          let content := if 0 <? len (group m 4) then 4%nat else 2%nat in
          let total := if 0 <? len (group m 3) then 3%nat else 1%nat in
          Some (ParseSpec ItalicsNode (m_end m total)
                          (m_start m content) (m_end m content)))
       false.

Definition ruleStrikethrough : rule :=
  Rule patternStrikethrough false
       (fun m => Some (ParseSpec StrikethroughNode 0 (m_start m 1) (m_end m 1)))
       false.

Definition ruleText : rule :=
  Rule patternText false
       (fun m => Some (ParseSpec (TextNode (group m 1)) (m_end m 1) 0 0)) false.

(** [NewParser]; a nil options pointer is [None]. *)
Definition NewParser (options : option ParserOptions) : Parser :=
  let options :=
      match options with
      | None => DefaultParserOptions
      | Some o => o
      end in
  MkParser
    ([ruleSoftHyphen; ruleEscape]
       ++ (if EnableBlockQuote options then [ruleBlockQuote] else [])
       ++ [ruleCodeBlock; ruleCodeInline; ruleSpoiler]
       ++ (if EnableMaskedLinks options then [ruleMaskedLink] else [])
       ++ [ruleURLNoEmbed; ruleURL; ruleCustomEmoji; ruleNamedEmoji;
           ruleUnescapeEmoticon]
       ++ (if EnableMentions options
           then [ruleChannelMention; ruleRoleMention; ruleUserMention;
                 ruleSpecialMention]
           else [])
       ++ [ruleTimestamp]
       ++ (if EnableForumMarkdown options then [ruleHeaderItem; ruleListItem] else [])
       ++ [ruleNewline; ruleBold; ruleUnderline; ruleItalics; ruleStrikethrough;
           ruleText]).

(** ** [Parser.Parse] *)

(** The local variables of [Parse] that live across iterations. The head
    of [remainingParses] is the top of the stack (the last element of the
    Go slice). *)
Record pstate : Type := PState {
  remainingParses : list (parseSpec ptr);
  heap : store;
  lastCapture : bytes;
  blockQuoteEnd : Z
}.

(** Whether the inner loop skips rule [r] without trying its pattern. *)
Definition skipped (r : rule) (lastCapture : bytes) (blockQuoteEnd : Z)
           (builder_start : Z) : bool :=
  (block r && negb (is_empty lastCapture) && negb (HasSuffixLF lastCapture))
  || (blockQuote r && (builder_start <? blockQuoteEnd)).

(** The inner loop over [p.rules]: the first rule that is not skipped and
    whose pattern matches, with the submatch offsets. *)
Fixpoint select_rule (rs : list rule) (lastCapture : bytes) (blockQuoteEnd : Z)
         (builder_start : Z) (inspectionSource : bytes) : option (rule * list Z) :=
  match rs with
  | [] => None
  | r :: rs' =>
    if skipped r lastCapture blockQuoteEnd builder_start
    then select_rule rs' lastCapture blockQuoteEnd builder_start inspectionSource
    else
      match FindStringSubmatchIndex (pattern r) inspectionSource with
      | None => select_rule rs' lastCapture blockQuoteEnd builder_start inspectionSource
      | Some g => Some (r, g)
      end
  end.

Inductive outcome : Type :=
| Next (st : pstate)     (* the loop goes round again *)
| Exit (h : store)       (* the loop is left *)
| Panic.                 (* a run-time panic *)

(** The second half of an iteration (from the defaulting of [matchEnd] to
    the update of [lastCapture]): the new node is appended to the parent,
    the rest of the span and the child span are pushed. *)
Definition Parse_push (st : pstate) (builder : parseSpec ptr)
           (remaining : list (parseSpec ptr)) (rule : rule) (groups : list Z)
           (newBuilder : parseSpec NodeData) (inspectionSource : bytes) : outcome :=
  let offset := start builder in
  let matchEnd' :=
      if matchEnd newBuilder =? 0 then nth 1 groups 0
      else matchEnd newBuilder in
  let parent := node builder in
  let (child, h1) := alloc (node newBuilder) (heap st) in
  let h2 := addChild parent child h1 in
  let matcherSourceEnd := matchEnd' + offset in
  let remaining1 :=
      if matcherSourceEnd =? end_ builder then remaining
      else ParseSpec parent 0 matcherSourceEnd (end_ builder) :: remaining in
  let pushed :=
      negb (start newBuilder =? 0) || negb (end_ newBuilder =? 0) in
  let start' := if pushed then start newBuilder + offset else start newBuilder in
  let end' := if pushed then end_ newBuilder + offset else end_ newBuilder in
  let remaining2 :=
      if pushed then ParseSpec child matchEnd' start' end' :: remaining1
      else remaining1 in
  let blockQuoteEnd' :=
      if blockQuote rule then end' else blockQuoteEnd st in
  match slice inspectionSource 0 matchEnd' with
  | None => Panic
  | Some lastCapture' =>
    Next (PState remaining2 h2 lastCapture' blockQuoteEnd')
  end.

(** One iteration of the outer loop. *)
Definition Parse_iter (p : Parser) (source : bytes) (st : pstate) : outcome :=
  match remainingParses st with
  | [] => Exit (heap st)
  | builder :: remaining =>
    if end_ builder <=? start builder then Exit (heap st)
    else
      match slice source (start builder) (end_ builder) with
      | None => Panic
      | Some inspectionSource =>
        match select_rule (rules p) (lastCapture st) (blockQuoteEnd st)
                          (start builder) inspectionSource with
        | None => Panic
        | Some (rule, groups) =>
          match parser rule (Match inspectionSource groups) with
          | None => Panic
          | Some newBuilder =>
            Parse_push st builder remaining rule groups newBuilder inspectionSource
          end
        end
      end
  end.

Inductive result : Type :=
| Returned (root : Node)
| Panicked
| OutOfFuel.

Fixpoint Parse_loop (fuel : nat) (p : Parser) (source : bytes) (st : pstate)
  : option (option store) :=
  match fuel with
  | O => None
  | S fuel' =>
    match Parse_iter p source st with
    | Exit h => Some (Some h)
    | Panic => Some None
    | Next st' => Parse_loop fuel' p source st'
    end
  end.

Definition topLevelRootNode : ptr := 0%nat.

Definition Parse_init (source : bytes) : pstate :=
  PState (if 0 <? len source
          then [ParseSpec topLevelRootNode 0 0 (len source)]
          else [])
         [(rootNode, [])] [] 0.

(** [Parse] with a bound on the number of iterations of its loop. *)
Definition Parse (fuel : nat) (p : Parser) (source : bytes) : result :=
  match Parse_loop fuel p source (Parse_init source) with
  | None => OutOfFuel
  | Some None => Panicked
  | Some (Some h) => Returned (reify (length h) h topLevelRootNode)
  end.

(** The number of iterations that is always enough (see [Parse_returns]). *)
Definition enough (source : bytes) : nat := 2 ^ (S (length source)).

(** ** The debug rendering, restricted to what the examples need: the
    textual leaves in tree order. *)
Fixpoint leaves (n : Node) : bytes :=
  match n with
  | Tree d cs =>
    (match d with TextNode c => c | _ => [] end)
      ++ (fix go (l : list Node) : bytes :=
            match l with
            | [] => []
            | x :: l' => leaves x ++ go l'
            end) cs
  end.

(** * Definitions for the analysis of the matcher and of the rules *)

(** Minimal number of bytes a match of [r] consumes. *)
Fixpoint min_len (r : Regexp) : Z :=
  match r with
  | Chr _ | Cls _ _ | Dot | DotAll => 1
  | Cat r1 r2 => min_len r1 + min_len r2
  | Alt r1 r2 => Z.min (min_len r1) (min_len r2)
  | Cap _ r' => min_len r'
  | _ => 0
  end.

(** [st'] is [st] after reading [n] bytes or more. *)
Definition reads (n : Z) (st st' : mstate) : Prop :=
  m_pos st + n <= m_pos st' /\
  m_pos st' + len (m_rest st') = m_pos st + len (m_rest st) /\
  length (m_caps st') = length (m_caps st).

Definition cap_lo (c : list Z) (k : nat) : Z := nth (2 * k - 2) c (-1).
Definition cap_hi (c : list Z) (k : nat) : Z := nth (2 * k - 1) c (-1).

(** A requirement on the groups: for group [k], [fst (req k)] bytes at
    least lie between the start of the match and the start of the group,
    and the group spans [snd (req k)] bytes at least. *)
Definition creq := nat -> Z * Z.

Definition caps_ok (req : creq) (base pos : Z) (c : list Z) : Prop :=
  forall k, (1 <= k)%nat ->
    (cap_lo c k = -1 /\ cap_hi c k = -1) \/
    (base + fst (req k) <= cap_lo c k /\
     cap_lo c k + snd (req k) <= cap_hi c k /\
     cap_hi c k <= pos).

(** The syntactic check that establishes a requirement; [p] is a lower
    bound on the bytes read before [r] is entered. *)
Fixpoint check (req : creq) (p : Z) (r : Regexp) : bool :=
  match r with
  | Cap k r' =>
    (1 <=? k)%nat && (fst (req k) <=? p) && (snd (req k) <=? min_len r')
    && check req p r'
  | Cat r1 r2 => check req p r1 && check req (p + min_len r1) r2
  | Alt r1 r2 => check req p r1 && check req p r2
  | Star _ r' => check req p r'
  | _ => true
  end.

(** Every match of [r] sets one of the groups [ks] at least. *)
Fixpoint sets_one (ks : list nat) (r : Regexp) : bool :=
  match r with
  | Cap k r' => existsb (Nat.eqb k) ks || sets_one ks r'
  | Cat r1 r2 => sets_one ks r1 || sets_one ks r2
  | Alt r1 r2 => sets_one ks r1 && sets_one ks r2
  | _ => false
  end.

Definition in_range (st : mstate) (ks : list nat) : Prop :=
  forall k, In k ks -> (1 <= k /\ 2 * k <= length (m_caps st))%nat.

(** What [FindStringSubmatchIndex] guarantees about a match [g] of [r] in
    [s], for a requirement [req] that [r] passes and groups [ks] of which
    one is always set. *)
Record submatch_ok (req : creq) (ks : list nat) (r : Regexp) (s : bytes)
       (g : list Z) : Prop := SubmatchOk {
  sm_length : length g = (2 + 2 * num_caps r)%nat;
  sm_start : 0 <= nth 0 g 0;
  sm_end : nth 0 g 0 + min_len r <= nth 1 g 0 /\ nth 1 g 0 <= len s;
  sm_caps : forall k, (1 <= k <= num_caps r)%nat ->
      (nth (k * 2) g 0 = -1 /\ nth (k * 2 + 1) g 0 = -1) \/
      (fst (req k) <= nth (k * 2) g 0 /\
       nth (k * 2) g 0 + snd (req k) <= nth (k * 2 + 1) g 0 /\
       nth (k * 2 + 1) g 0 <= nth 1 g 0);
  sm_sets : ks = [] \/ exists k, In k ks /\ 0 <= nth (k * 2) g 0
}.

Definition groups_in (ks : list nat) (r : Regexp) : bool :=
  forallb (fun k => Nat.leb 1 k && Nat.leb k (num_caps r)) ks.

Definition req_of (l : list (nat * (Z * Z))) : creq :=
  fun k =>
    match find (fun e => Nat.eqb (fst e) k) l with
    | Some e => snd e
    | None => (0, 0)
    end.

(** The match end [Parse] uses: the explicit one, or the end of the
    whole match when the rule leaves it at zero. *)
Definition effective_end (ps : parseSpec NodeData) (g : list Z) : Z :=
  if matchEnd ps =? 0 then nth 1 g 0 else matchEnd ps.

(** The child span of a rule result on a window of [n] bytes: none, or
    the offsets of a group that did not take part, or a span that starts
    after the first byte of the window. *)
Definition child_ok (ps : parseSpec NodeData) (n : Z) : Prop :=
  (start ps = 0 /\ end_ ps = 0) \/
  (start ps = -1 /\ end_ ps = -1) \/
  (1 <= start ps /\ start ps <= end_ ps /\ end_ ps <= n).

Definition rule_ok (r : rule) : Prop :=
  forall s g,
    FindStringSubmatchIndex (pattern r) s = Some g ->
    exists ps,
      parser r (Match s g) = Some ps /\
      1 <= effective_end ps g /\ effective_end ps g <= len s /\
      child_ok ps (len s).

(** A rule is a candidate when the loop tries it and its pattern matches. *)
Definition candidate (lastCapture : bytes) (blockQuoteEnd builder_start : Z)
           (inspectionSource : bytes) (r : rule) (g : list Z) : Prop :=
  skipped r lastCapture blockQuoteEnd builder_start = false /\
  FindStringSubmatchIndex (pattern r) inspectionSource = Some g.

Definition rejected (lastCapture : bytes) (blockQuoteEnd builder_start : Z)
           (inspectionSource : bytes) (r : rule) : Prop :=
  skipped r lastCapture blockQuoteEnd builder_start = true \/
  FindStringSubmatchIndex (pattern r) inspectionSource = None.

(** A pending span is either empty, or a range of [source]. *)
Definition span_ok (source : bytes) (sp : parseSpec ptr) : Prop :=
  end_ sp <= start sp \/ (0 <= start sp /\ end_ sp <= len source).

(** The work a pending span can still cause. *)
Definition weight (sp : parseSpec ptr) : nat :=
  (2 ^ S (Z.to_nat (end_ sp - start sp)) - 1)%nat.

Definition total (l : list (parseSpec ptr)) : nat := list_sum (map weight l).

(** * Runs of the loop *)

(** The outcome of [n] iterations more. *)
Fixpoint Parse_steps (n : nat) (p : Parser) (source : bytes) (st : pstate)
  : outcome :=
  match n with
  | O => Next st
  | S n' =>
    match Parse_iter p source st with
    | Next st' => Parse_steps n' p source st'
    | o => o
    end
  end.

(** The states [Parse] goes through. *)
Inductive reachable (p : Parser) (source : bytes) : pstate -> Prop :=
| reach_init : reachable p source (Parse_init source)
| reach_step (st st' : pstate) :
    reachable p source st -> Parse_iter p source st = Next st' ->
    reachable p source st'.

(** Every alternative of the pattern starts with [^]. *)
Fixpoint anchored (r : Regexp) : bool :=
  match r with
  | Bol => true
  | Cat r1 _ => anchored r1
  | Alt r1 r2 => anchored r1 && anchored r2
  | Cap _ r' => anchored r'
  | _ => false
  end.

(** The state in which a search starts. *)
Definition init_state (r : Regexp) (s : bytes) : mstate :=
  MState 0 (-1) s (repeat (-1) (2 * num_caps r)).

(** The submatch offsets of the first way [r] matches at the start of [s]. *)
Definition match_at_start (r : Regexp) (s : bytes) : option (list Z) :=
  match run r (init_state r s) with
  | st' :: _ => Some (0 :: m_pos st' :: m_caps st')
  | [] => None
  end.

(** Inputs used in the examples. *)
Definition all_options : option ParserOptions :=
  Some (MkParserOptions true true true true).

(** ||\n> ||x *)
Definition quote_in_spoiler : bytes :=
  bytes_of_string "||" ++ [LF] ++ bytes_of_string "> ||x".

(** # \nfoo *)
Definition empty_header : bytes :=
  bytes_of_string "# " ++ [LF] ++ bytes_of_string "foo".

(** A soft hyphen (U+00AD) followed by ab *)
Definition hyphen_ab : bytes := [0xC2; 0xAD] ++ bytes_of_string "ab".

(** * First matches *)

(** [st'] is the first way [r] matches at [st]. *)
Definition first_match (r : Regexp) (st st' : mstate) : Prop :=
  hd_error (run r st) = Some st'.

(** ASCII decimal digits. *)
Definition digits (ds : bytes) : Prop := Forall (fun d => 48 <= d <= 57) ds.

(** The input goes on with a byte that is not a digit, or ends. *)
Definition no_digit_ahead (rest : bytes) : Prop :=
  match rest with
  | [] => True
  | b :: _ => is_digit b = false
  end.

(** The options [NewParser] works with. *)
Definition effective (options : option ParserOptions) : ParserOptions :=
  match options with
  | None => DefaultParserOptions
  | Some o => o
  end.

(** The rules [NewParser] puts before the mention rules, for given options. *)
Definition rules_before_mentions (o : ParserOptions) : list rule :=
  [ruleSoftHyphen; ruleEscape]
    ++ (if EnableBlockQuote o then [ruleBlockQuote] else [])
    ++ [ruleCodeBlock; ruleCodeInline; ruleSpoiler]
    ++ (if EnableMaskedLinks o then [ruleMaskedLink] else [])
    ++ [ruleURLNoEmbed; ruleURL; ruleCustomEmoji; ruleNamedEmoji;
        ruleUnescapeEmoticon].

Definition mention_rules (o : ParserOptions) : list rule :=
  if EnableMentions o
  then [ruleChannelMention; ruleRoleMention; ruleUserMention; ruleSpecialMention]
  else [].

(** The rules [NewParser] puts after the timestamp rule. *)
Definition rules_after_timestamp (o : ParserOptions) : list rule :=
  (if EnableForumMarkdown o then [ruleHeaderItem; ruleListItem] else [])
    ++ [ruleNewline; ruleBold; ruleUnderline; ruleItalics; ruleStrikethrough;
        ruleText].

(** All the rules that can come before the mention rules. *)
Definition plain_rules : list rule :=
  [ruleSoftHyphen; ruleEscape; ruleBlockQuote; ruleCodeBlock; ruleCodeInline;
   ruleSpoiler; ruleMaskedLink; ruleURLNoEmbed; ruleURL; ruleCustomEmoji;
   ruleNamedEmoji; ruleUnescapeEmoticon].

(** ASCII letters and digits, the runes [0-9A-Za-z] of the patterns. *)
Definition is_alnum (c : Z) : bool :=
  within 48 57 c || within 65 90 c || within 97 122 c.

(** * Timestamps *)

(** The format suffixes of the timestamp pattern: t T d D f F R. *)
Definition timestamp_suffixes : list Z := [116; 84; 100; 68; 102; 70; 82].

Definition suffix_text (suffix : option Z) : bytes :=
  match suffix with
  | Some x => [58; x]
  | None => []
  end.

Definition suffix_ok (suffix : option Z) : Prop :=
  match suffix with
  | Some x => In x timestamp_suffixes
  | None => True
  end.

Definition sign_text (negative : bool) : bytes :=
  if negative then [45] else [].

(** The text [<t:digits>] or [<t:digits:suffix>], with an optional minus
    sign before the digits. *)
Definition timestamp_text (negative : bool) (ds : bytes) (suffix : option Z)
  : bytes :=
  bytes_of_string "<t:" ++ sign_text negative ++ ds ++ suffix_text suffix
                  ++ bytes_of_string ">".

Definition is_timestamp (d : NodeData) : bool :=
  match d with
  | TimestampNode _ _ => true
  | _ => false
  end.

(** Whether a tree holds a [TimestampNode]. *)
Fixpoint has_timestamp (n : Node) : bool :=
  match n with
  | Tree d cs => is_timestamp d || existsb has_timestamp cs
  end.

(** A pending span that does not start at the first byte of the source,
    or is empty. *)
Definition past_first_byte (sp : parseSpec ptr) : Prop :=
  1 <= start sp \/ end_ sp <= start sp.

Definition no_timestamp_cell (cell : NodeData * list ptr) : Prop :=
  is_timestamp (fst cell) = false.

(** * Block quotes *)

Definition is_quote (d : NodeData) : bool :=
  match d with
  | BlockQuoteNode => true
  | _ => false
  end.

(** No [BlockQuoteNode] below a [BlockQuoteNode]; [inside] tells whether
    the node is below one. *)
Fixpoint no_nested_quote (inside : bool) (n : Node) : bool :=
  match n with
  | Tree d cs =>
    negb (inside && is_quote d)
    && forallb (no_nested_quote (inside || is_quote d)) cs
  end.

(** The nodes of the store that are a block quote or below one. *)
Inductive quoted (h : store) : ptr -> Prop :=
| quoted_self (n : ptr) (cs : list ptr) :
    nth_error h n = Some (BlockQuoteNode, cs) -> quoted h n
| quoted_child (n : ptr) (d : NodeData) (cs : list ptr) (c : ptr) :
    nth_error h n = Some (d, cs) -> In c cs -> quoted h n -> quoted h c.

(** The children of a node are allocated nodes. *)
Definition heap_wf (h : store) : Prop :=
  forall n d cs, nth_error h n = Some (d, cs) ->
                 Forall (fun c => (c < length h)%nat) cs.

(** A quoted node has no block quote among its children. *)
Definition quotes_flat (h : store) : Prop :=
  forall n d cs c d' cs',
    quoted h n -> nth_error h n = Some (d, cs) -> In c cs ->
    nth_error h c = Some (d', cs') -> is_quote d' = false.

Definition top_is_empty (l : list (parseSpec ptr)) : Prop :=
  match l with
  | sp :: _ => end_ sp <= start sp
  | [] => False
  end.

(** The pending spans of quoted nodes end inside the block-quote region. *)
Definition spans_in_region (h : store) (blockQuoteEnd : Z)
           (l : list (parseSpec ptr)) : Prop :=
  Forall (fun sp => quoted h (node sp) -> end_ sp <= blockQuoteEnd) l.

Definition quote_inv (st : pstate) : Prop :=
  heap_wf (heap st) /\
  Forall (fun sp => (node sp < length (heap st))%nat) (remainingParses st) /\
  quotes_flat (heap st) /\
  (top_is_empty (remainingParses st) \/
   spans_in_region (heap st) (blockQuoteEnd st) (remainingParses st)).

(** >>> a\n> b *)
Definition quote_in_quote : bytes :=
  bytes_of_string ">>> a" ++ [LF] ++ bytes_of_string "> b".

(** ** Trees and their provenance *)

(** The payloads of a tree, in the order [Walk] enters its nodes. *)
Fixpoint nodes (n : Node) : list NodeData :=
  match n with
  | Tree d cs => d :: flat_map nodes cs
  end.

(** The children of a node are allocated after the node. *)
Definition heap_ordered (h : store) : Prop :=
  forall n d cs, nth_error h n = Some (d, cs) ->
                 Forall (fun c => (n < c < length h)%nat) cs.

(** [x] is a substring of [s]. *)
Definition factor (x s : bytes) : Prop := exists pre post, s = pre ++ x ++ post.

(** The string fields of a node. *)
Definition strings (d : NodeData) : list bytes :=
  match d with
  | TextNode c => [c]
  | CodeNode c l => [c; l]
  | URLNode u m => [u; m]
  | EmojiNode _ t i => [t; i]
  | ChannelMentionNode i | RoleMentionNode i | UserMentionNode i => [i]
  | SpecialMentionNode m => [m]
  | TimestampNode s x => [s; x]
  | _ => []
  end.

(** [d] is the node a rule of [p] builds from a match of its pattern on a
    slice of [source]. *)
Definition produced (p : Parser) (source : bytes) (d : NodeData) : Prop :=
  exists r a b w g ps,
    In r (rules p) /\ slice source a b = Some w /\
    FindStringSubmatchIndex (pattern r) w = Some g /\
    parser r (Match w g) = Some ps /\ node ps = d.

Definition tree_inv (p : Parser) (source : bytes) (st : pstate) : Prop :=
  heap_ordered (heap st) /\
  Forall (fun sp => (node sp < length (heap st))%nat) (remainingParses st) /\
  (exists cs, nth_error (heap st) 0 = Some (rootNode, cs)) /\
  (forall n d cs, (1 <= n)%nat -> nth_error (heap st) n = Some (d, cs) ->
                  produced p source d).

(** ** The rule table by options *)

Definition is_mention (d : NodeData) : bool :=
  match d with
  | ChannelMentionNode _ | RoleMentionNode _ | UserMentionNode _
  | SpecialMentionNode _ => true
  | _ => false
  end.

Definition is_forum (d : NodeData) : bool :=
  match d with
  | HeaderNode _ | BulletListNode _ _ => true
  | _ => false
  end.

(** The mask of a [URLNode] is empty. *)
Definition no_mask (d : NodeData) : Prop :=
  match d with
  | URLNode _ m => m = []
  | _ => True
  end.

(** The rules every table holds. *)
Definition fixed_rules : list rule :=
  [ruleSoftHyphen; ruleEscape; ruleCodeBlock; ruleCodeInline; ruleSpoiler;
   ruleURLNoEmbed; ruleURL; ruleCustomEmoji; ruleNamedEmoji;
   ruleUnescapeEmoticon; ruleTimestamp; ruleNewline; ruleBold; ruleUnderline;
   ruleItalics; ruleStrikethrough; ruleText].

(** The rules an option adds. *)
Definition optional_rules (o : ParserOptions) : list rule :=
  (if EnableBlockQuote o then [ruleBlockQuote] else [])
    ++ (if EnableMaskedLinks o then [ruleMaskedLink] else [])
    ++ (if EnableMentions o
        then [ruleChannelMention; ruleRoleMention; ruleUserMention;
              ruleSpecialMention]
        else [])
    ++ (if EnableForumMarkdown o then [ruleHeaderItem; ruleListItem] else []).

(** No option enabled: the empty [ParserOptions] struct. *)
Definition no_options : option ParserOptions :=
  Some (MkParserOptions false false false false).

(** ** Leaf nodes *)

(** The node types that never get a child span: the types documented as
    leaf nodes, and [CodeNode]. *)
Definition is_leaf (d : NodeData) : bool :=
  match d with
  | TextNode _ | CodeNode _ _ | URLNode _ _ | EmojiNode _ _ _
  | ChannelMentionNode _ | RoleMentionNode _ | UserMentionNode _
  | SpecialMentionNode _ | TimestampNode _ _ => true
  | _ => false
  end.

(** No leaf node of the tree has children. *)
Fixpoint leaves_childless (n : Node) : bool :=
  match n with
  | Tree d cs =>
    (negb (is_leaf d) || match cs with [] => true | _ => false end)
    && forallb leaves_childless cs
  end.

Definition leaf_inv (st : pstate) : Prop :=
  (forall n d cs, nth_error (heap st) n = Some (d, cs) ->
                  is_leaf d = true -> cs = []) /\
  Forall (fun sp => exists d cs, nth_error (heap st) (node sp) = Some (d, cs) /\
                                 is_leaf d = false)
         (remainingParses st).

(** ** [Walk] and [Debug] *)

(** A [Walker] is called for its effect on the variables its closure
    captures; [St] is the type of their values. *)
Definition Walker (St : Type) : Type := Node -> bool -> St -> St.

Fixpoint Walk {St : Type} (n : Node) (w : Walker St) (s : St) : St :=
  match n with
  | Tree _ cs => w n false (fold_left (fun s c => Walk c w s) cs (w n true s))
  end.

Definition data (n : Node) : NodeData := match n with Tree d _ => d end.

(** The verbs [%d] and [%v] (for a bool) of package [fmt]. *)
Definition fmt_d (z : Z) : bytes :=
  bytes_of_string (NilZero.string_of_int (Z.to_int z)).

Definition fmt_v (b : bool) : bytes :=
  bytes_of_string (if b then "true" else "false").

(** What the type switch of the walker of [Debug] writes for a node; the
    verb [%q] of package [fmt] is the parameter [quote]. *)
Definition Debug_switch (quote : bytes -> bytes) (d : NodeData) : bytes :=
  match d with
  | TextNode c => bytes_of_string "text " ++ quote c
  | BlockQuoteNode => bytes_of_string "blockquote"
  | CodeNode c l => bytes_of_string "code " ++ quote l ++ bytes_of_string " " ++ quote c
  | SpoilerNode => bytes_of_string "spoiler"
  | URLNode u m => bytes_of_string "url " ++ quote m ++ bytes_of_string " " ++ quote u
  | EmojiNode a t i =>
    bytes_of_string "emoji " ++ fmt_v a ++ bytes_of_string " " ++ quote t
                    ++ bytes_of_string " " ++ quote i
  | ChannelMentionNode i => bytes_of_string "channelmention " ++ quote i
  | RoleMentionNode i => bytes_of_string "rolemention " ++ quote i
  | UserMentionNode i => bytes_of_string "usermention " ++ quote i
  | SpecialMentionNode m => bytes_of_string "specialmention " ++ quote m
  | TimestampNode s x =>
    bytes_of_string "timestamp " ++ quote s ++ bytes_of_string " " ++ quote x
  | HeaderNode l => bytes_of_string "header " ++ fmt_d l
  | BulletListNode l nl =>
    bytes_of_string "list " ++ fmt_d l ++ bytes_of_string " " ++ fmt_v nl
  | BoldNode => bytes_of_string "bold"
  | UnderlineNode => bytes_of_string "underline"
  | ItalicsNode => bytes_of_string "italics"
  | StrikethroughNode => bytes_of_string "strikethrough"
  | rootNode => []
  end.

(** The variables the walker of [Debug] captures. *)
Record debug_state : Type := DebugState {
  noSpace : bool;
  sb : bytes
}.

Definition Debug_walker (quote : bytes -> bytes) : Walker debug_state :=
  fun nn entering s =>
    if entering then
      let s1 :=
          if noSpace s then DebugState false (sb s)
          else DebugState (noSpace s) (sb s ++ bytes_of_string " ") in
      let s2 := DebugState (noSpace s1) (sb s1 ++ bytes_of_string "[") in
      match data nn with
      | rootNode => DebugState true (sb s2)
      | d => DebugState (noSpace s2) (sb s2 ++ Debug_switch quote d)
      end
    else DebugState (noSpace s) (sb s ++ bytes_of_string "]").

Definition Debug (quote : bytes -> bytes) (n : Node) : bytes :=
  sb (Walk n (Debug_walker quote) (DebugState true [])).

(** The calls [Walk] makes, in order. *)
Fixpoint calls (n : Node) : list (Node * bool) :=
  match n with
  | Tree _ cs => (n, true) :: flat_map calls cs ++ [(n, false)]
  end.

(** Every leaving call closes the last entering call that is still open. *)
Fixpoint nested (open : nat) (l : list (Node * bool)) : bool :=
  match l with
  | [] => Nat.eqb open 0
  | (_, true) :: l' => nested (S open) l'
  | (_, false) :: l' =>
    match open with
    | O => false
    | S open' => nested open' l'
    end
  end.

(** The rendering of a node: its bracketed label, then its children, each
    after a blank. *)
Fixpoint render (quote : bytes -> bytes) (n : Node) : bytes :=
  match n with
  | Tree d cs =>
    bytes_of_string "[" ++ Debug_switch quote d
                    ++ flat_map (fun c => bytes_of_string " " ++ render quote c) cs
                    ++ bytes_of_string "]"
  end.

(** The renderings of the children of the root, a blank between two. *)
Definition render_kids (quote : bytes -> bytes) (kids : list Node) : bytes :=
  match kids with
  | [] => []
  | c :: cs =>
    render quote c ++ flat_map (fun c => bytes_of_string " " ++ render quote c) cs
  end.

(** ** Groups within groups *)

(** Group [j] occurs within group [k] only. *)
Fixpoint inside (j k : nat) (r : Regexp) : bool :=
  match r with
  | Cap k' r' =>
    if Nat.eqb k' k then true else negb (Nat.eqb k' j) && inside j k r'
  | Cat r1 r2 | Alt r1 r2 => inside j k r1 && inside j k r2
  | Star _ r' => inside j k r'
  | _ => true
  end.

(** The requirement that asks nothing of the groups. *)
Definition no_req : creq := fun _ => (0, 0).

(** The state of the groups during a match: offsets up to the current
    one, and group [j] closed before group [k]. *)
Definition nest_inv (j k : nat) (st : mstate) : Prop :=
  0 <= m_pos st /\
  Nat.even (length (m_caps st)) = true /\
  (2 * k <= length (m_caps st))%nat /\
  caps_ok no_req 0 (m_pos st) (m_caps st) /\
  cap_hi (m_caps st) j <= cap_hi (m_caps st) k.

(** The child span of a rule result lies within the part of the window
    that the match consumes. *)
Definition child_in_match (ps : parseSpec NodeData) (g : list Z) : Prop :=
  (start ps = 0 /\ end_ ps = 0) \/
  (start ps = -1 /\ end_ ps = -1) \/
  (1 <= start ps /\ start ps <= end_ ps /\ end_ ps <= effective_end ps g).

(** The bytes a pending span still holds. *)
Definition span_len (sp : parseSpec ptr) : nat := Z.to_nat (end_ sp - start sp).

Definition pending (l : list (parseSpec ptr)) : nat := list_sum (map span_len l).

(** Group [k] occurs in [r]. *)
Fixpoint mentions (k : nat) (r : Regexp) : bool :=
  match r with
  | Cap k' r' => Nat.eqb k' k || mentions k r'
  | Cat r1 r2 | Alt r1 r2 => mentions k r1 || mentions k r2
  | Star _ r' => mentions k r'
  | _ => false
  end.

(** The child span a rule asks for ends where the match ends, or before. *)
Definition child_bound (r : rule) : Prop :=
  forall s g ps,
    FindStringSubmatchIndex (pattern r) s = Some g ->
    parser r (Match s g) = Some ps ->
    1 <= start ps -> 1 <= effective_end ps g ->
    end_ ps <= effective_end ps g.

(** ** [match.group] with its run-time checks *)

(** [match.group] with the run-time checks of Go: an index or a slice out
    of range panics, which is [None]. *)
Definition group_go (m : match_) (i : nat) : option bytes :=
  match nth_error (groups m) (i * 2) with
  | None => None
  | Some start =>
    if start =? -1 then Some []
    else
      match nth_error (groups m) (i * 2 + 1) with
      | None => None
      | Some end_ => slice (m_match m) start end_
      end
  end.

(** All the rules [NewParser] can put into a table. *)
Definition all_rules : list rule :=
  fixed_rules ++ optional_rules (MkParserOptions true true true true).

(** ** Plain texts *)

(** [r] matches no text made of the bytes of [alphabet] (bytes below 0x80). *)
Fixpoint dead (alphabet : list Z) (r : Regexp) : bool :=
  match r with
  | Chr c => negb (existsb (Z.eqb c) alphabet)
  | Cls neg items => forallb (fun c => negb (in_class neg items c)) alphabet
  | Dot => forallb (fun c => c =? LF) alphabet
  | DotAll => match alphabet with [] => true | _ => false end
  | Cat r1 r2 => dead alphabet r1 || dead alphabet r2
  | Alt r1 r2 => dead alphabet r1 && dead alphabet r2
  | Cap _ r' => dead alphabet r'
  | _ => false
  end.

(** The ASCII letters and digits, and the blank. *)
Definition plain_bytes : list Z :=
  32 :: map Z.of_nat (seq 48 10 ++ seq 65 26 ++ seq 97 26).

Definition is_plain (b : Z) : Prop := is_alnum b = true \/ b = 32.

(** ** Inline code *)

(** The backtick. *)
Definition BACKTICK : Z := 96.

Definition no_backtick (c : bytes) : Prop := Forall (fun b => b <> BACKTICK) c.

(** ** Blank lines *)

(** A line feed, then for each number of [ks] that many blanks and a line
    feed: lines that hold blanks only. *)
Fixpoint blank_lines (ks : list nat) : bytes :=
  match ks with
  | [] => [LF]
  | k :: ks' => LF :: repeat 32 k ++ blank_lines ks'
  end.

(** ** Headers *)

(** [n] hashes, a blank or a tab, and the text [w]. *)
Definition header_line (n : nat) (sep : Z) (w : bytes) : bytes :=
  repeat 35 n ++ sep :: w.

(** ** Bare URLs *)

(** A visible ASCII byte other than [<]. *)
Definition url_byte (b : Z) : Prop := 33 <= b < 127 /\ b <> 60.

(** A byte a URL can end with: not a double quote and none of [<.,:;')]]. *)
Definition url_end (c : Z) : Prop :=
  url_byte c /\ ~ In c [46; 44; 58; 59; DQUOTE; 39; 41; 93].

Definition scheme (secure : bool) : bytes :=
  bytes_of_string (if secure then "https://" else "http://").

(** * Properties of the matcher *)

Section Matcher.

(** ** Shape of the results *)

Lemma DecodeRune_width (s : bytes) :
  s <> [] -> 1 <= snd (DecodeRune s) <= len s.
Proof.
  unfold len.
  destruct s as [|s0 [|s1 [|s2 [|s3 t]]]]; intros H; try congruence;
    unfold DecodeRune;
    repeat match goal with
           | |- context [if ?b then _ else _] => destruct b
           end; cbn [snd length]; lia.
Qed.

Lemma take_spec (p : Z -> bool) (st st' : mstate) :
  In st' (take p st) ->
  exists c w,
    DecodeRune (m_rest st) = (c, w) /\ p c = true /\ 1 <= w <= len (m_rest st) /\
    st' = MState (m_pos st + w) c (skipn (Z.to_nat w) (m_rest st)) (m_caps st).
Proof.
  unfold take. intros H.
  destruct (m_rest st) as [|b t] eqn:E; [contradiction|].
  pose proof (DecodeRune_width (b :: t) ltac:(discriminate)) as W.
  destruct (DecodeRune (b :: t)) as [c w].
  destruct (p c) eqn:Hp; [|contradiction].
  destruct H as [<-|[]]. exists c, w. auto.
Qed.

Lemma min_len_nonneg (r : Regexp) : 0 <= min_len r.
Proof. induction r; cbn; lia. Qed.

Lemma reads_refl (st : mstate) : reads 0 st st.
Proof. unfold reads. lia. Qed.

Lemma reads_trans (n m : Z) (a b c : mstate) :
  reads n a b -> reads m b c -> reads (n + m) a c.
Proof. unfold reads. lia. Qed.

Lemma reads_weaken (n m : Z) (a b : mstate) :
  m <= n -> reads n a b -> reads m a b.
Proof. unfold reads. lia. Qed.

Lemma length_set_nth (n : nat) (v : Z) (l : list Z) :
  length (set_nth n v l) = length l.
Proof.
  revert n. induction l as [|x l IH]; intros [|n]; cbn; auto.
Qed.

Lemma nth_set_nth (i j : nat) (v d : Z) (l : list Z) :
  nth i (set_nth j v l) d =
  if (Nat.eqb i j && Nat.ltb j (length l))%bool then v else nth i l d.
Proof.
  revert i j. induction l as [|x l IH]; intros i j.
  - cbn [set_nth length]. rewrite andb_false_r. reflexivity.
  - destruct j as [|j], i as [|i]; cbn [set_nth nth length]; auto.
Qed.

Lemma take_reads (p : Z -> bool) (st st' : mstate) :
  In st' (take p st) -> reads 1 st st'.
Proof.
  intros H. apply take_spec in H as (c & w & _ & _ & W & ->).
  unfold reads, len in *. cbn. rewrite length_skipn. lia.
Qed.

(** An induction principle for the iterations of a star. *)
Lemma star_loop_ind (P : mstate -> mstate -> Prop) (body : mstate -> list mstate) :
  (forall st, P st st) ->
  (forall a b c, In b (body a) -> m_pos a < m_pos b -> P b c -> P a c) ->
  forall fuel greedy st st',
    In st' (star_loop body greedy fuel st) -> P st st'.
Proof.
  intros Hrefl Hstep. induction fuel as [|fuel IH]; intros greedy st st' H.
  - destruct H as [<-|[]]. apply Hrefl.
  - cbn [star_loop] in H.
    assert (In st' (flat_map (fun st1 => if m_pos st <? m_pos st1
                                         then star_loop body greedy fuel st1
                                         else []) (body st)) \/ st' = st)
      as [H'| ->].
    { destruct greedy.
      - apply in_app_or in H as [H|[H|[]]]; auto.
      - destruct H as [H|H]; auto. }
    + apply in_flat_map in H' as (st1 & H1 & H2).
      destruct (m_pos st <? m_pos st1) eqn:E; [|contradiction].
      apply Z.ltb_lt in E. eapply Hstep; eauto.
    + apply Hrefl.
Qed.

Lemma run_reads (r : Regexp) :
  forall st st', In st' (run r st) -> reads (min_len r) st st'.
Proof.
  induction r; intros st st' H; cbn [run min_len] in *.
  - destruct H as [<-|[]]. apply reads_refl.
  - eapply take_reads; eauto.
  - eapply take_reads; eauto.
  - eapply take_reads; eauto.
  - eapply take_reads; eauto.
  - destruct (m_pos st =? 0); [|contradiction]. destruct H as [<-|[]]. apply reads_refl.
  - destruct (m_rest st); [|contradiction]. destruct H as [<-|[]]. apply reads_refl.
  - destruct (at_word_boundary st); [|contradiction]. destruct H as [<-|[]]. apply reads_refl.
  - apply in_flat_map in H as (st1 & H1 & H2).
    eapply reads_trans; eauto.
  - apply in_app_or in H as [H|H]; [apply IHr1 in H | apply IHr2 in H];
      eapply reads_weaken; eauto; lia.
  - revert H. apply star_loop_ind with (P := reads 0).
    + apply reads_refl.
    + intros a b c Hb _ Hc. apply IHr in Hb.
      pose proof (min_len_nonneg r).
      eapply reads_weaken; [|eapply reads_trans; eauto]. lia.
  - apply in_map_iff in H as (st1 & <- & H1). apply IHr in H1.
    unfold reads, set_cap in *. cbn. rewrite !length_set_nth. lia.
Qed.

(** ** Capture offsets *)

Lemma caps_ok_mono (req : creq) (base pos pos' : Z) (c : list Z) :
  pos <= pos' -> caps_ok req base pos c -> caps_ok req base pos' c.
Proof.
  intros Hle H k Hk. destruct (H k Hk) as [?|(? & ? & ?)]; [left|right]; auto.
  repeat split; auto; lia.
Qed.

Lemma take_caps (p : Z -> bool) (st st' : mstate) :
  In st' (take p st) -> m_caps st' = m_caps st.
Proof. intros H. apply take_spec in H as (c & w & _ & _ & _ & ->). reflexivity. Qed.

Lemma caps_ok_set_cap (req : creq) (base : Z) (k : nat) (a : Z) (st : mstate) :
  (1 <= k)%nat ->
  Nat.even (length (m_caps st)) = true ->
  caps_ok req base (m_pos st) (m_caps st) ->
  base + fst (req k) <= a -> a + snd (req k) <= m_pos st ->
  caps_ok req base (m_pos st) (m_caps (set_cap k a st)).
Proof.
  intros Hk Hev Hok Ha Hb j Hj. unfold set_cap, cap_lo, cap_hi. cbn [m_caps m_pos].
  rewrite !nth_set_nth, !length_set_nth.
  destruct (Nat.eq_dec j k) as [->|Hne].
  - assert (E1 : Nat.eqb (2 * k - 2) (2 * k - 1) = false) by (apply Nat.eqb_neq; lia).
    rewrite E1, !Nat.eqb_refl. cbn [andb].
    destruct (Nat.ltb (2 * k - 1) (length (m_caps st))) eqn:L1.
    + apply Nat.ltb_lt in L1.
      assert (L2 : Nat.ltb (2 * k - 2) (length (m_caps st)) = true)
        by (apply Nat.ltb_lt; lia).
      rewrite L2. right. lia.
    + apply Nat.ltb_ge in L1.
      assert (L3 : (length (m_caps st) <= 2 * k - 2)%nat).
      { apply Nat.even_spec in Hev as [n Hn]. lia. }
      assert (L2 : Nat.ltb (2 * k - 2) (length (m_caps st)) = false)
        by (apply Nat.ltb_ge; exact L3).
      rewrite L2, ?andb_false_r. left. split; apply nth_overflow; lia.
  - assert (E1 : Nat.eqb (2 * j - 2) (2 * k - 1) = false) by (apply Nat.eqb_neq; lia).
    assert (E2 : Nat.eqb (2 * j - 2) (2 * k - 2) = false) by (apply Nat.eqb_neq; lia).
    assert (E3 : Nat.eqb (2 * j - 1) (2 * k - 1) = false) by (apply Nat.eqb_neq; lia).
    assert (E4 : Nat.eqb (2 * j - 1) (2 * k - 2) = false) by (apply Nat.eqb_neq; lia).
    rewrite E1, E2, E3, E4. cbn [andb]. apply (Hok j Hj).
Qed.

Lemma run_caps_ok (req : creq) (base : Z) (r : Regexp) :
  forall p st st',
    check req p r = true ->
    base + p <= m_pos st ->
    Nat.even (length (m_caps st)) = true ->
    caps_ok req base (m_pos st) (m_caps st) ->
    In st' (run r st) ->
    caps_ok req base (m_pos st') (m_caps st').
Proof.
  induction r; intros p st st' Hc Hp Hev Hok H; cbn [run check] in *;
    try (apply take_spec in H as (c0 & w & _ & _ & W & ->); cbn [m_pos m_caps];
         eapply caps_ok_mono; [|eassumption]; lia).
  - destruct H as [<-|[]]; auto.
  - destruct (m_pos st =? 0); [|contradiction]. destruct H as [<-|[]]; auto.
  - destruct (m_rest st); [|contradiction]. destruct H as [<-|[]]; auto.
  - destruct (at_word_boundary st); [|contradiction]. destruct H as [<-|[]]; auto.
  - apply andb_prop in Hc as [Hc1 Hc2].
    apply in_flat_map in H as (st1 & H1 & H2).
    pose proof (run_reads _ _ _ H1) as (R1 & R2 & R3).
    eapply IHr2; [exact Hc2| | | |exact H2].
    + lia.
    + rewrite R3. exact Hev.
    + eapply IHr1; eauto.
  - apply andb_prop in Hc as [Hc1 Hc2].
    apply in_app_or in H as [H|H]; [eapply IHr1|eapply IHr2]; eauto.
  - refine (star_loop_ind
              (fun a b => base + p <= m_pos a ->
                          Nat.even (length (m_caps a)) = true ->
                          caps_ok req base (m_pos a) (m_caps a) ->
                          caps_ok req base (m_pos b) (m_caps b))
              (run r) _ _ _ _ _ _ H Hp Hev Hok); clear st st' Hp Hev Hok H.
    + auto.
    + intros a b c Hb Hlt Hbc Hp Hev Hok.
      pose proof (run_reads _ _ _ Hb) as (R1 & R2 & R3).
      apply Hbc; [lia|rewrite R3; exact Hev|].
      eapply IHr; eauto.
  - apply andb_prop in Hc as [Hc Hc4]. apply andb_prop in Hc as [Hc Hc3].
    apply andb_prop in Hc as [Hc1 Hc2].
    apply Nat.leb_le in Hc1. apply Z.leb_le in Hc2, Hc3.
    apply in_map_iff in H as (st1 & <- & H1).
    pose proof (run_reads _ _ _ H1) as (R1 & R2 & R3).
    apply caps_ok_set_cap with (st := st1); auto.
    + rewrite R3. exact Hev.
    + eapply IHr; eauto.
    + lia.
    + lia.
Qed.

(** ** Groups that take part in every match *)

Lemma cap_lo_set_cap (j k : nat) (a : Z) (st : mstate) :
  0 <= a -> 0 <= m_pos st ->
  0 <= cap_lo (m_caps st) k -> 0 <= cap_lo (m_caps (set_cap j a st)) k.
Proof.
  intros Ha Hp Hk. unfold set_cap, cap_lo in *. cbn [m_caps m_pos].
  rewrite !nth_set_nth.
  repeat match goal with
         | |- context [if ?b then _ else _] => destruct b
         end; auto.
Qed.

Lemma run_keeps_set (k : nat) (r : Regexp) :
  forall st st',
    0 <= m_pos st -> 0 <= cap_lo (m_caps st) k ->
    In st' (run r st) -> 0 <= cap_lo (m_caps st') k.
Proof.
  induction r; intros st st' Hp Hk H; cbn [run] in *;
    try (apply take_caps in H; rewrite H; exact Hk).
  - destruct H as [<-|[]]; auto.
  - destruct (m_pos st =? 0); [|contradiction]. destruct H as [<-|[]]; auto.
  - destruct (m_rest st); [|contradiction]. destruct H as [<-|[]]; auto.
  - destruct (at_word_boundary st); [|contradiction]. destruct H as [<-|[]]; auto.
  - apply in_flat_map in H as (st1 & H1 & H2).
    pose proof (run_reads _ _ _ H1) as (R1 & _).
    pose proof (min_len_nonneg r1).
    apply (IHr2 st1 st'); [lia| |exact H2]. apply (IHr1 st st1); auto.
  - apply in_app_or in H as [H|H]; eauto.
  - refine (star_loop_ind
              (fun a b => 0 <= m_pos a -> 0 <= cap_lo (m_caps a) k ->
                          0 <= cap_lo (m_caps b) k)
              (run r) _ _ _ _ _ _ H Hp Hk); clear st st' Hp Hk H.
    + auto.
    + intros a b c Hb Hlt Hbc Hp Hk. apply Hbc; [lia|]. eapply IHr; eauto.
  - apply in_map_iff in H as (st1 & <- & H1).
    pose proof (run_reads _ _ _ H1) as (R1 & _).
    pose proof (min_len_nonneg r).
    apply cap_lo_set_cap; auto; [lia|]. eapply IHr; eauto.
Qed.

Lemma run_sets (ks : list nat) (r : Regexp) :
  forall st st',
    sets_one ks r = true -> 0 <= m_pos st -> in_range st ks ->
    In st' (run r st) ->
    exists k, In k ks /\ 0 <= cap_lo (m_caps st') k.
Proof.
  induction r; intros st st' Hs Hp Hr H; cbn [run sets_one] in *; try discriminate.
  - apply in_flat_map in H as (st1 & H1 & H2).
    pose proof (run_reads _ _ _ H1) as (R1 & _ & R3).
    pose proof (min_len_nonneg r1).
    apply orb_prop in Hs as [Hs|Hs].
    + destruct (IHr1 _ _ Hs Hp Hr H1) as (k & Hk & Hset).
      exists k. split; auto. eapply run_keeps_set; [| |exact H2]; auto. lia.
    + eapply IHr2; [exact Hs| | |exact H2]; [lia|].
      intros k Hk. rewrite R3. auto.
  - apply andb_prop in Hs as [Hs1 Hs2].
    apply in_app_or in H as [H|H]; eauto.
  - apply in_map_iff in H as (st1 & <- & H1).
    pose proof (run_reads _ _ _ H1) as (R1 & _ & R3).
    pose proof (min_len_nonneg r).
    apply orb_prop in Hs as [Hs|Hs].
    + apply existsb_exists in Hs as (k' & Hin & E). apply Nat.eqb_eq in E. subst k'.
      exists k. split; auto.
      destruct (Hr k Hin) as [K1 K2].
      unfold set_cap, cap_lo. cbn [m_caps].
      rewrite !nth_set_nth, !length_set_nth.
      assert (E1 : Nat.eqb (2 * k - 2) (2 * k - 1) = false) by (apply Nat.eqb_neq; lia).
      assert (L : Nat.ltb (2 * k - 2) (length (m_caps st1)) = true)
        by (apply Nat.ltb_lt; lia).
      rewrite E1, Nat.eqb_refl, L. cbn [andb]. exact Hp.
    + destruct (IHr _ _ Hs Hp Hr H1) as (k' & Hk & Hset).
      exists k'. split; auto. apply cap_lo_set_cap; auto. lia.
Qed.

(** ** The search *)

Lemma search_spec (r : Regexp) :
  forall fuel st g,
    search r fuel st = Some g ->
    exists st0 st',
      reads 0 st st0 /\ m_caps st0 = m_caps st /\
      In st' (run r st0) /\ g = m_pos st0 :: m_pos st' :: m_caps st'.
Proof.
  induction fuel as [|fuel IH]; intros st g H; cbn [search] in H.
  - destruct (run r st) as [|st' l] eqn:E; [discriminate|].
    injection H as <-. exists st, st'. rewrite E.
    split; [apply reads_refl|]. split; [reflexivity|].
    split; [left|]; reflexivity.
  - destruct (run r st) as [|st' l] eqn:E.
    + destruct (take (fun _ => true) st) as [|st1 l1] eqn:T; [discriminate|].
      assert (T1 : In st1 (take (fun _ => true) st)) by (rewrite T; left; auto).
      pose proof (take_reads _ _ _ T1) as R. pose proof (take_caps _ _ _ T1) as C.
      destruct (IH _ _ H) as (st0 & st' & R' & C' & Hin & ->).
      exists st0, st'. split; [|split; [congruence|split; auto]].
      unfold reads in *. lia.
    + injection H as <-. exists st, st'. rewrite E.
      split; [apply reads_refl|]. split; [reflexivity|].
      split; [left|]; reflexivity.
Qed.

Lemma Find_ok (req : creq) (ks : list nat) (r : Regexp) (s : bytes) (g : list Z) :
  check req 0 r = true ->
  (ks = [] \/ (sets_one ks r = true /\ groups_in ks r = true)) ->
  FindStringSubmatchIndex r s = Some g ->
  submatch_ok req ks r s g.
Proof.
  intros Hc Hs H. unfold FindStringSubmatchIndex in H.
  apply search_spec in H as (st0 & st' & R & C & Hin & ->).
  cbn [m_pos m_rest m_caps] in *.
  destruct R as (R1 & R2 & R3). cbn [m_pos m_rest m_caps] in *.
  pose proof (run_reads _ _ _ Hin) as (Q1 & Q2 & Q3).
  assert (Hlen : length (m_caps st') = (2 * num_caps r)%nat).
  { rewrite Q3, C. apply repeat_length. }
  assert (Hok : caps_ok req (m_pos st0) (m_pos st') (m_caps st')).
  { eapply run_caps_ok with (p := 0); [exact Hc| | | |exact Hin].
    - lia.
    - rewrite C, repeat_length. rewrite Nat.even_mul. reflexivity.
    - rewrite C. intros k Hk. left. unfold cap_lo, cap_hi.
      split; apply nth_repeat. }
  assert (Hnth : forall k, (1 <= k <= num_caps r)%nat ->
                           nth (k * 2) (m_pos st0 :: m_pos st' :: m_caps st') 0
                           = cap_lo (m_caps st') k /\
                           nth (k * 2 + 1) (m_pos st0 :: m_pos st' :: m_caps st') 0
                           = cap_hi (m_caps st') k).
  { intros k Hk. unfold cap_lo, cap_hi.
    replace (k * 2)%nat with (S (S (2 * k - 2))) by lia.
    replace (S (S (2 * k - 2)) + 1)%nat with (S (S (2 * k - 1))) by lia.
    cbn [nth]. split; apply nth_indep; lia. }
  pose proof (len_nonneg := Zle_0_nat (length (m_rest st'))).
  unfold len in *.
  constructor; unfold len.
  - cbn [length]. lia.
  - cbn [nth]. lia.
  - cbn [nth]. lia.
  - intros k Hk. destruct (Hnth k Hk) as [-> ->].
    destruct (Hok k ltac:(lia)) as [?|(? & ? & ?)]; [left; auto|right].
    repeat split; cbn [nth]; lia.
  - destruct Hs as [->|[Hs Hg]]; [left; auto|right].
    assert (Hr : in_range st0 ks).
    { intros k Hk. unfold groups_in in Hg. rewrite forallb_forall in Hg.
      specialize (Hg k Hk). apply andb_prop in Hg as [G1 G2].
      apply Nat.leb_le in G1, G2. rewrite C, repeat_length. lia. }
    destruct (run_sets ks r st0 st' Hs ltac:(lia) Hr Hin) as (k & Hk & Hset).
    exists k. split; auto.
    destruct (Hr k Hk) as [K1 K2]. rewrite C, repeat_length in K2.
    destruct (Hnth k ltac:(lia)) as [-> _]. exact Hset.
Qed.

End Matcher.

(** * Properties of the rule table *)

Section Rules.

Lemma len_substr (s : bytes) (a b : Z) :
  0 <= a -> a <= b -> b <= len s -> len (substr s a b) = b - a.
Proof.
  intros. unfold substr, len in *. rewrite length_firstn, length_skipn. lia.
Qed.

Lemma group_cases (req : creq) (ks : list nat) (r : Regexp) (s : bytes)
      (g : list Z) (k : nat) (a b : Z) :
  submatch_ok req ks r s g ->
  req k = (a, b) -> 0 <= a -> 0 <= b ->
  (1 <= k <= num_caps r)%nat ->
  let m := Match s g in
  (m_start m k = -1 /\ m_end m k = -1 /\ len (group m k) = 0) \/
  (a <= m_start m k /\ m_start m k + b <= m_end m k /\
   m_end m k <= nth 1 g 0 /\ len (group m k) = m_end m k - m_start m k).
Proof.
  intros [L S [E1 E2] C _] Hreq Ha Hb Hk m. subst m.
  unfold group, m_start, m_end. cbn [groups m_match].
  specialize (C k Hk). rewrite Hreq in C. cbn [fst snd] in C.
  destruct C as [[C1 C2]|(C1 & C2 & C3)].
  - left. rewrite C1, C2. auto.
  - right. repeat split; auto.
    destruct (nth (k * 2) g 0 =? -1) eqn:E; [apply Z.eqb_eq in E; lia|].
    apply len_substr; lia.
Qed.

Lemma leaf_rule_ok (r : rule) :
  (forall m, exists d, parser r m = leaf d) ->
  1 <= min_len (pattern r) ->
  check (fun _ => (0, 0)) 0 (pattern r) = true ->
  rule_ok r.
Proof.
  intros Hleaf Hmin Hc s g H.
  destruct (Find_ok _ [] _ _ _ Hc (or_introl eq_refl) H) as [L S [E1 E2] C _].
  destruct (Hleaf (Match s g)) as [d ->].
  eexists. split; [reflexivity|].
  unfold effective_end, child_ok. cbn. repeat split; auto; lia.
Qed.

Ltac leaf_rule :=
  apply leaf_rule_ok;
  [ intros m; eexists; reflexivity
  | vm_compute; discriminate
  | vm_compute; reflexivity ].

Lemma ruleSoftHyphen_ok : rule_ok ruleSoftHyphen.
Proof. leaf_rule. Qed.
Lemma ruleEscape_ok : rule_ok ruleEscape.
Proof. leaf_rule. Qed.
Lemma ruleCodeBlock_ok : rule_ok ruleCodeBlock.
Proof. leaf_rule. Qed.
Lemma ruleCodeInline_ok : rule_ok ruleCodeInline.
Proof. leaf_rule. Qed.
Lemma ruleURLNoEmbed_ok : rule_ok ruleURLNoEmbed.
Proof. leaf_rule. Qed.
Lemma ruleURL_ok : rule_ok ruleURL.
Proof. leaf_rule. Qed.
Lemma ruleCustomEmoji_ok : rule_ok ruleCustomEmoji.
Proof. leaf_rule. Qed.
Lemma ruleNamedEmoji_ok : rule_ok ruleNamedEmoji.
Proof. leaf_rule. Qed.
Lemma ruleUnescapeEmoticon_ok : rule_ok ruleUnescapeEmoticon.
Proof. leaf_rule. Qed.
Lemma ruleChannelMention_ok : rule_ok ruleChannelMention.
Proof. leaf_rule. Qed.
Lemma ruleRoleMention_ok : rule_ok ruleRoleMention.
Proof. leaf_rule. Qed.
Lemma ruleUserMention_ok : rule_ok ruleUserMention.
Proof. leaf_rule. Qed.
Lemma ruleSpecialMention_ok : rule_ok ruleSpecialMention.
Proof. leaf_rule. Qed.
Lemma ruleTimestamp_ok : rule_ok ruleTimestamp.
Proof. leaf_rule. Qed.
Lemma ruleNewline_ok : rule_ok ruleNewline.
Proof. leaf_rule. Qed.

Ltac find_ok req ks H F :=
  match type of H with
  | FindStringSubmatchIndex ?r ?s = Some ?g =>
    assert (F : submatch_ok (req_of req) ks r s g)
      by (apply Find_ok;
          [ vm_compute; reflexivity
          | first [ left; reflexivity
                  | right; split; vm_compute; reflexivity ]
          | exact H ]);
    let E := fresh "E" in
    pose proof (sm_end _ _ _ _ _ F) as E;
    let v := eval vm_compute in (min_len r) in
    change (min_len r) with v in E;
    let S := fresh "S" in
    pose proof (sm_start _ _ _ _ _ F) as S
  end.

Ltac grp F k G :=
  pose proof (group_cases _ _ _ _ _ k _ _ F eq_refl
                          ltac:(lia) ltac:(lia) ltac:(vm_compute; lia)) as G;
  cbv zeta in G.

Ltac split_ltb :=
  repeat match goal with
         | |- context [0 <? ?x] =>
           let E := fresh "E" in
           destruct (0 <? x) eqn:E;
           [apply Z.ltb_lt in E | apply Z.ltb_ge in E]
         end.

Ltac finish_rule :=
  eexists; split; [reflexivity|];
  unfold effective_end, child_ok; cbn [matchEnd start end_];
  repeat match goal with
         | |- context [?x =? 0] =>
           let E := fresh "E" in
           destruct (x =? 0) eqn:E;
           [apply Z.eqb_eq in E | apply Z.eqb_neq in E]
         end;
  lia.

Lemma ruleBlockQuote_ok : rule_ok ruleBlockQuote.
Proof.
  intros s g H. unfold ruleBlockQuote in *. cbn [pattern parser] in *.
  find_ok [(1%nat, (1, 0)); (2%nat, (1, 0))] (@nil nat) H F.
  grp F 1%nat G1. grp F 2%nat G2.
  split_ltb; finish_rule.
Qed.

Lemma ruleSpoiler_ok : rule_ok ruleSpoiler.
Proof.
  intros s g H. unfold ruleSpoiler in *. cbn [pattern parser] in *.
  find_ok [(1%nat, (1, 0))] (@nil nat) H F.
  grp F 1%nat G1.
  finish_rule.
Qed.

Lemma ruleStrikethrough_ok : rule_ok ruleStrikethrough.
Proof.
  intros s g H. unfold ruleStrikethrough in *. cbn [pattern parser] in *.
  find_ok [(1%nat, (1, 0))] (@nil nat) H F.
  grp F 1%nat G1.
  finish_rule.
Qed.

Lemma ruleListItem_ok : rule_ok ruleListItem.
Proof.
  intros s g H. unfold ruleListItem in *. cbn [pattern parser] in *.
  find_ok [(2%nat, (1, 0))] (@nil nat) H F.
  grp F 2%nat G2.
  finish_rule.
Qed.

Lemma ruleHeaderItem_ok : rule_ok ruleHeaderItem.
Proof.
  intros s g H. unfold ruleHeaderItem in *. cbn [pattern parser] in *.
  find_ok [(1%nat, (0, 1)); (3%nat, (1, 0))] [1%nat] H F.
  grp F 1%nat G1. grp F 3%nat G3.
  destruct (sm_sets _ _ _ _ _ F) as [?|(k & [<-|[]] & K)]; [discriminate|].
  change (nth (1 * 2) g 0) with (m_start (Match s g) 1) in K.
  finish_rule.
Qed.

Lemma ruleBold_ok : rule_ok ruleBold.
Proof.
  intros s g H. unfold ruleBold in *. cbn [pattern parser] in *.
  find_ok [(1%nat, (0, 1)); (2%nat, (1, 0))] [1%nat] H F.
  grp F 1%nat G1. grp F 2%nat G2.
  destruct (sm_sets _ _ _ _ _ F) as [?|(k & [<-|[]] & K)]; [discriminate|].
  change (nth (1 * 2) g 0) with (m_start (Match s g) 1) in K.
  finish_rule.
Qed.

Lemma ruleUnderline_ok : rule_ok ruleUnderline.
Proof.
  intros s g H. unfold ruleUnderline in *. cbn [pattern parser] in *.
  find_ok [(1%nat, (0, 1)); (2%nat, (1, 0))] [1%nat] H F.
  grp F 1%nat G1. grp F 2%nat G2.
  destruct (sm_sets _ _ _ _ _ F) as [?|(k & [<-|[]] & K)]; [discriminate|].
  change (nth (1 * 2) g 0) with (m_start (Match s g) 1) in K.
  finish_rule.
Qed.

Lemma ruleText_ok : rule_ok ruleText.
Proof.
  intros s g H. unfold ruleText in *. cbn [pattern parser] in *.
  find_ok [(1%nat, (0, 1))] [1%nat] H F.
  grp F 1%nat G1.
  destruct (sm_sets _ _ _ _ _ F) as [?|(k & [<-|[]] & K)]; [discriminate|].
  change (nth (1 * 2) g 0) with (m_start (Match s g) 1) in K.
  finish_rule.
Qed.

Lemma ruleItalics_ok : rule_ok ruleItalics.
Proof.
  intros s g H. unfold ruleItalics in *. cbn [pattern parser] in *.
  find_ok [(1%nat, (0, 1)); (2%nat, (1, 0)); (3%nat, (0, 1)); (4%nat, (1, 0))]
          [1%nat; 3%nat] H F.
  grp F 1%nat G1. grp F 2%nat G2. grp F 3%nat G3. grp F 4%nat G4.
  destruct (sm_sets _ _ _ _ _ F) as [?|(k & [<-|[<-|[]]] & K)]; [discriminate| |].
  - change (nth (1 * 2) g 0) with (m_start (Match s g) 1) in K.
    split_ltb; finish_rule.
  - change (nth (3 * 2) g 0) with (m_start (Match s g) 3) in K.
    split_ltb; finish_rule.
Qed.

Lemma ruleMaskedLink_ok : rule_ok ruleMaskedLink.
Proof.
  intros s g H. unfold ruleMaskedLink in *. cbn [pattern parser] in *.
  find_ok [(1%nat, (0, 2))] [1%nat] H F.
  grp F 1%nat G1.
  destruct (sm_sets _ _ _ _ _ F) as [?|(k & [<-|[]] & K)]; [discriminate|].
  change (nth (1 * 2) g 0) with (m_start (Match s g) 1) in K.
  unfold slice.
  assert (L : (0 <=? 1) && (1 <=? len (group (Match s g) 1) - 1)
              && (len (group (Match s g) 1) - 1 <=? len (group (Match s g) 1))
              = true).
  { rewrite !andb_true_iff, !Z.leb_le. lia. }
  rewrite L. finish_rule.
Qed.

(** The child span of a block quote is never absent: it is the span of a
    group, set or not. *)
Lemma ruleBlockQuote_child (s : bytes) (g : list Z) (ps : parseSpec NodeData) :
  FindStringSubmatchIndex (pattern ruleBlockQuote) s = Some g ->
  parser ruleBlockQuote (Match s g) = Some ps ->
  (start ps = -1 /\ end_ ps = -1) \/
  (1 <= start ps /\ start ps <= end_ ps /\ end_ ps <= len s).
Proof.
  intros H Hps. unfold ruleBlockQuote in *. cbn [pattern parser] in *.
  find_ok [(1%nat, (1, 0)); (2%nat, (1, 0))] (@nil nat) H F.
  grp F 1%nat G1. grp F 2%nat G2.
  injection Hps as <-. cbn [start end_].
  split_ltb; lia.
Qed.

(** Every rule of every rule table is well behaved. *)
Lemma NewParser_rules_ok (options : option ParserOptions) (r : rule) :
  In r (rules (NewParser options)) -> rule_ok r.
Proof.
  unfold NewParser. cbn [rules].
  destruct (EnableBlockQuote _), (EnableMaskedLinks _), (EnableMentions _),
    (EnableForumMarkdown _); cbn [app In];
    intros H;
    repeat match type of H with
           | _ \/ _ => destruct H as [<-|H]
           | False => contradiction
           end;
    auto using ruleSoftHyphen_ok, ruleEscape_ok, ruleBlockQuote_ok,
      ruleCodeBlock_ok, ruleCodeInline_ok, ruleSpoiler_ok, ruleMaskedLink_ok,
      ruleURLNoEmbed_ok, ruleURL_ok, ruleCustomEmoji_ok, ruleNamedEmoji_ok,
      ruleUnescapeEmoticon_ok, ruleChannelMention_ok, ruleRoleMention_ok,
      ruleUserMention_ok, ruleSpecialMention_ok, ruleTimestamp_ok,
      ruleHeaderItem_ok, ruleListItem_ok, ruleNewline_ok, ruleBold_ok,
      ruleUnderline_ok, ruleItalics_ok, ruleStrikethrough_ok, ruleText_ok.
Qed.

End Rules.

(** * Properties of the rule selection *)

Section Selection.

Variables (lastCapture : bytes) (blockQuoteEnd builder_start : Z)
          (inspectionSource : bytes).

Local Abbreviation select rs :=
  (select_rule rs lastCapture blockQuoteEnd builder_start inspectionSource).
Local Abbreviation skip r := (skipped r lastCapture blockQuoteEnd builder_start).
Local Abbreviation candidate :=
  (candidate lastCapture blockQuoteEnd builder_start inspectionSource).
Local Abbreviation rejected :=
  (rejected lastCapture blockQuoteEnd builder_start inspectionSource).

Lemma candidate_or_rejected (r : rule) :
  (exists g, candidate r g) \/ rejected r.
Proof.
  unfold candidate, rejected.
  destruct (skip r); [right; auto|].
  destruct (FindStringSubmatchIndex (pattern r) inspectionSource) as [g|];
    [left; eauto|right; auto].
Qed.

Lemma select_rule_rejected (r : rule) (rs : list rule) :
  rejected r -> select (r :: rs) = select rs.
Proof.
  intros [H|H]; cbn [select_rule]; rewrite H; [reflexivity|].
  destruct (skip r); reflexivity.
Qed.

Lemma select_rule_candidate (r : rule) (g : list Z) (rs : list rule) :
  candidate r g -> select (r :: rs) = Some (r, g).
Proof. intros [H1 H2]. cbn [select_rule]. rewrite H1, H2. reflexivity. Qed.

(** The selected rule is the first candidate of the table. *)
Lemma select_rule_first (pre post : list rule) (r : rule) (g : list Z) :
  Forall rejected pre -> candidate r g ->
  select (pre ++ r :: post) = Some (r, g).
Proof.
  intros Hpre Hc. induction Hpre as [|x pre Hx _ IH]; cbn [app].
  - apply select_rule_candidate. exact Hc.
  - rewrite select_rule_rejected; auto.
Qed.

Lemma select_rule_spec (rs : list rule) (r : rule) (g : list Z) :
  select rs = Some (r, g) ->
  exists pre post,
    rs = pre ++ r :: post /\ Forall rejected pre /\ candidate r g.
Proof.
  induction rs as [|x rs IH]; intros H; [discriminate|].
  destruct (candidate_or_rejected x) as [[g' Hc]|Hr].
  - rewrite (select_rule_candidate _ _ _ Hc) in H. injection H as <- <-.
    exists [], rs. auto.
  - rewrite (select_rule_rejected _ _ Hr) in H.
    destruct (IH H) as (pre & post & -> & Hpre & Hc).
    exists (x :: pre), post. auto.
Qed.

Lemma select_rule_none (rs : list rule) :
  select rs = None -> Forall rejected rs.
Proof.
  induction rs as [|x rs IH]; intros H; [constructor|].
  destruct (candidate_or_rejected x) as [[g' Hc]|Hr].
  - rewrite (select_rule_candidate _ _ _ Hc) in H. discriminate.
  - rewrite (select_rule_rejected _ _ Hr) in H. auto.
Qed.

End Selection.

(** * The plain-text fallback *)

Section Fallback.

Lemma any_matches (c : Z) : in_class false [PerlS; PerlNotS] c = true.
Proof. unfold in_class. cbn. destruct (is_space c); reflexivity. Qed.

Lemma run_any (st : mstate) :
  m_rest st <> [] ->
  exists st1, run any st = [st1] /\ reads 1 st st1.
Proof.
  intros Hne.
  assert (H : exists st1, run any st = [st1]).
  { cbn [run any]. unfold take. destruct (m_rest st) as [|b t]; [congruence|].
    destruct (DecodeRune (b :: t)) as [c w]. rewrite any_matches. eauto. }
  destruct H as [st1 H]. exists st1. split; auto.
  apply (run_reads any). rewrite H. left. reflexivity.
Qed.

(** [[\s\S]*], greedy or not, can read up to the end of the text. *)
Lemma star_any_reaches_end (greedy : bool) :
  forall fuel st,
    (length (m_rest st) <= fuel)%nat ->
    exists st', In st' (star_loop (run any) greedy fuel st) /\ m_rest st' = [].
Proof.
  induction fuel as [|fuel IH]; intros st Hlen.
  - exists st. split; [left; reflexivity|].
    destruct (m_rest st); [reflexivity|cbn in Hlen; lia].
  - cbn [star_loop].
    destruct (m_rest st) as [|b t] eqn:E.
    + exists st. split; auto. destruct greedy; [apply in_or_app; right|]; left; reflexivity.
    + destruct (run_any st ltac:(rewrite E; discriminate)) as (st1 & H1 & R1 & R2 & R3).
      rewrite H1. cbn [flat_map]. rewrite app_nil_r.
      assert (L : (m_pos st <? m_pos st1) = true) by (apply Z.ltb_lt; lia).
      rewrite L.
      destruct (IH st1) as (st' & Hin & Hend).
      { unfold len in R2. rewrite E in R2. cbn [length] in R2, Hlen. lia. }
      exists st'. split; auto.
      destruct greedy; [apply in_or_app; left|right]; exact Hin.
Qed.

Lemma search_head (r : Regexp) (fuel : nat) (st st' : mstate) (l : list mstate) :
  run r st = st' :: l ->
  search r fuel st = Some (m_pos st :: m_pos st' :: m_caps st').
Proof. intros H. destruct fuel; cbn [search]; rewrite H; reflexivity. Qed.

Lemma search_in (r : Regexp) (fuel : nat) (st st' : mstate) :
  In st' (run r st) -> exists g, search r fuel st = Some g.
Proof.
  intros H. destruct (run r st) as [|x l] eqn:E; [contradiction|].
  erewrite search_head; eauto.
Qed.

Lemma in_run_Cat (r1 r2 : Regexp) (st st1 st2 : mstate) :
  In st1 (run r1 st) -> In st2 (run r2 st1) -> In st2 (run (Cat r1 r2) st).
Proof. intros H1 H2. cbn [run]. apply in_flat_map. eauto. Qed.

Lemma in_run_Alt_l (r1 r2 : Regexp) (st st' : mstate) :
  In st' (run r1 st) -> In st' (run (Alt r1 r2) st).
Proof. intros H. cbn [run]. apply in_or_app. auto. Qed.

Lemma in_run_Alt_r (r1 r2 : Regexp) (st st' : mstate) :
  In st' (run r2 st) -> In st' (run (Alt r1 r2) st).
Proof. intros H. cbn [run]. apply in_or_app. auto. Qed.

Lemma in_run_Cap (k : nat) (r : Regexp) (st st' : mstate) :
  In st' (run r st) -> In (set_cap k (m_pos st) st') (run (Cap k r) st).
Proof. intros H. cbn [run]. apply in_map. exact H. Qed.

Lemma in_run_Bol (st : mstate) : m_pos st = 0 -> In st (run Bol st).
Proof. intros H. cbn [run]. rewrite H. left. reflexivity. Qed.

Lemma in_run_Eol (st : mstate) : m_rest st = [] -> In st (run Eol st).
Proof. intros H. cbn [run]. rewrite H. left. reflexivity. Qed.

(** The pattern of the text rule matches every non-empty window. *)
Lemma patternText_matches (s : bytes) :
  s <> [] -> exists g, FindStringSubmatchIndex patternText s = Some g.
Proof.
  intros Hne. unfold FindStringSubmatchIndex.
  set (st0 := MState 0 (-1) s _).
  destruct (run_any st0 Hne) as (st1 & H1 & _).
  destruct (star_any_reaches_end false (length (m_rest st1)) st1 (le_n _))
    as (st2 & H2 & Hend).
  apply search_in with (st' := set_cap 1 (m_pos st0) st2).
  unfold patternText. cbn [Seq].
  eapply in_run_Cat; [apply in_run_Bol; reflexivity|].
  eapply in_run_Cat.
  - apply in_run_Cap. unfold Plus. eapply in_run_Cat.
    + rewrite H1. left. reflexivity.
    + cbn [run]. exact H2.
  - repeat apply in_run_Alt_r. apply in_run_Eol. exact Hend.
Qed.

(** So a table that ends with the text rule always selects a rule. *)
Lemma select_rule_total (rs : list rule) (lc : bytes) (bqe bs : Z) (w : bytes) :
  In ruleText rs -> w <> [] -> select_rule rs lc bqe bs w <> None.
Proof.
  intros Hin Hne Hnone. apply select_rule_none in Hnone.
  rewrite Forall_forall in Hnone. destruct (Hnone _ Hin) as [H|H].
  - discriminate.
  - destruct (patternText_matches w Hne) as [g Hg].
    cbn [pattern ruleText] in H. congruence.
Qed.

Lemma ruleText_in (options : option ParserOptions) :
  In ruleText (rules (NewParser options)).
Proof.
  unfold NewParser. cbn [rules].
  repeat (apply in_or_app; right). cbn. auto 10.
Qed.

End Fallback.

(** * Termination of [Parse] *)

Section Termination.

Variable options : option ParserOptions.
Variable source : bytes.

Local Abbreviation span_ok := (span_ok source).

Lemma weight_pos (sp : parseSpec ptr) : (1 <= weight sp)%nat.
Proof.
  unfold weight. set (l := Z.to_nat _).
  pose proof (Nat.pow_le_mono_r 2 0 (S l) ltac:(lia) ltac:(lia)) as P.
  cbn [Nat.pow] in *. lia.
Qed.

Lemma weight_child (sp b : parseSpec ptr) :
  start b < end_ b ->
  end_ sp - start sp <= end_ b - start b - 1 ->
  (2 * weight sp + 1 <= weight b)%nat.
Proof.
  intros Hb Hle. unfold weight.
  set (l := Z.to_nat (end_ sp - start sp)).
  set (L := Z.to_nat (end_ b - start b)).
  assert (HL : (S l <= L)%nat) by (subst l L; lia).
  pose proof (Nat.pow_le_mono_r 2 (S (S l)) (S L) ltac:(lia) ltac:(lia)) as P2.
  pose proof (Nat.pow_le_mono_r 2 0 (S l) ltac:(lia) ltac:(lia)) as P3.
  cbn [Nat.pow] in *. lia.
Qed.

Lemma len_slice (s : bytes) (a b : Z) :
  0 <= a -> a <= b -> b <= len s ->
  exists w, slice s a b = Some w /\ len w = b - a.
Proof.
  intros. unfold slice.
  assert (E : (0 <=? a) && (a <=? b) && (b <=? len s) = true)
    by (rewrite !andb_true_iff, !Z.leb_le; lia).
  rewrite E. eexists. split; [reflexivity|]. apply len_substr; lia.
Qed.

(** One iteration never panics, and what it leaves on the stack weighs
    less than what it found. *)
Lemma Parse_iter_progress (st : pstate) :
  Forall span_ok (remainingParses st) ->
  match Parse_iter (NewParser options) source st with
  | Next st' =>
    Forall span_ok (remainingParses st') /\
    (total (remainingParses st') < total (remainingParses st))%nat
  | Exit _ => True
  | Panic => False
  end.
Proof.
  intros Hst. unfold Parse_iter.
  destruct (remainingParses st) as [|builder remaining]; [exact I|].
  destruct (end_ builder <=? start builder) eqn:Hempty; [exact I|].
  apply Z.leb_gt in Hempty.
  inversion Hst as [|? ? Hb Hrem]; subst.
  destruct Hb as [Hb|[Hb1 Hb2]]; [lia|].
  destruct (len_slice source (start builder) (end_ builder)) as (w & -> & Hw);
    try lia.
  destruct (select_rule _ _ _ _ w) as [[rule groups]|] eqn:Hsel.
  2:{ apply select_rule_total in Hsel; auto using ruleText_in.
      intros ->. cbn in Hw. lia. }
  apply select_rule_spec in Hsel as (pre & post & Hrules & _ & [_ Hfind]).
  assert (Hin : In rule (rules (NewParser options)))
    by (rewrite Hrules; apply in_or_app; right; left; reflexivity).
  destruct (NewParser_rules_ok options rule Hin w groups Hfind)
    as (ps & -> & He1 & He2 & Hchild).
  unfold effective_end in He1, He2.
  set (me := if matchEnd ps =? 0 then nth 1 groups 0 else matchEnd ps) in *.
  unfold Parse_push, alloc. fold me.
  destruct (len_slice w 0 me) as (lc & -> & _); try lia.
  cbn [remainingParses].
  pose proof (weight_pos builder) as Wb.
  set (sib := ParseSpec (node builder) 0 (me + start builder) (end_ builder)).
  assert (Wsib : (2 * weight sib + 1 <= weight builder)%nat)
    by (apply weight_child; subst sib; cbn [start end_]; lia).
  assert (Osib : span_ok sib) by (right; subst sib; cbn [start end_]; lia).
  assert (Hkid : negb (start ps =? 0) || negb (end_ ps =? 0) = true ->
                 forall kid : parseSpec ptr,
                   start kid = start ps + start builder ->
                   end_ kid = end_ ps + start builder ->
                   span_ok kid /\ (2 * weight kid + 1 <= weight builder)%nat).
  { intros Hp kid K1 K2.
    destruct Hchild as [[C1 C2]|[[C1 C2]|(C1 & C2 & C3)]].
    - rewrite C1, C2 in Hp. discriminate.
    - split; [left; lia|]. apply weight_child; lia.
    - split; [right; lia|]. apply weight_child; lia. }
  unfold total, list_sum.
  destruct (negb (start ps =? 0) || negb (end_ ps =? 0)) eqn:Hp;
    [specialize (Hkid eq_refl)|clear Hkid];
    destruct (me + start builder =? end_ builder);
    cbn [map fold_right];
    try match goal with
        | |- Forall _ (?k :: _) /\ _ =>
          destruct (Hkid k eq_refl eq_refl) as [K1 K2]
        end;
    (split; [repeat (apply Forall_cons; [assumption|]); assumption
            |cbn [map fold_right]; lia]).
Qed.

Lemma Parse_loop_returns :
  forall fuel st,
    Forall span_ok (remainingParses st) ->
    (total (remainingParses st) < fuel)%nat ->
    exists h, Parse_loop fuel (NewParser options) source st = Some (Some h).
Proof.
  induction fuel as [|fuel IH]; intros st Hok Hfuel; [lia|].
  cbn [Parse_loop].
  pose proof (Parse_iter_progress st Hok) as P.
  destruct (Parse_iter (NewParser options) source st) as [st'|h|].
  - destruct P as [P1 P2]. apply IH; auto. lia.
  - eauto.
  - contradiction.
Qed.

End Termination.

(** * Anchored patterns *)

Section Anchored.

Lemma anchored_run (r : Regexp) :
  anchored r = true -> forall st, m_pos st <> 0 -> run r st = [].
Proof.
  induction r; cbn [anchored]; intros Ha st Hpos; try discriminate.
  - cbn [run]. destruct (m_pos st =? 0) eqn:E; [apply Z.eqb_eq in E; lia|reflexivity].
  - cbn [run]. rewrite IHr1; auto.
  - apply andb_prop in Ha as [H1 H2]. cbn [run]. rewrite IHr1, IHr2; auto.
  - cbn [run]. rewrite IHr; auto.
Qed.

Lemma search_none (r : Regexp) :
  anchored r = true ->
  forall fuel st, run r st = [] -> 0 <= m_pos st -> search r fuel st = None.
Proof.
  intros Ha. induction fuel as [|fuel IH]; intros st H Hpos; cbn [search]; rewrite H.
  - reflexivity.
  - destruct (take (fun _ => true) st) as [|st1 l] eqn:T; [reflexivity|].
    assert (T1 : In st1 (take (fun _ => true) st)) by (rewrite T; left; reflexivity).
    apply take_reads in T1 as (R1 & _).
    apply IH; [|lia]. apply anchored_run; auto. lia.
Qed.

(** For an anchored pattern the search is decided at offset 0. *)
Lemma Find_anchored (r : Regexp) (s : bytes) :
  anchored r = true -> FindStringSubmatchIndex r s = match_at_start r s.
Proof.
  intros Ha. unfold FindStringSubmatchIndex, match_at_start.
  fold (init_state r s).
  destruct (run r (init_state r s)) as [|st' l] eqn:E.
  - apply search_none; auto. cbn. lia.
  - erewrite search_head; eauto.
Qed.

End Anchored.

(** * The loop of [Parse], step by step *)

Section Loop.

Lemma length_update {A : Type} (n : nat) (f : A -> A) (l : list A) :
  length (update n f l) = length l.
Proof. revert n. induction l as [|x l IH]; intros [|n]; cbn; auto. Qed.

Lemma length_addChild (parent child : ptr) (h : store) :
  length (addChild parent child h) = length h.
Proof. apply length_update. Qed.

Lemma Parse_iter_Exit (p : Parser) (source : bytes) (st : pstate)
      (builder : parseSpec ptr) (remaining : list (parseSpec ptr)) :
  remainingParses st = builder :: remaining ->
  end_ builder <= start builder ->
  Parse_iter p source st = Exit (heap st).
Proof.
  intros H Hle. unfold Parse_iter. rewrite H.
  apply Z.leb_le in Hle. rewrite Hle. reflexivity.
Qed.

Lemma Parse_iter_Next (p : Parser) (source : bytes) (st st' : pstate) :
  Parse_iter p source st = Next st' ->
  exists builder remaining w rule g ps,
    remainingParses st = builder :: remaining /\
    start builder < end_ builder /\
    slice source (start builder) (end_ builder) = Some w /\
    select_rule (rules p) (lastCapture st) (blockQuoteEnd st) (start builder) w
    = Some (rule, g) /\
    parser rule (Match w g) = Some ps /\
    Parse_push st builder remaining rule g ps w = Next st'.
Proof.
  unfold Parse_iter. intros H.
  destruct (remainingParses st) as [|builder remaining]; [discriminate|].
  destruct (end_ builder <=? start builder) eqn:E; [discriminate|].
  apply Z.leb_gt in E.
  destruct (slice source (start builder) (end_ builder)) as [w|] eqn:Hw;
    [|discriminate].
  destruct (select_rule _ _ _ _ w) as [[rule g]|] eqn:Hsel; [|discriminate].
  destruct (parser rule (Match w g)) as [ps|] eqn:Hps; [|discriminate].
  exists builder, remaining, w, rule, g, ps. repeat split; auto.
Qed.

Lemma Parse_push_Next (st st' : pstate) (builder : parseSpec ptr)
      (remaining : list (parseSpec ptr)) (rule : rule) (g : list Z)
      (ps : parseSpec NodeData) (w : bytes) :
  Parse_push st builder remaining rule g ps w = Next st' ->
  let me := effective_end ps g in
  let child := length (heap st) in
  let pushed := negb (start ps =? 0) || negb (end_ ps =? 0) in
  let end' := if pushed then end_ ps + start builder else end_ ps in
  slice w 0 me = Some (lastCapture st') /\
  heap st' = addChild (node builder) child (heap st ++ [(node ps, [])]) /\
  blockQuoteEnd st' = (if blockQuote rule then end' else blockQuoteEnd st) /\
  remainingParses st' =
  (if pushed
   then [ParseSpec child me (start ps + start builder) (end_ ps + start builder)]
   else [])
    ++ (if me + start builder =? end_ builder then []
        else [ParseSpec (node builder) 0 (me + start builder) (end_ builder)])
    ++ remaining.
Proof.
  unfold Parse_push, alloc, effective_end. intros H.
  destruct (slice w 0 _) as [lc|]; [|discriminate].
  injection H as <-. cbn [lastCapture heap blockQuoteEnd remainingParses].
  repeat split.
  destruct (negb (start ps =? 0) || negb (end_ ps =? 0)),
    (_ =? end_ builder); reflexivity.
Qed.

End Loop.

(** * Invariants of the loop *)

Section Invariants.

Variable options : option ParserOptions.
Variable source : bytes.

Local Abbreviation p := (NewParser options).

(** Everything one successful iteration is known to do. *)
Lemma Parse_iter_facts (st st' : pstate) :
  Forall (span_ok source) (remainingParses st) ->
  Parse_iter p source st = Next st' ->
  exists builder remaining w rule g ps,
    remainingParses st = builder :: remaining /\
    (0 <= start builder /\ start builder < end_ builder /\
     end_ builder <= len source) /\
    slice source (start builder) (end_ builder) = Some w /\
    len w = end_ builder - start builder /\
    select_rule (rules p) (lastCapture st) (blockQuoteEnd st) (start builder) w
    = Some (rule, g) /\
    In rule (rules p) /\
    candidate (lastCapture st) (blockQuoteEnd st) (start builder) w rule g /\
    parser rule (Match w g) = Some ps /\
    (1 <= effective_end ps g /\ effective_end ps g <= len w) /\
    child_ok ps (len w) /\
    Parse_push st builder remaining rule g ps w = Next st'.
Proof.
  intros Hok H.
  apply Parse_iter_Next in H
    as (builder & remaining & w & rule & g & ps & Hst & Hlt & Hw & Hsel & Hps & Hpush).
  rewrite Hst in Hok. inversion Hok as [|? ? Hb _]; subst.
  destruct Hb as [Hb|[Hb1 Hb2]]; [lia|].
  destruct (len_slice source (start builder) (end_ builder)) as (w' & Hw' & Hlen);
    try lia.
  rewrite Hw in Hw'. injection Hw' as <-.
  pose proof Hsel as Hsel'.
  apply select_rule_spec in Hsel' as (pre & post & Hrules & _ & Hcand).
  assert (Hin : In rule (rules p))
    by (rewrite Hrules; apply in_or_app; right; left; reflexivity).
  destruct (NewParser_rules_ok options rule Hin w g (proj2 Hcand))
    as (ps' & Hps' & He1 & He2 & Hchild).
  rewrite Hps in Hps'. injection Hps' as <-.
  exists builder, remaining, w, rule, g, ps. repeat split; auto; apply Hcand.
Qed.

Lemma len_slice_inv (s w : bytes) (a b : Z) :
  slice s a b = Some w -> len w = b - a /\ 0 <= a /\ a <= b /\ b <= len s.
Proof.
  unfold slice. intros H.
  destruct ((0 <=? a) && (a <=? b) && (b <=? len s)) eqn:E; [|discriminate].
  rewrite !andb_true_iff, !Z.leb_le in E. injection H as <-.
  split; [|lia]. apply len_substr; lia.
Qed.

(** The invariants of the states [Parse] goes through: the pending spans
    are ranges of the source, and [lastCapture] is empty in the initial
    state only. *)
Lemma reachable_inv (st : pstate) :
  reachable p source st ->
  Forall (span_ok source) (remainingParses st) /\
  (lastCapture st = [] -> st = Parse_init source).
Proof.
  induction 1 as [|st st' Hr [IH1 IH2] Hstep].
  - split; auto. unfold Parse_init. cbn [remainingParses].
    destruct (0 <? len source) eqn:E; constructor; auto.
    right. cbn [start end_]. lia.
  - pose proof (Parse_iter_progress options source st IH1) as P.
    rewrite Hstep in P. destruct P as [P _]. split; auto.
    destruct (Parse_iter_facts st st' IH1 Hstep)
      as (builder & remaining & w & rule & g & ps & _ & _ & _ & _ & _ & _ & _
          & _ & [He1 He2] & _ & Hpush).
    apply Parse_push_Next in Hpush as (Hlc & _).
    apply len_slice_inv in Hlc as (Hlc & _).
    intros E. rewrite E in Hlc. cbn in Hlc. lia.
Qed.

Lemma Parse_returns (fuel : nat) :
  (enough source <= fuel)%nat ->
  exists root, Parse fuel p source = Returned root.
Proof.
  intros Hfuel. unfold Parse.
  destruct (Parse_loop_returns options source fuel (Parse_init source)) as [h ->].
  - apply (reachable_inv _ (reach_init p source)).
  - unfold Parse_init, enough in *. cbn [remainingParses].
    destruct (0 <? len source); unfold total, weight; cbn [map list_sum fold_right start end_].
    + unfold len. replace (Z.to_nat (Z.of_nat (length source) - 0)) with (length source) by lia.
      pose proof (Nat.pow_le_mono_r 2 0 (S (length source)) ltac:(lia) ltac:(lia)) as P.
      change (2 ^ 0)%nat with 1%nat in P. lia.
    + pose proof (Nat.pow_le_mono_r 2 0 (S (length source)) ltac:(lia) ltac:(lia)) as P.
      change (2 ^ 0)%nat with 1%nat in P. lia.
  - eexists. reflexivity.
Qed.

End Invariants.

(** * The rule table and the loop: the claims *)

Section Fuel.

Lemma Parse_loop_mono (p : Parser) (source : bytes) :
  forall fuel fuel' st r,
    Parse_loop fuel p source st = Some r -> (fuel <= fuel')%nat ->
    Parse_loop fuel' p source st = Some r.
Proof.
  induction fuel as [|fuel IH]; intros fuel' st r H Hle; [discriminate|].
  destruct fuel' as [|fuel']; [lia|]. cbn [Parse_loop] in *.
  destruct (Parse_iter p source st); auto. apply IH; auto. lia.
Qed.

(** More iterations than needed do not change what [Parse] returns. *)
Lemma Parse_mono (p : Parser) (source : bytes) (fuel fuel' : nat) (root : Node) :
  Parse fuel p source = Returned root -> (fuel <= fuel')%nat ->
  Parse fuel' p source = Returned root.
Proof.
  unfold Parse. intros H Hle.
  destruct (Parse_loop fuel p source (Parse_init source)) as [r|] eqn:E;
    [|discriminate].
  rewrite (Parse_loop_mono _ _ _ _ _ _ E Hle). exact H.
Qed.

End Fuel.

(** C1 (the code departs from the claim): on the input [||\n> ||x] the
    third iteration leaves the empty child span of the block quote on top
    of the pending span of the root for the last byte; the fourth iteration
    pops the empty span and leaves the loop, so that the pending span is
    never processed and the byte [x] is in no node of the tree. *)
Theorem empty_span_abandons_pending_spans :
  let p := NewParser None in
  let st :=
      PState [ParseSpec 3%nat 2 5 5; ParseSpec 0%nat 0 7 8]
             [(rootNode, [1%nat]); (SpoilerNode, [2%nat; 3%nat]);
              (TextNode [LF], []); (BlockQuoteNode, [])]
             (bytes_of_string "> ") 5 in
  Parse_steps 3 p quote_in_spoiler (Parse_init quote_in_spoiler) = Next st /\
  Parse_iter p quote_in_spoiler st = Exit (heap st) /\
  Parse 4 p quote_in_spoiler
  = Returned (Tree rootNode
                   [Tree SpoilerNode
                         [Tree (TextNode [LF]) []; Tree BlockQuoteNode []]]).
Proof. vm_compute. repeat split. Qed.

(** C2 (the code departs from the claim): for the input [||\n> ||x] the
    textual leaves of the returned tree hold a newline only, the final [x]
    of the source is dropped; with the forum rules, [# \nfoo] returns a
    header without any text. *)
Theorem input_after_empty_span_is_dropped :
  (exists root,
      Parse 4 (NewParser None) quote_in_spoiler = Returned root /\
      leaves root = [LF] /\
      In (chr "x") quote_in_spoiler /\ ~ In (chr "x") (leaves root)) /\
  (exists root,
      Parse 2 (NewParser all_options) empty_header = Returned root /\
      leaves root = []).
Proof.
  split; eexists; (split; [vm_compute; reflexivity|]).
  - split; [reflexivity|]. split.
    + vm_compute. auto 10.
    + vm_compute. intros [H|[]]. discriminate.
  - reflexivity.
Qed.

(** C3: the pattern of the text rule matches every non-empty window, the
    text rule is never skipped, so the inner loop of [Parse] always selects
    a rule and the panic for an unmatched window cannot happen; and [Parse]
    returns a tree for every source and every configuration once it is
    given enough iterations. *)
Theorem fallback_rule_makes_Parse_total
        (options : option ParserOptions) (source : bytes) (fuel : nat)
        (w lc : bytes) (bqe bs : Z) :
  w <> [] -> (enough source <= fuel)%nat ->
  (exists g, FindStringSubmatchIndex (pattern ruleText) w = Some g /\
             nth 0 g (-1) = 0) /\
  skipped ruleText lc bqe bs = false /\
  In ruleText (rules (NewParser options)) /\
  (exists r g, select_rule (rules (NewParser options)) lc bqe bs w = Some (r, g)) /\
  (exists root, Parse fuel (NewParser options) source = Returned root).
Proof.
  intros Hw Hfuel.
  split.
  { destruct (patternText_matches w Hw) as [g Hg]. exists g. split; [exact Hg|].
    change (pattern ruleText) with patternText.
    rewrite Find_anchored in Hg by reflexivity.
    unfold match_at_start in Hg.
    destruct (run patternText (init_state patternText w)); [discriminate|].
    injection Hg as <-. reflexivity. }
  split; [reflexivity|].
  split; [apply ruleText_in|].
  split; [|apply Parse_returns; exact Hfuel].
  destruct (select_rule (rules (NewParser options)) lc bqe bs w) as [[r g]|] eqn:E.
  - eauto.
  - exfalso. revert E. apply select_rule_total; auto using ruleText_in.
Qed.

Lemma fallback_rule_makes_Parse_total_witness :
  bytes_of_string "hi" <> [] /\ (enough hyphen_ab <= 32)%nat /\
  (exists g, FindStringSubmatchIndex (pattern ruleText) (bytes_of_string "hi")
             = Some g /\ nth 0 g (-1) = 0) /\
  skipped ruleText [] 0 0 = false /\
  In ruleText (rules (NewParser None)) /\
  (exists r g, select_rule (rules (NewParser None)) [] 0 0 (bytes_of_string "hi")
               = Some (r, g)) /\
  (exists root, Parse 32 (NewParser None) hyphen_ab = Returned root).
Proof.
  split; [discriminate|]. split; [apply Nat.leb_le; reflexivity|].
  apply (fallback_rule_makes_Parse_total None hyphen_ab 32 (bytes_of_string "hi")
                                         [] 0 0).
  - discriminate.
  - apply Nat.leb_le. reflexivity.
Defined.

Section Priority.

Variables (lc : bytes) (bqe bs : Z) (w : bytes).

Local Abbreviation candidate := (candidate lc bqe bs w).
Local Abbreviation rejected := (rejected lc bqe bs w).

Lemma candidate_not_rejected (r : rule) (g : list Z) :
  candidate r g -> ~ rejected r.
Proof. intros [H1 H2] [H|H]; congruence. Qed.

Lemma first_candidate (l : list rule) :
  Forall rejected l \/
  exists pre r g post,
    l = pre ++ r :: post /\ Forall rejected pre /\ candidate r g.
Proof.
  induction l as [|x l IH]; [left; constructor|].
  destruct (candidate_or_rejected lc bqe bs w x) as [[g Hc]|Hr].
  - right. exists [], x, g, l. auto.
  - destruct IH as [IH|(pre & r & g & post & -> & Hpre & Hc)].
    + left. constructor; auto.
    + right. exists (x :: pre), r, g, post. auto.
Qed.

End Priority.

(** C4: when two rules R1 (earlier in the table) and R2 (later) are both
    tried on a window and both match, the rule selected is R1 or a matching
    rule before R1, never R2 nor any rule after R1, whatever the lengths of
    the two matches; when no rule before R1 matches, it is R1 with its
    submatches. *)
Theorem rule_priority_is_absolute
        (l1 l2 l3 : list rule) (R1 R2 : rule) (g1 g2 : list Z)
        (lc : bytes) (bqe bs : Z) (w : bytes) :
  candidate lc bqe bs w R1 g1 ->
  candidate lc bqe bs w R2 g2 ->
  exists r g,
    select_rule (l1 ++ R1 :: l2 ++ R2 :: l3) lc bqe bs w = Some (r, g) /\
    (exists pre post,
        l1 ++ [R1] = pre ++ r :: post /\
        Forall (rejected lc bqe bs w) pre /\ candidate lc bqe bs w r g) /\
    (Forall (rejected lc bqe bs w) l1 -> r = R1 /\ g = g1).
Proof.
  intros H1 H2.
  destruct (first_candidate lc bqe bs w l1)
    as [Hl1|(pre & r & g & post & -> & Hpre & Hc)].
  - exists R1, g1. split; [apply select_rule_first; auto|].
    split; [exists l1, []; auto|auto].
  - exists r, g. split.
    + rewrite <- app_assoc. cbn [app]. apply select_rule_first; auto.
    + split.
      * exists pre, (post ++ [R1]). rewrite <- app_assoc. auto.
      * intros Hall. exfalso. rewrite Forall_forall in Hall.
        apply (candidate_not_rejected _ _ _ _ _ _ Hc).
        apply Hall. apply in_or_app. right. left. reflexivity.
Qed.

(** On a soft hyphen followed by [ab] the first rule matches two bytes and
    the text rule, the last one, four: the first rule is selected. *)
Lemma rule_priority_is_absolute_witness :
  let mid := [ruleEscape; ruleBlockQuote; ruleCodeBlock; ruleCodeInline;
              ruleSpoiler; ruleURLNoEmbed; ruleURL; ruleCustomEmoji;
              ruleNamedEmoji; ruleUnescapeEmoticon; ruleChannelMention;
              ruleRoleMention; ruleUserMention; ruleSpecialMention;
              ruleTimestamp; ruleNewline; ruleBold; ruleUnderline;
              ruleItalics; ruleStrikethrough] in
  rules (NewParser None) = [] ++ ruleSoftHyphen :: mid ++ ruleText :: [] /\
  nth 1 [0; 2] 0 < nth 1 [0; 4; 0; 4] 0 /\
  candidate [] 0 0 hyphen_ab ruleSoftHyphen [0; 2] /\
  candidate [] 0 0 hyphen_ab ruleText [0; 4; 0; 4] /\
  exists r g,
    select_rule ([] ++ ruleSoftHyphen :: mid ++ ruleText :: []) [] 0 0 hyphen_ab
    = Some (r, g) /\
    (exists pre post,
        [] ++ [ruleSoftHyphen] = pre ++ r :: post /\
        Forall (rejected [] 0 0 hyphen_ab) pre /\
        candidate [] 0 0 hyphen_ab r g) /\
    (Forall (rejected [] 0 0 hyphen_ab) [] -> r = ruleSoftHyphen /\ g = [0; 2]).
Proof.
  intros mid.
  assert (C1 : candidate [] 0 0 hyphen_ab ruleSoftHyphen [0; 2])
    by (split; vm_compute; reflexivity).
  assert (C2 : candidate [] 0 0 hyphen_ab ruleText [0; 4; 0; 4])
    by (split; vm_compute; reflexivity).
  split; [reflexivity|]. split; [reflexivity|]. split; [exact C1|].
  split; [exact C2|].
  exact (rule_priority_is_absolute [] mid [] ruleSoftHyphen ruleText
                                   [0; 2] [0; 4; 0; 4] [] 0 0 hyphen_ab C1 C2).
Defined.

Section BlockRules.




End BlockRules.



(** C8: [NewParser] with a nil options pointer uses the default options
    (block quote and mentions enabled, masked links and forum markdown
    disabled): it builds the same rule table as with the default options
    passed explicitly, and parsing gives the same result; the table of the
    empty options is a different one. *)
Theorem nil_options_are_the_default_options :
  DefaultParserOptions = MkParserOptions true false true false /\
  NewParser None = NewParser (Some DefaultParserOptions) /\
  rules (NewParser None)
  = [ruleSoftHyphen; ruleEscape; ruleBlockQuote; ruleCodeBlock; ruleCodeInline;
     ruleSpoiler; ruleURLNoEmbed; ruleURL; ruleCustomEmoji; ruleNamedEmoji;
     ruleUnescapeEmoticon; ruleChannelMention; ruleRoleMention;
     ruleUserMention; ruleSpecialMention; ruleTimestamp; ruleNewline; ruleBold;
     ruleUnderline; ruleItalics; ruleStrikethrough; ruleText] /\
  (forall fuel source,
      Parse fuel (NewParser None) source
      = Parse fuel (NewParser (Some DefaultParserOptions)) source) /\
  length (rules (NewParser (Some (MkParserOptions false false false false))))
  <> length (rules (NewParser None)).
Proof.
  split; [reflexivity|]. split; [reflexivity|]. split; [reflexivity|].
  split; [reflexivity|]. cbn. discriminate.
Qed.

(** * Inputs that one leaf rule consumes whole *)

Section SingleLeaf.

Lemma slice_all (s : bytes) : slice s 0 (len s) = Some s.
Proof.
  unfold slice, len.
  assert (E : (0 <=? 0) && (0 <=? Z.of_nat (length s))
              && (Z.of_nat (length s) <=? Z.of_nat (length s)) = true)
    by (rewrite !andb_true_iff, !Z.leb_le; lia).
  rewrite E. cbn [Z.to_nat skipn]. rewrite Z.sub_0_r, Nat2Z.id, firstn_all.
  reflexivity.
Qed.

Lemma len_pos (s : bytes) : s <> [] -> 0 < len s.
Proof. destruct s; [congruence|]. unfold len. cbn [length]. lia. Qed.

(** When the first rule selected on the whole source is a leaf rule whose
    match ends at the end of the source, the tree is the root with that
    leaf. *)
Lemma Parse_single_leaf (p : Parser) (source : bytes) (r : rule) (g : list Z)
      (d : NodeData) (fuel : nat) :
  source <> [] ->
  select_rule (rules p) [] 0 0 source = Some (r, g) ->
  parser r (Match source g) = Some (ParseSpec d 0 0 0) ->
  nth 1 g 0 = len source ->
  (2 <= fuel)%nat ->
  Parse fuel p source = Returned (Tree rootNode [Tree d []]).
Proof.
  intros Hne Hsel Hps Hend Hfuel.
  pose proof (len_pos source Hne) as Hlen.
  apply Parse_mono with (fuel := 2%nat); [|exact Hfuel].
  unfold Parse, Parse_init. cbn [Parse_loop].
  assert (E1 : (0 <? len source) = true) by (apply Z.ltb_lt; lia).
  assert (E2 : (len source <=? 0) = false) by (apply Z.leb_gt; lia).
  unfold Parse_iter at 1. cbn [remainingParses start end_ lastCapture blockQuoteEnd].
  rewrite E1. cbn [start end_]. rewrite E2, slice_all, Hsel, Hps.
  unfold Parse_push, alloc.
  cbn [matchEnd start end_ node heap Z.eqb negb orb length].
  rewrite Hend, Z.add_0_r, Z.eqb_refl, slice_all.
  cbn. reflexivity.
Qed.

End SingleLeaf.

(** * Stepping the matcher on known input *)

Section Stepping.

Lemma match_at_start_first (r : Regexp) (s : bytes) (st' : mstate) :
  first_match r (init_state r s) st' ->
  match_at_start r s = Some (0 :: m_pos st' :: m_caps st').
Proof.
  unfold first_match, match_at_start. intros H.
  destruct (run r (init_state r s)); [discriminate|].
  injection H as ->. reflexivity.
Qed.

Lemma match_at_start_none (r : Regexp) (s : bytes) :
  run r (init_state r s) = [] -> match_at_start r s = None.
Proof. unfold match_at_start. intros ->. reflexivity. Qed.

Lemma first_Eps (st : mstate) : first_match Eps st st.
Proof. reflexivity. Qed.

Lemma first_Bol (st : mstate) : m_pos st = 0 -> first_match Bol st st.
Proof. unfold first_match. cbn [run]. intros ->. reflexivity. Qed.

Lemma first_Eol (st : mstate) : m_rest st = [] -> first_match Eol st st.
Proof. unfold first_match. cbn [run]. intros ->. reflexivity. Qed.

Lemma first_Cat (r1 r2 : Regexp) (st st1 st2 : mstate) :
  first_match r1 st st1 -> first_match r2 st1 st2 ->
  first_match (Cat r1 r2) st st2.
Proof.
  unfold first_match. cbn [run]. intros H1 H2.
  destruct (run r1 st) as [|x l]; [discriminate|]. injection H1 as ->.
  cbn [flat_map]. destruct (run r2 st1); [discriminate|]. exact H2.
Qed.

Lemma first_Alt_l (r1 r2 : Regexp) (st st' : mstate) :
  first_match r1 st st' -> first_match (Alt r1 r2) st st'.
Proof.
  unfold first_match. cbn [run]. intros H.
  destruct (run r1 st); [discriminate|]. exact H.
Qed.

Lemma first_Alt_r (r1 r2 : Regexp) (st st' : mstate) :
  run r1 st = [] -> first_match r2 st st' -> first_match (Alt r1 r2) st st'.
Proof. unfold first_match. cbn [run]. intros -> H. exact H. Qed.

Lemma first_Cap (k : nat) (r : Regexp) (st st' : mstate) :
  first_match r st st' ->
  first_match (Cap k r) st (set_cap k (m_pos st) st').
Proof.
  unfold first_match. cbn [run]. intros H.
  destruct (run r st); [discriminate|]. injection H as ->. reflexivity.
Qed.

Lemma run_Cat_nil (r1 r2 : Regexp) (st : mstate) :
  run r1 st = [] -> run (Cat r1 r2) st = [].
Proof. cbn [run]. intros ->. reflexivity. Qed.

Lemma run_Cat_all (r1 r2 : Regexp) (st : mstate) :
  (forall st1, In st1 (run r1 st) -> run r2 st1 = []) ->
  run (Cat r1 r2) st = [].
Proof.
  cbn [run]. generalize (run r1 st). intros l H.
  induction l as [|x l IH]; [reflexivity|].
  cbn [flat_map]. rewrite (H x) by (left; reflexivity). cbn [app].
  apply IH. intros st1 H1. apply H. right. exact H1.
Qed.

Lemma run_Alt_nil (r1 r2 : Regexp) (st : mstate) :
  run r1 st = [] -> run r2 st = [] -> run (Alt r1 r2) st = [].
Proof. cbn [run]. intros -> ->. reflexivity. Qed.

(** Reading a byte below 0x80. *)
Lemma take_ascii (p : Z -> bool) (pos prev b : Z) (rest : bytes) (caps : list Z) :
  b < 128 ->
  take p (MState pos prev (b :: rest) caps)
  = if p b then [MState (pos + 1) b rest caps] else [].
Proof.
  intros Hb. unfold take. cbn [m_rest m_pos m_caps]. unfold DecodeRune.
  assert (E : (b <? 128) = true) by (apply Z.ltb_lt; lia).
  rewrite E. reflexivity.
Qed.

(** Reading a rune whose decoding is known. *)
Lemma take_decoded (p : Z -> bool) (st : mstate) (c w : Z) :
  m_rest st <> [] -> DecodeRune (m_rest st) = (c, w) ->
  take p st
  = if p c
    then [MState (m_pos st + w) c (skipn (Z.to_nat w) (m_rest st)) (m_caps st)]
    else [].
Proof.
  intros Hne Hd. unfold take. destruct (m_rest st); [congruence|].
  rewrite Hd. reflexivity.
Qed.

Lemma DecodeRune_high (s0 : Z) (t : bytes) :
  128 <= s0 -> 128 <= fst (DecodeRune (s0 :: t)).
Proof.
  intros H. unfold DecodeRune, within, RuneError.
  destruct t as [|s1 [|s2 [|s3 t]]];
    repeat match goal with
           | |- context [if ?a =? ?b then _ else _] =>
             let E := fresh "E" in destruct (a =? b) eqn:E
           | |- context [if ?b then _ else _] =>
             let E := fresh "E" in destruct b eqn:E
           end; cbn [fst];
      repeat match goal with
             | H : (_ && _) = true |- _ => apply andb_prop in H as [? ?]
             | H : (_ <=? _) = true |- _ => apply Z.leb_le in H
             | H : (_ <? _) = true |- _ => apply Z.ltb_lt in H
             | H : (_ <? _) = false |- _ => apply Z.ltb_ge in H
             | H : (_ =? _) = true |- _ => apply Z.eqb_eq in H
             | H : (_ =? _) = false |- _ => apply Z.eqb_neq in H
             end; lia.
Qed.

(** [\d] reads exactly one byte, a digit. *)
Lemma run_digit (pos prev b : Z) (rest : bytes) (caps : list Z) :
  run digit (MState pos prev (b :: rest) caps)
  = if is_digit b then [MState (pos + 1) b rest caps] else [].
Proof.
  cbn [run digit].
  assert (Hc : forall c, in_class false [PerlD] c = is_digit c).
  { intros c. unfold in_class. cbn. rewrite orb_false_r. reflexivity. }
  destruct (Z.lt_ge_cases b 128) as [Hb|Hb].
  - rewrite take_ascii by exact Hb. rewrite Hc. reflexivity.
  - pose proof (DecodeRune_high b rest Hb) as Hh.
    unfold take. cbn [m_rest]. destruct (DecodeRune (b :: rest)) as [c w].
    cbn [fst] in Hh. rewrite Hc.
    assert (E1 : is_digit c = false).
    { unfold is_digit, within. apply andb_false_iff. right. apply Z.leb_gt. lia. }
    assert (E2 : is_digit b = false).
    { unfold is_digit, within. apply andb_false_iff. right. apply Z.leb_gt. lia. }
    rewrite E1, E2. reflexivity.
Qed.

Lemma run_digit_nil (pos prev : Z) (caps : list Z) :
  run digit (MState pos prev [] caps) = [].
Proof. reflexivity. Qed.

Lemma digits_is_digit (d : Z) : 48 <= d <= 57 -> is_digit d = true.
Proof. intros H. unfold is_digit, within. rewrite andb_true_iff, !Z.leb_le. lia. Qed.

Lemma run_digit_none (pos prev : Z) (rest : bytes) (caps : list Z) :
  no_digit_ahead rest -> run digit (MState pos prev rest caps) = [].
Proof.
  destruct rest as [|b rest]; [reflexivity|]. cbn [no_digit_ahead]. intros H.
  rewrite run_digit, H. reflexivity.
Qed.

Lemma last_cons (d prev : Z) (ds : bytes) : last (d :: ds) prev = last ds d.
Proof.
  revert d prev. induction ds as [|x ds IH]; intros d prev; [reflexivity|].
  change (last (d :: x :: ds) prev) with (last (x :: ds) prev).
  rewrite (IH x prev), (IH x d). reflexivity.
Qed.

(** A greedy [\d*] first reads all the digits ahead. *)
Lemma first_star_digits (ds rest : bytes) :
  digits ds -> no_digit_ahead rest ->
  forall fuel pos prev caps,
    (length ds <= fuel)%nat ->
    hd_error (star_loop (run digit) true fuel (MState pos prev (ds ++ rest) caps))
    = Some (MState (pos + len ds) (last ds prev) rest caps).
Proof.
  intros Hds Hrest. induction Hds as [|d ds Hd Hds IH]; intros fuel pos prev caps Hf.
  - cbn [app len length last Z.of_nat]. rewrite Z.add_0_r.
    destruct fuel; cbn [star_loop]; [reflexivity|].
    rewrite run_digit_none by exact Hrest. reflexivity.
  - destruct fuel as [|fuel]; [cbn in Hf; lia|].
    cbn [star_loop app]. rewrite run_digit, (digits_is_digit d Hd).
    cbn [flat_map m_pos]. rewrite app_nil_r.
    assert (E : (pos <? pos + 1) = true) by (apply Z.ltb_lt; lia).
    rewrite E.
    specialize (IH fuel (pos + 1) d caps ltac:(cbn in Hf; lia)).
    destruct (star_loop (run digit) true fuel _) as [|x l]; [discriminate|].
    cbn [app hd_error] in *. rewrite IH. f_equal. f_equal.
    + unfold len. cbn [length]. lia.
    + symmetry. apply last_cons.
Qed.

Lemma first_plus_digits (d : Z) (ds rest : bytes) (pos prev : Z) (caps : list Z) :
  digits (d :: ds) -> no_digit_ahead rest ->
  first_match (Plus true digit) (MState pos prev (d :: ds ++ rest) caps)
              (MState (pos + len (d :: ds)) (last (d :: ds) prev) rest caps).
Proof.
  intros Hds Hrest. inversion Hds as [|? ? Hd Hds']; subst.
  unfold Plus. eapply first_Cat.
  - unfold first_match. rewrite run_digit, (digits_is_digit d Hd). reflexivity.
  - unfold first_match. cbn [run m_rest].
    rewrite (first_star_digits ds rest Hds' Hrest);
      [|rewrite length_app; lia].
    f_equal. f_equal.
    + unfold len. cbn [length]. lia.
    + symmetry. apply last_cons.
Qed.

(** A greedy [\d{0,n}] first reads all the digits ahead when there are [n]
    at most. *)
Lemma first_upto_digits (rest : bytes) :
  no_digit_ahead rest ->
  forall n ds pos prev caps,
    digits ds -> (length ds <= n)%nat ->
    first_match (UpTo n digit) (MState pos prev (ds ++ rest) caps)
                (MState (pos + len ds) (last ds prev) rest caps).
Proof.
  intros Hrest. induction n as [|n IH]; intros ds pos prev caps Hds Hn.
  - destruct ds; [|cbn in Hn; lia]. cbn [UpTo app len length last Z.of_nat].
    rewrite Z.add_0_r. apply first_Eps.
  - cbn [UpTo]. destruct Hds as [|d ds Hd Hds].
    + cbn [app len length last Z.of_nat]. rewrite Z.add_0_r.
      apply first_Alt_r; [|apply first_Eps].
      apply run_Cat_nil. apply run_digit_none. exact Hrest.
    + apply first_Alt_l. eapply first_Cat.
      * unfold first_match. cbn [app]. rewrite run_digit, (digits_is_digit d Hd).
        reflexivity.
      * replace (pos + len (d :: ds)) with (pos + 1 + len ds)
          by (unfold len; cbn [length]; lia).
        rewrite last_cons.
        apply IH; auto. cbn in Hn. lia.
Qed.

(** Whatever way [\d{0,n}] matches, it reads [n] bytes at most. *)
Lemma upto_digits_results (n : nat) :
  forall st st',
    In st' (run (UpTo n digit) st) ->
    exists k, (k <= n)%nat /\ m_rest st' = skipn k (m_rest st).
Proof.
  induction n as [|n IH]; intros st st' H; cbn [UpTo run] in H.
  - destruct H as [<-|[]]. exists 0%nat. auto.
  - apply in_app_or in H as [H|[<-|[]]].
    + apply in_flat_map in H as (st1 & H1 & H2).
      destruct st as [pos prev [|b rest] caps]; [contradiction|].
      rewrite run_digit in H1. destruct (is_digit b); [|contradiction].
      destruct H1 as [<-|[]].
      destruct (IH _ _ H2) as (k & Hk & ->). exists (S k). split; [lia|reflexivity].
    + exists 0%nat. split; [lia|reflexivity].
Qed.

End Stepping.

(** * Windows that start with [<@] or [<t] *)

(** Equality of two lists of offsets, entry by entry. *)
Ltac list_eq :=
  repeat match goal with
         | |- Some _ = Some _ => f_equal
         | |- _ :: _ = _ :: _ => f_equal
         end;
  try reflexivity; lia.

Ltac no_match :=
  intros; rewrite Find_anchored by reflexivity;
  apply match_at_start_none; vm_compute; reflexivity.

Ltac each_rule H :=
  cbn [In plain_rules app] in H;
  repeat match type of H with
         | _ \/ _ => destruct H as [<-|H]
         | False => contradiction
         end.

Lemma first_Chr (c pos prev : Z) (rest : bytes) (caps : list Z) :
  c < 128 ->
  first_match (Chr c) (MState pos prev (c :: rest) caps)
              (MState (pos + 1) c rest caps).
Proof.
  intros Hc. unfold first_match. cbn [run]. rewrite take_ascii by exact Hc.
  rewrite Z.eqb_refl. reflexivity.
Qed.

Lemma run_Chr_ne (c b pos prev : Z) (rest : bytes) (caps : list Z) :
  b < 128 -> b <> c -> run (Chr c) (MState pos prev (b :: rest) caps) = [].
Proof.
  intros Hb Hne. cbn [run]. rewrite take_ascii by exact Hb.
  apply Z.eqb_neq in Hne. rewrite Hne. reflexivity.
Qed.

Lemma NewParser_rules (options : option ParserOptions) :
  rules (NewParser options)
  = rules_before_mentions (effective options)
      ++ mention_rules (effective options)
      ++ ruleTimestamp :: rules_after_timestamp (effective options).
Proof.
  unfold NewParser, rules_before_mentions, mention_rules, rules_after_timestamp.
  cbn [rules]. fold (effective options).
  destruct (EnableBlockQuote _), (EnableMaskedLinks _), (EnableMentions _),
    (EnableForumMarkdown _); reflexivity.
Qed.

Lemma rules_before_mentions_plain (o : ParserOptions) (r : rule) :
  In r (rules_before_mentions o) -> In r plain_rules.
Proof.
  unfold rules_before_mentions, plain_rules.
  destruct (EnableBlockQuote o), (EnableMaskedLinks o); cbn [app In]; intuition.
Qed.

(** The rules before the mention rules reject a window [<@...], *)
Lemma plain_rules_lt_at (rest : bytes) (r : rule) :
  In r plain_rules ->
  FindStringSubmatchIndex (pattern r) (60 :: 64 :: rest) = None.
Proof. intros H. each_rule H; no_match. Qed.

(** and a window [<t...], as the mention rules do. *)
Lemma plain_rules_lt_t (rest : bytes) (r : rule) :
  In r (plain_rules ++ [ruleChannelMention; ruleRoleMention; ruleUserMention;
                        ruleSpecialMention]) ->
  FindStringSubmatchIndex (pattern r) (60 :: 116 :: rest) = None.
Proof. intros H. each_rule H; no_match. Qed.

Lemma ChannelMention_lt_at (rest : bytes) :
  FindStringSubmatchIndex (pattern ruleChannelMention) (60 :: 64 :: rest) = None.
Proof. no_match. Qed.

Lemma RoleMention_lt_at_bang (rest : bytes) :
  FindStringSubmatchIndex (pattern ruleRoleMention) (60 :: 64 :: 33 :: rest) = None.
Proof. no_match. Qed.

Lemma RoleMention_lt_at_digit (d : Z) (rest : bytes) :
  48 <= d <= 57 ->
  FindStringSubmatchIndex (pattern ruleRoleMention) (60 :: 64 :: d :: rest) = None.
Proof.
  intros H.
  assert (C : d = 48 \/ d = 49 \/ d = 50 \/ d = 51 \/ d = 52 \/ d = 53 \/ d = 54
              \/ d = 55 \/ d = 56 \/ d = 57) by lia.
  repeat destruct C as [->|C]; try subst d; no_match.
Qed.

Lemma patternUserMention_eq :
  patternUserMention
  = Cat Bol (Cat (Cat (Chr 60) (Chr 64))
                 (Cat (Alt (Chr 33) Eps)
                      (Cat (Cap 1 (Plus true digit)) (Chr 62)))).
Proof. reflexivity. Qed.

(** The user mention pattern on [<@d>] and on [<@!d>]. *)
Lemma UserMention_matches (bang : bool) (d : bytes) :
  digits d -> d <> [] ->
  let pre := 60 :: 64 :: (if bang then [33] else []) in
  FindStringSubmatchIndex patternUserMention (pre ++ d ++ [62])
  = Some [0; len pre + len d + 1; len pre; len pre + len d].
Proof.
  intros Hd Hne pre. subst pre.
  destruct d as [|d0 ds]; [congruence|].
  rewrite Find_anchored by reflexivity.
  inversion Hd as [|? ? Hd0 Hds]; subst.
  destruct bang; cbn [app];
    (erewrite match_at_start_first;
     [|rewrite patternUserMention_eq; unfold init_state;
       change (repeat (-1) _) with [-1; -1];
       eapply first_Cat; [apply first_Bol; reflexivity|];
       eapply first_Cat; [eapply first_Cat; apply first_Chr; lia|];
       eapply first_Cat;
       [first [apply first_Alt_l; apply first_Chr; lia
              |apply first_Alt_r; [apply run_Chr_ne; lia|apply first_Eps]]|];
       eapply first_Cat;
       [apply first_Cap; apply first_plus_digits; [exact Hd|reflexivity]|];
       unfold set_cap; cbn [m_pos m_prev m_rest m_caps];
       apply first_Chr; lia]);
    cbn [m_pos m_caps set_nth Nat.mul Nat.add Nat.sub];
    unfold len; cbn [length]; list_eq.
Qed.

Lemma skipped_init (r : rule) : skipped r [] 0 0 = false.
Proof. unfold skipped. destruct (block r), (blockQuote r); reflexivity. Qed.

Lemma substr_middle (pre d post : bytes) :
  substr (pre ++ d ++ post) (len pre) (len pre + len d) = d.
Proof.
  unfold substr, len.
  replace (Z.to_nat (Z.of_nat (length pre) + Z.of_nat (length d)
                     - Z.of_nat (length pre))) with (length d) by lia.
  rewrite Nat2Z.id.
  induction pre as [|x pre IH]; cbn [app skipn length].
  - rewrite firstn_app, Nat.sub_diag, firstn_all. cbn [firstn].
    apply app_nil_r.
  - exact IH.
Qed.

Lemma group_middle (pre d post : bytes) (g : list Z) (k : nat) :
  nth (k * 2) g 0 = len pre -> nth (k * 2 + 1) g 0 = len pre + len d ->
  group (Match (pre ++ d ++ post) g) k = d.
Proof.
  intros H1 H2. unfold group, m_start, m_end. cbn [groups m_match].
  rewrite H1, H2.
  assert (E : (len pre =? -1) = false) by (apply Z.eqb_neq; unfold len; lia).
  rewrite E. apply substr_middle.
Qed.

(** With the mention rules in the table, the user mention rule is the
    one selected on [<@d>] and on [<@!d>]. *)
Lemma select_UserMention (options : option ParserOptions) (bang : bool) (d : bytes) :
  EnableMentions (effective options) = true -> digits d -> d <> [] ->
  let pre := 60 :: 64 :: (if bang then [33] else []) in
  select_rule (rules (NewParser options)) [] 0 0 (pre ++ d ++ [62])
  = Some (ruleUserMention, [0; len pre + len d + 1; len pre; len pre + len d]).
Proof.
  intros Hm Hd Hne pre.
  rewrite NewParser_rules. unfold mention_rules. rewrite Hm.
  replace (rules_before_mentions (effective options)
             ++ [ruleChannelMention; ruleRoleMention; ruleUserMention;
                 ruleSpecialMention]
             ++ ruleTimestamp :: rules_after_timestamp (effective options))
    with ((rules_before_mentions (effective options)
             ++ [ruleChannelMention; ruleRoleMention])
            ++ ruleUserMention
            :: ruleSpecialMention :: ruleTimestamp
            :: rules_after_timestamp (effective options))
    by (rewrite <- app_assoc; reflexivity).
  apply select_rule_first.
  - apply Forall_app. split.
    + apply Forall_forall. intros r Hr. right.
      apply rules_before_mentions_plain in Hr.
      subst pre. cbn [app]. apply plain_rules_lt_at. exact Hr.
    + subst pre. cbn [app].
      apply Forall_cons; [right; apply ChannelMention_lt_at|].
      apply Forall_cons; [right|apply Forall_nil].
      destruct bang; cbn [app].
      * apply RoleMention_lt_at_bang.
      * destruct d as [|d0 ds]; [congruence|]. inversion Hd; subst.
        apply RoleMention_lt_at_digit. assumption.
  - split; [apply skipped_init|]. apply UserMention_matches; assumption.
Qed.

(** C10: with the mention rules enabled, for every non-empty string [d]
    of decimal digits (an ID), [<@d>] and [<@!d>] both parse to the root
    with one [UserMentionNode] whose ID is [d]; the two trees are the same. *)
Theorem user_mention_bang_is_optional
        (options : option ParserOptions) (d : bytes) (fuel : nat) :
  EnableMentions (effective options) = true ->
  digits d -> d <> [] -> (2 <= fuel)%nat ->
  let p := NewParser options in
  let plain := bytes_of_string "<@" ++ d ++ bytes_of_string ">" in
  let banged := bytes_of_string "<@!" ++ d ++ bytes_of_string ">" in
  Parse fuel p plain = Returned (Tree rootNode [Tree (UserMentionNode d) []]) /\
  Parse fuel p banged = Returned (Tree rootNode [Tree (UserMentionNode d) []]) /\
  Parse fuel p plain = Parse fuel p banged.
Proof.
  intros Hm Hd Hne Hfuel p plain banged.
  assert (H : forall bang : bool,
             Parse fuel p ((60 :: 64 :: (if bang then [33] else [])) ++ d ++ [62])
             = Returned (Tree rootNode [Tree (UserMentionNode d) []])).
  { intros bang.
    eapply Parse_single_leaf.
    - destruct bang; discriminate.
    - apply (select_UserMention options bang d Hm Hd Hne).
    - unfold ruleUserMention, leaf. cbn [parser]. rewrite group_middle; reflexivity.
    - cbn [nth]. unfold len. rewrite !length_app. cbn [length]. lia.
    - exact Hfuel. }
  pose proof (H false) as H1. pose proof (H true) as H2.
  split; [exact H1|]. split; [exact H2|].
  etransitivity; [exact H1|symmetry; exact H2].
Qed.

Lemma user_mention_bang_is_optional_witness :
  let d := bytes_of_string "1234" in
  let p := NewParser None in
  EnableMentions (effective None) = true /\
  digits d /\ d <> [] /\ (2 <= 2)%nat /\
  Parse 2 p (bytes_of_string "<@" ++ d ++ bytes_of_string ">")
  = Returned (Tree rootNode [Tree (UserMentionNode d) []]) /\
  Parse 2 p (bytes_of_string "<@!" ++ d ++ bytes_of_string ">")
  = Returned (Tree rootNode [Tree (UserMentionNode d) []]) /\
  Parse 2 p (bytes_of_string "<@" ++ d ++ bytes_of_string ">")
  = Parse 2 p (bytes_of_string "<@!" ++ d ++ bytes_of_string ">").
Proof.
  intros d p.
  assert (Hd : digits d) by (repeat constructor; cbn; lia).
  assert (Hne : d <> []) by discriminate.
  split; [reflexivity|]. split; [exact Hd|]. split; [exact Hne|].
  split; [apply le_n|].
  exact (user_mention_bang_is_optional None d 2 eq_refl Hd Hne (le_n 2)).
Defined.

(** * Escapes *)

Ltac bool_to_prop :=
  repeat rewrite ?andb_true_iff, ?andb_false_iff, ?orb_true_iff, ?orb_false_iff,
    ?negb_true_iff, ?negb_false_iff, ?Z.ltb_lt, ?Z.ltb_ge, ?Z.leb_le, ?Z.leb_gt,
    ?Z.eqb_eq, ?Z.eqb_neq.

Ltac decide_ifs :=
  repeat match goal with
         | |- context [if ?a =? ?b then _ else _] =>
           first [ replace (a =? b) with true
                     by (symmetry; bool_to_prop; Z.div_mod_to_equations; lia)
                 | replace (a =? b) with false
                     by (symmetry; bool_to_prop; Z.div_mod_to_equations; lia)
                 | let E := fresh "E" in
                   destruct (a =? b) eqn:E;
                   rewrite ?Z.eqb_eq, ?Z.eqb_neq in E ]
         | |- context [if ?b then _ else _] =>
           first [ replace b with true
                     by (symmetry; bool_to_prop; Z.div_mod_to_equations; lia)
                 | replace b with false
                     by (symmetry; bool_to_prop; Z.div_mod_to_equations; lia) ]
         end.

(** Decoding the encoding of a rune gives the rune back, and its width. *)
Lemma DecodeRune_EncodeRune (c : Z) :
  valid_rune c ->
  EncodeRune c <> [] /\ DecodeRune (EncodeRune c) = (c, len (EncodeRune c)).
Proof.
  intros [[H0 H1] Hs]. unfold EncodeRune.
  destruct (c <? 128) eqn:E1; [|destruct (c <? 2048) eqn:E2;
                                 [|destruct (c <? 65536) eqn:E3]];
    rewrite ?Z.ltb_lt, ?Z.ltb_ge in *; (split; [discriminate|]);
      unfold DecodeRune, within, len; cbn [length Z.of_nat Pos.of_succ_nat Pos.succ];
        decide_ifs; f_equal; Z.div_mod_to_equations; lia.
Qed.

Lemma patternEscape_eq :
  patternEscape
  = Cat Bol (Cat (Chr 92)
                 (Cap 1 (Cls true [Rg 48 57; Rg 65 90; Rg 97 122; PerlS]))).
Proof. reflexivity. Qed.

Lemma first_Cls_decoded (neg : bool) (items : list citem) (st : mstate) (c w : Z) :
  m_rest st <> [] -> DecodeRune (m_rest st) = (c, w) ->
  in_class neg items c = true ->
  first_match (Cls neg items) st
              (MState (m_pos st + w) c (skipn (Z.to_nat w) (m_rest st)) (m_caps st)).
Proof.
  intros Hne Hd Hc. unfold first_match. cbn [run].
  rewrite (take_decoded _ _ c w Hne Hd), Hc. reflexivity.
Qed.

Lemma escape_class (c : Z) :
  is_alnum c = false -> is_space c = false ->
  in_class true [Rg 48 57; Rg 65 90; Rg 97 122; PerlS] c = true.
Proof.
  unfold is_alnum, in_class. cbn [existsb in_item]. intros Ha ->.
  apply orb_false_elim in Ha as [Ha H3]. apply orb_false_elim in Ha as [H1 H2].
  rewrite H1, H2, H3. reflexivity.
Qed.

(** The escape pattern on a backslash followed by the encoding [cs] of a
    rune that is neither an ASCII letter or digit nor a blank. *)
Lemma Escape_matches (cs : bytes) (c : Z) :
  cs <> [] -> DecodeRune cs = (c, len cs) ->
  is_alnum c = false -> is_space c = false ->
  FindStringSubmatchIndex patternEscape (92 :: cs)
  = Some [0; 1 + len cs; 1; 1 + len cs].
Proof.
  intros Hne Hd Ha Hs.
  rewrite Find_anchored by reflexivity.
  erewrite match_at_start_first.
  2:{ rewrite patternEscape_eq. unfold init_state.
      change (repeat (-1) _) with [-1; -1].
      eapply first_Cat; [apply first_Bol; reflexivity|].
      eapply first_Cat; [apply first_Chr; lia|].
      apply first_Cap.
      apply (first_Cls_decoded true _ (MState (0 + 1) 92 cs [-1; -1]) c (len cs));
        auto using escape_class. }
  cbn [m_pos m_caps set_cap set_nth Nat.mul Nat.add Nat.sub].
  list_eq.
Qed.

Lemma SoftHyphen_backslash (rest : bytes) :
  FindStringSubmatchIndex (pattern ruleSoftHyphen) (92 :: rest) = None.
Proof. no_match. Qed.

(** C7: for every character [c] (a Unicode scalar value in its UTF-8
    encoding) that is neither an ASCII letter or digit nor one of the blanks
    of [\s], a backslash followed by [c] is consumed whole by the escape
    rule, and [Parse] returns the root with one text node that holds
    exactly [c], whatever the options. *)
Theorem escaped_character_is_literal
        (options : option ParserOptions) (c : Z) (fuel : nat) :
  valid_rune c -> is_alnum c = false -> is_space c = false ->
  (2 <= fuel)%nat ->
  let source := chr "\" :: EncodeRune c in
  select_rule (rules (NewParser options)) [] 0 0 source
  = Some (ruleEscape, [0; len source; 1; len source]) /\
  Parse fuel (NewParser options) source
  = Returned (Tree rootNode [Tree (TextNode (EncodeRune c)) []]).
Proof.
  intros Hv Ha Hs Hfuel source. subst source.
  change (chr "\") with 92.
  destruct (DecodeRune_EncodeRune c Hv) as [Hne Hd].
  set (cs := EncodeRune c) in *.
  assert (Hlen : len (92 :: cs) = 1 + len cs)
    by (unfold len; cbn [length]; lia).
  assert (Hsel : select_rule (rules (NewParser options)) [] 0 0 (92 :: cs)
                 = Some (ruleEscape, [0; len (92 :: cs); 1; len (92 :: cs)])).
  { unfold NewParser. cbn [rules app].
    apply (select_rule_first [] 0 0 (92 :: cs) [ruleSoftHyphen]).
    - apply Forall_cons; [right; apply SoftHyphen_backslash|apply Forall_nil].
    - split; [apply skipped_init|]. rewrite Hlen.
      apply (Escape_matches cs c); assumption. }
  split; [exact Hsel|].
  eapply Parse_single_leaf; [discriminate|exact Hsel| |reflexivity|exact Hfuel].
  unfold ruleEscape, leaf. cbn [parser].
  replace (92 :: cs) with ([92] ++ cs ++ []) at 1 by (rewrite app_nil_r; reflexivity).
  rewrite group_middle; [reflexivity|reflexivity|].
  cbn [nth Nat.mul Nat.add]. rewrite Hlen. unfold len. cbn [length]. lia.
Qed.

Lemma escaped_character_is_literal_witness :
  let c := chr "*" in
  let source := chr "\" :: EncodeRune c in
  valid_rune c /\ is_alnum c = false /\ is_space c = false /\ (2 <= 2)%nat /\
  select_rule (rules (NewParser None)) [] 0 0 source
  = Some (ruleEscape, [0; len source; 1; len source]) /\
  Parse 2 (NewParser None) source
  = Returned (Tree rootNode [Tree (TextNode (EncodeRune c)) []]).
Proof.
  intros c source.
  assert (Hv : valid_rune c) by (unfold valid_rune, c; cbn; lia).
  split; [exact Hv|]. split; [reflexivity|]. split; [reflexivity|].
  split; [apply le_n|].
  exact (escaped_character_is_literal None c 2 Hv eq_refl eq_refl (le_n 2)).
Defined.

(** * Timestamps *)

Lemma patternTimestamp_eq :
  patternTimestamp
  = Cat Bol
        (Cat (Cat (Chr 60) (Cat (Chr 116) (Chr 58)))
             (Cat (Cap 1 (Cat (Alt (Chr 45) Eps) (Cat digit (UpTo 16 digit))))
                  (Cat (Alt (Cat (Chr 58)
                                 (Cap 2 (Alt (Chr 116) (Alt (Chr 84) (Alt (Chr 100)
                                        (Alt (Chr 68) (Alt (Chr 102)
                                        (Alt (Chr 70) (Chr 82)))))))))
                            Eps)
                       (Chr 62)))).
Proof. reflexivity. Qed.

Lemma first_digit (d pos prev : Z) (rest : bytes) (caps : list Z) :
  48 <= d <= 57 ->
  first_match digit (MState pos prev (d :: rest) caps)
              (MState (pos + 1) d rest caps).
Proof.
  intros Hd. unfold first_match. rewrite run_digit, (digits_is_digit d Hd).
  reflexivity.
Qed.

Lemma first_suffix (x pos prev : Z) (rest : bytes) (caps : list Z) :
  In x timestamp_suffixes ->
  first_match (Alt (Chr 116) (Alt (Chr 84) (Alt (Chr 100) (Alt (Chr 68)
              (Alt (Chr 102) (Alt (Chr 70) (Chr 82)))))))
              (MState pos prev (x :: rest) caps)
              (MState (pos + 1) x rest caps).
Proof.
  intros H. unfold first_match. cbn [run]. cbn [timestamp_suffixes In] in H.
  rewrite !take_ascii by lia.
  repeat destruct H as [<-|H]; try contradiction; reflexivity.
Qed.

(** The timestamp pattern on a well-formed text with 1 to 17 digits. *)
Lemma Timestamp_matches (negative : bool) (ds : bytes) (suffix : option Z) :
  digits ds -> ds <> [] -> (length ds <= 17)%nat -> suffix_ok suffix ->
  let w := timestamp_text negative ds suffix in
  let e1 := 3 + len (sign_text negative) + len ds in
  FindStringSubmatchIndex patternTimestamp w
  = Some (0 :: len w :: 3 :: e1
            :: match suffix with
               | Some _ => [e1 + 1; e1 + 2]
               | None => [-1; -1]
               end).
Proof.
  intros Hd Hne Hlen Hs w e1. subst w e1.
  destruct ds as [|d0 ds]; [congruence|].
  inversion Hd as [|? ? Hd0 Hds]; subst.
  rewrite Find_anchored by reflexivity.
  unfold timestamp_text, sign_text, suffix_text.
  change (bytes_of_string "<t:") with [60; 116; 58].
  change (bytes_of_string ">") with [62].
  destruct negative, suffix as [x|]; cbn [app suffix_ok] in *;
    (erewrite match_at_start_first;
     [|rewrite patternTimestamp_eq; unfold init_state;
       change (repeat (-1) _) with [-1; -1; -1; -1];
       eapply first_Cat; [apply first_Bol; reflexivity|];
       eapply first_Cat;
       [eapply first_Cat;
        [apply first_Chr; lia|eapply first_Cat; apply first_Chr; lia]|];
       eapply first_Cat;
       [apply first_Cap;
        eapply first_Cat;
        [first [apply first_Alt_l; apply first_Chr; lia
               |apply first_Alt_r; [apply run_Chr_ne; lia|apply first_Eps]]|];
        eapply first_Cat; [apply first_digit; exact Hd0|];
        apply first_upto_digits;
        [reflexivity|exact Hds|cbn [length] in Hlen; lia]|];
       unfold set_cap; cbn [m_pos m_prev m_rest m_caps];
       eapply first_Cat;
       [first [apply first_Alt_l;
               eapply first_Cat; [apply first_Chr; lia|];
               apply first_Cap; apply first_suffix; exact Hs
              |apply first_Alt_r;
               [apply run_Cat_nil; apply run_Chr_ne; lia|apply first_Eps]]|];
       unfold set_cap; cbn [m_pos m_prev m_rest m_caps];
       apply first_Chr; lia]);
    cbn [m_pos m_caps set_nth Nat.mul Nat.add Nat.sub];
    unfold len; rewrite ?length_app; cbn [length]; rewrite ?length_app;
      cbn [length]; list_eq.
Qed.

Lemma mention_rules_lt_t (o : ParserOptions) (rest : bytes) (r : rule) :
  In r (rules_before_mentions o ++ mention_rules o) ->
  FindStringSubmatchIndex (pattern r) (60 :: 116 :: rest) = None.
Proof.
  intros H. apply plain_rules_lt_t. apply in_app_or in H as [H|H].
  - apply in_or_app. left. eapply rules_before_mentions_plain; eauto.
  - apply in_or_app. right. unfold mention_rules in H.
    destruct (EnableMentions o); [exact H|contradiction].
Qed.

(** On a window [<t...] the timestamp rule is the first that can match. *)
Lemma select_at_lt_t (options : option ParserOptions) (rest : bytes) (g : list Z) :
  FindStringSubmatchIndex patternTimestamp (60 :: 116 :: rest) = Some g ->
  select_rule (rules (NewParser options)) [] 0 0 (60 :: 116 :: rest)
  = Some (ruleTimestamp, g).
Proof.
  intros H. rewrite NewParser_rules, app_assoc.
  apply select_rule_first.
  - apply Forall_forall. intros r Hr. right. eapply mention_rules_lt_t; eauto.
  - split; [apply skipped_init|exact H].
Qed.

(** The first part of C9: 1 to 17 digits. *)
Lemma Parse_timestamp (options : option ParserOptions) (negative : bool)
      (ds : bytes) (suffix : option Z) (fuel : nat) :
  digits ds -> ds <> [] -> (length ds <= 17)%nat -> suffix_ok suffix ->
  (2 <= fuel)%nat ->
  Parse fuel (NewParser options) (timestamp_text negative ds suffix)
  = Returned
      (Tree rootNode
            [Tree (TimestampNode (sign_text negative ++ ds)
                                 (match suffix with Some x => [x] | None => [] end))
                  []]).
Proof.
  intros Hd Hne Hlen Hs Hfuel.
  pose proof (Timestamp_matches negative ds suffix Hd Hne Hlen Hs) as Hm.
  cbv zeta in Hm.
  set (g := 0 :: _) in Hm.
  assert (Hw : timestamp_text negative ds suffix
               = 60 :: 116 :: 58 :: sign_text negative ++ ds
                    ++ suffix_text suffix ++ [62]) by reflexivity.
  eapply Parse_single_leaf with (g := g).
  - rewrite Hw. discriminate.
  - rewrite Hw in *. apply select_at_lt_t. exact Hm.
  - unfold ruleTimestamp, leaf. cbn [parser]. f_equal. f_equal. f_equal.
    + rewrite Hw.
      change (60 :: 116 :: 58 :: sign_text negative ++ ds ++ suffix_text suffix ++ [62])
        with ([60; 116; 58] ++ sign_text negative ++ ds ++ suffix_text suffix ++ [62]).
      rewrite (app_assoc (sign_text negative) ds).
      apply group_middle; subst g; cbn [nth Nat.mul Nat.add].
      * reflexivity.
      * unfold len. rewrite length_app. cbn [length]. lia.
    + destruct suffix as [x|].
      * rewrite Hw. cbn [suffix_text].
        replace (60 :: 116 :: 58 :: sign_text negative ++ ds ++ [58; x] ++ [62])
          with (([60; 116; 58] ++ sign_text negative ++ ds ++ [58]) ++ [x] ++ [62])
          by (cbn [app]; rewrite <- !app_assoc; reflexivity).
        apply group_middle; subst g; cbn [nth Nat.mul Nat.add];
          unfold len; rewrite ?length_app; cbn [length]; rewrite ?length_app;
            cbn [length]; lia.
      * subst g. reflexivity.
  - subst g. reflexivity.
  - exact Hfuel.
Qed.

(** ** More than 17 digits *)

Lemma run_Bol_Cat (r : Regexp) (st : mstate) :
  m_pos st = 0 -> run (Cat Bol r) st = run r st.
Proof. intros H. cbn [run]. rewrite H. cbn [Z.eqb flat_map]. apply app_nil_r. Qed.

Lemma run_Cat_single (r1 r2 : Regexp) (st st1 : mstate) :
  run r1 st = [st1] -> run (Cat r1 r2) st = run r2 st1.
Proof. intros H. cbn [run]. rewrite H. cbn [flat_map]. apply app_nil_r. Qed.

Lemma run_Chr_eq (c pos prev : Z) (rest : bytes) (caps : list Z) :
  c < 128 ->
  run (Chr c) (MState pos prev (c :: rest) caps) = [MState (pos + 1) c rest caps].
Proof.
  intros Hc. cbn [run]. rewrite take_ascii by exact Hc. rewrite Z.eqb_refl.
  reflexivity.
Qed.

Lemma skipn_digits_head (l : bytes) :
  digits l ->
  forall k, (k < length l)%nat ->
            exists b r, skipn k l = b :: r /\ 48 <= b <= 57.
Proof.
  induction 1 as [|d l Hd Hl IH]; intros k Hk; [cbn in Hk; lia|].
  destruct k as [|k]; cbn [skipn]; [eauto|].
  apply IH. cbn in Hk. lia.
Qed.

(** After the optional suffix, the pattern wants [>]: it fails on a digit. *)
Lemma suffix_then_gt_fails (r : Regexp) (st : mstate) (b : Z) (rest : bytes) :
  m_rest st = b :: rest -> 48 <= b <= 57 ->
  run (Cat (Alt (Cat (Chr 58) r) Eps) (Chr 62)) st = [].
Proof.
  intros Hrest Hb. destruct st as [pos prev rest' caps]. cbn [m_rest] in Hrest.
  subst rest'. apply run_Cat_all. intros st1 H.
  change (run (Alt ?a ?b) ?s) with (run a s ++ run b s) in H.
  rewrite run_Cat_nil in H by (apply run_Chr_ne; lia).
  destruct H as [<-|[]]. apply run_Chr_ne; lia.
Qed.

(** Whatever way [-?\d{1,17}] matches on 18 digits or more, a digit
    follows. *)
Lemma stamp_results_long (negative : bool) (ds tail : bytes) (pos prev : Z)
      (caps : list Z) (st' : mstate) :
  digits ds -> (18 <= length ds)%nat ->
  In st' (run (Cat (Alt (Chr 45) Eps) (Cat digit (UpTo 16 digit)))
              (MState pos prev (sign_text negative ++ ds ++ tail) caps)) ->
  exists b r, m_rest st' = b :: r /\ 48 <= b <= 57.
Proof.
  intros Hd Hlen H.
  destruct ds as [|d0 ds]; [cbn in Hlen; lia|].
  inversion Hd as [|? ? Hd0 Hds]; subst.
  assert (Hgo : forall pos prev,
             In st' (run (Cat digit (UpTo 16 digit))
                         (MState pos prev (d0 :: ds ++ tail) caps)) ->
             exists b r, m_rest st' = b :: r /\ 48 <= b <= 57).
  { clear H. intros pos' prev' H.
    rewrite (run_Cat_single _ _ _ (MState (pos' + 1) d0 (ds ++ tail) caps)) in H
      by (rewrite run_digit, (digits_is_digit d0 Hd0); reflexivity).
    apply upto_digits_results in H as (k & Hk & Hrest). cbn [m_rest] in Hrest.
    rewrite skipn_app in Hrest.
    replace (k - length ds)%nat with 0%nat in Hrest by (cbn in Hlen; lia).
    cbn [skipn] in Hrest.
    destruct (skipn_digits_head ds Hds k ltac:(cbn in Hlen; lia))
      as (b & r & E & Hb).
    rewrite E in Hrest. cbn [app] in Hrest. eauto. }
  change (run (Cat ?a ?b) ?s) with (flat_map (run b) (run a s)) in H.
  apply in_flat_map in H as (st1 & H1 & H2).
  change (run (Alt ?a ?b) ?s) with (run a s ++ run b s) in H1.
  destruct negative; cbn [sign_text app] in H1.
  - rewrite run_Chr_eq in H1 by lia. destruct H1 as [<-|[<-|[]]].
    + eapply Hgo; eauto.
    + rewrite run_Cat_nil in H2; [contradiction|].
      rewrite run_digit. reflexivity.
  - rewrite run_Chr_ne in H1 by lia. destruct H1 as [<-|[]].
    eapply Hgo; eauto.
Qed.

(** The timestamp pattern does not match a text with 18 digits or more, *)
Lemma Timestamp_rejects_long (negative : bool) (ds : bytes) (suffix : option Z) :
  digits ds -> (18 <= length ds)%nat ->
  FindStringSubmatchIndex patternTimestamp (timestamp_text negative ds suffix)
  = None.
Proof.
  intros Hd Hlen. rewrite Find_anchored by reflexivity.
  apply match_at_start_none. rewrite patternTimestamp_eq. unfold init_state.
  unfold timestamp_text. change (bytes_of_string "<t:") with [60; 116; 58].
  cbn [app]. rewrite run_Bol_Cat by reflexivity.
  erewrite run_Cat_single.
  2:{ erewrite run_Cat_single by (apply run_Chr_eq; lia).
      erewrite run_Cat_single by (apply run_Chr_eq; lia).
      apply run_Chr_eq; lia. }
  apply run_Cat_all. intros st1 H.
  change (run (Cap ?k ?r) ?s) with (map (set_cap k (m_pos s)) (run r s)) in H.
  apply in_map_iff in H as (st1' & <- & H).
  apply stamp_results_long in H as (b & r & Hrest & Hb); auto.
  eapply suffix_then_gt_fails; eauto.
Qed.

(** nor a window that does not start with [<]. *)
Lemma Timestamp_needs_lt (b : Z) (w : bytes) :
  b <> 60 -> b < 128 ->
  FindStringSubmatchIndex patternTimestamp (b :: w) = None.
Proof.
  intros Hb Hlt. rewrite Find_anchored by reflexivity.
  apply match_at_start_none. rewrite patternTimestamp_eq. unfold init_state.
  rewrite run_Bol_Cat by reflexivity.
  apply run_Cat_nil. apply run_Cat_nil. apply run_Chr_ne; assumption.
Qed.

(** ** Where timestamp nodes come from *)

Lemma timestamp_rule_only (options : option ParserOptions) (r : rule)
      (m : match_) (ps : parseSpec NodeData) :
  In r (rules (NewParser options)) ->
  parser r m = Some ps -> is_timestamp (node ps) = true ->
  pattern r = patternTimestamp.
Proof.
  unfold NewParser. cbn [rules].
  destruct (EnableBlockQuote _), (EnableMaskedLinks _), (EnableMentions _),
    (EnableForumMarkdown _); cbn [app In];
    intros H Hps Hts;
    repeat match type of H with
           | _ \/ _ => destruct H as [<-|H]
           | False => contradiction
           end;
    try reflexivity;
    cbn [parser ruleSoftHyphen ruleEscape ruleBlockQuote ruleCodeBlock
                ruleCodeInline ruleSpoiler ruleMaskedLink ruleURLNoEmbed ruleURL
                ruleCustomEmoji ruleNamedEmoji ruleUnescapeEmoticon
                ruleChannelMention ruleRoleMention ruleUserMention
                ruleSpecialMention ruleHeaderItem ruleListItem ruleNewline
                ruleBold ruleUnderline ruleItalics ruleStrikethrough ruleText
                leaf] in Hps;
    try (destruct (slice _ _ _) in Hps; [|discriminate]);
    injection Hps as <-; discriminate Hts.
Qed.

Lemma Forall_update {A : Type} (P : A -> Prop) (f : A -> A) (n : nat) (l : list A) :
  (forall x, P x -> P (f x)) -> Forall P l -> Forall P (update n f l).
Proof.
  intros Hf H. revert n. induction H as [|x l Hx Hl IH]; intros [|n];
    cbn [update]; constructor; auto.
Qed.

Lemma slice_head (P : Z -> Prop) (source w : bytes) (s e : Z) :
  slice source s e = Some w -> 1 <= s -> s < e -> Forall P (tl source) ->
  exists b w', w = b :: w' /\ P b.
Proof.
  unfold slice. intros H Hs He HP.
  destruct ((0 <=? s) && (s <=? e) && (e <=? len source)) eqn:E; [|discriminate].
  rewrite !andb_true_iff, !Z.leb_le in E. injection H as <-.
  destruct source as [|x t]; [unfold len in E; cbn in E; lia|].
  cbn [tl] in HP.
  replace (Z.to_nat s) with (S (Z.to_nat (s - 1))) by lia. cbn [skipn].
  destruct (skipn (Z.to_nat (s - 1)) t) as [|b r] eqn:Hsk.
  - apply (f_equal (@length Z)) in Hsk. rewrite length_skipn in Hsk.
    unfold len in E. cbn [length] in *. lia.
  - replace (Z.to_nat (e - s)) with (S (Z.to_nat (e - s - 1))) by lia.
    cbn [firstn]. exists b, (firstn (Z.to_nat (e - s - 1)) r). split; auto.
    rewrite Forall_forall in HP. apply HP.
    assert (Hn : nth_error t (Z.to_nat (s - 1)) = Some b)
      by (rewrite <- hd_error_skipn, Hsk; reflexivity).
    eapply nth_error_In; eauto.
Qed.

Lemma Parse_iter_Exit_heap (p : Parser) (source : bytes) (st : pstate) (h : store) :
  Parse_iter p source st = Exit h -> h = heap st.
Proof.
  unfold Parse_iter, Parse_push, alloc. intros H.
  destruct (remainingParses st) as [|b r]; [congruence|].
  destruct (end_ b <=? start b); [congruence|].
  destruct (slice source (start b) (end_ b)); [|discriminate].
  destruct (select_rule _ _ _ _ _) as [[? ?]|]; [|discriminate].
  destruct (parser _ _); [|discriminate].
  destruct (slice _ 0 _); discriminate.
Qed.

(** A tree that [Parse] returns is read from the heap of a reachable state. *)
Lemma Parse_Returned_reachable (p : Parser) (source : bytes) (fuel : nat)
      (root : Node) :
  Parse fuel p source = Returned root ->
  exists st,
    reachable p source st /\
    root = reify (length (heap st)) (heap st) topLevelRootNode.
Proof.
  unfold Parse. intros H.
  destruct (Parse_loop fuel p source (Parse_init source)) as [[h|]|] eqn:E;
    try discriminate.
  injection H as <-.
  assert (G : forall fuel st,
             reachable p source st ->
             Parse_loop fuel p source st = Some (Some h) ->
             exists st', reachable p source st' /\ h = heap st').
  { clear. induction fuel as [|fuel IH]; intros st Hr H; [discriminate|].
    cbn [Parse_loop] in H.
    destruct (Parse_iter p source st) as [st'|h'|] eqn:E; try discriminate.
    - apply (IH st'); auto. econstructor; eauto.
    - injection H as ->. apply Parse_iter_Exit_heap in E. eauto. }
  destruct (G fuel _ (reach_init p source) E) as (st & Hr & ->). eauto.
Qed.

Lemma reify_no_timestamp (h : store) :
  Forall no_timestamp_cell h ->
  forall fuel p, has_timestamp (reify fuel h p) = false.
Proof.
  intros Hh. induction fuel as [|fuel IH]; intros p; [reflexivity|].
  cbn [reify]. destruct (nth_error h p) as [[d cs]|] eqn:E; [|reflexivity].
  cbn [has_timestamp].
  rewrite Forall_forall in Hh. pose proof (Hh _ (nth_error_In _ _ E)) as Hd.
  unfold no_timestamp_cell in Hd. cbn [fst] in Hd. rewrite Hd. cbn [orb].
  clear E. induction cs as [|c cs IHcs]; [reflexivity|].
  cbn [map existsb]. rewrite IH. cbn [orb]. apply IHcs.
Qed.

Section LongTimestamp.

Variable options : option ParserOptions.
Variables (negative : bool) (ds : bytes) (suffix : option Z).
Hypothesis Hdigits : digits ds.
Hypothesis Hlong : (18 <= length ds)%nat.
Hypothesis Hsuffix : suffix_ok suffix.

Local Abbreviation source := (timestamp_text negative ds suffix).
Local Abbreviation p := (NewParser options).

(** After its first byte the text holds no [<]. *)
Lemma timestamp_text_tail :
  Forall (fun b => b <> 60 /\ b < 128) (tl source).
Proof.
  unfold timestamp_text. change (bytes_of_string "<t:") with [60; 116; 58].
  change (bytes_of_string ">") with [62]. cbn [app tl].
  repeat (apply Forall_cons; [lia|]).
  apply Forall_app. split.
  { destruct negative; cbn [sign_text]; repeat constructor; lia. }
  apply Forall_app. split.
  { eapply Forall_impl; [|exact Hdigits]. cbn beta. intros. lia. }
  apply Forall_app. split.
  { destruct suffix as [x|]; cbn [suffix_text suffix_ok] in *; [|constructor].
    cbn [timestamp_suffixes In] in Hsuffix. repeat constructor; lia. }
  repeat constructor; lia.
Qed.

Lemma long_timestamp_inv (st : pstate) :
  reachable p source st ->
  (st = Parse_init source \/ Forall past_first_byte (remainingParses st)) /\
  Forall no_timestamp_cell (heap st).
Proof.
  induction 1 as [|st st' Hr [IH1 IH2] Hstep].
  - split; [left; reflexivity|]. repeat constructor.
  - pose proof (reachable_inv options source st Hr) as [Hok _].
    destruct (Parse_iter_facts options source st st' Hok Hstep)
      as (builder & remaining & w & rule & g & ps & Hst & (Hb0 & Hb1 & Hb2) & Hw
          & Hlen & Hsel & Hin & [_ Hfind] & Hps & [He1 He2] & Hchild & Hpush).
    apply Parse_push_Next in Hpush as (_ & Hheap & _ & Hstack).
    cbv zeta in Hheap, Hstack.
    assert (Hnone : FindStringSubmatchIndex patternTimestamp w = None).
    { destruct IH1 as [->|IH1].
      - unfold Parse_init in Hst. cbn [remainingParses] in Hst.
        destruct (0 <? len source); [|discriminate].
        injection Hst as <- <-. cbn [start end_] in Hw.
        rewrite slice_all in Hw. injection Hw as <-.
        apply Timestamp_rejects_long; assumption.
      - rewrite Hst in IH1. inversion IH1 as [|? ? [Hp|Hp] _]; subst; [|lia].
        destruct (slice_head _ _ _ _ _ Hw Hp Hb1 timestamp_text_tail)
          as (b & w' & -> & Hb & Hb').
        apply Timestamp_needs_lt; assumption. }
    assert (Hnode : is_timestamp (node ps) = false).
    { destruct (is_timestamp (node ps)) eqn:E; [|reflexivity].
      rewrite (timestamp_rule_only options rule _ ps Hin Hps E) in Hfind.
      congruence. }
    split.
    + right. rewrite Hstack. apply Forall_app. split; [|apply Forall_app; split].
      * destruct (negb (start ps =? 0) || negb (end_ ps =? 0)) eqn:Hp;
          [|constructor].
        apply Forall_cons; [|constructor]. unfold past_first_byte. cbn [start end_].
        destruct Hchild as [[C1 C2]|[[C1 C2]|(C1 & C2 & C3)]].
        -- rewrite C1, C2 in Hp. discriminate.
        -- right. lia.
        -- left. lia.
      * destruct (_ =? end_ builder); constructor; [|constructor].
        left. cbn [start]. lia.
      * destruct IH1 as [->|IH1].
        -- unfold Parse_init in Hst. cbn [remainingParses] in Hst.
           destruct (0 <? len source); [|discriminate].
           injection Hst as <- <-. constructor.
        -- rewrite Hst in IH1. inversion IH1; assumption.
    + rewrite Hheap. apply Forall_update; [intros [d cs] Hd; exact Hd|].
      apply Forall_app. split; [exact IH2|]. repeat constructor. exact Hnode.
Qed.

Lemma long_timestamp_no_node (fuel : nat) (root : Node) :
  Parse fuel p source = Returned root -> has_timestamp root = false.
Proof.
  intros H. apply Parse_Returned_reachable in H as (st & Hr & ->).
  apply reify_no_timestamp. apply (long_timestamp_inv st Hr).
Qed.

End LongTimestamp.

Lemma enough_ge_2 (source : bytes) : (2 <= enough source)%nat.
Proof.
  unfold enough.
  pose proof (Nat.pow_le_mono_r 2 1 (S (length source)) ltac:(lia) ltac:(lia)) as P.
  exact P.
Qed.

(** C9: the timestamp pattern takes 1 to 17 decimal digits, after an
    optional minus sign. For a text [<t:digits>] or [<t:digits:suffix>]
    (suffix one of t T d D f F R) with 17 digits at most, [Parse] returns the
    root with one [TimestampNode] that carries the signed digit string and
    the suffix; with 18 digits or more the pattern does not match the text
    and no tree that [Parse] returns for it holds a [TimestampNode]. *)
Theorem timestamp_takes_1_to_17_digits
        (options : option ParserOptions) (negative : bool) (ds : bytes)
        (suffix : option Z) (fuel : nat) :
  digits ds -> ds <> [] -> suffix_ok suffix ->
  (enough (timestamp_text negative ds suffix) <= fuel)%nat ->
  let source := timestamp_text negative ds suffix in
  let p := NewParser options in
  ((length ds <= 17)%nat ->
   Parse fuel p source
   = Returned
       (Tree rootNode
             [Tree (TimestampNode (sign_text negative ++ ds)
                                  (match suffix with Some x => [x] | None => [] end))
                   []])) /\
  ((18 <= length ds)%nat ->
   FindStringSubmatchIndex patternTimestamp source = None /\
   (exists root, Parse fuel p source = Returned root) /\
   (forall fuel' root,
       Parse fuel' p source = Returned root -> has_timestamp root = false)).
Proof.
  intros Hd Hne Hs Hfuel source p. split.
  - intros Hlen. apply Parse_timestamp; auto.
    pose proof (enough_ge_2 (timestamp_text negative ds suffix)). lia.
  - intros Hlen. split; [apply Timestamp_rejects_long; assumption|].
    split; [apply Parse_returns; exact Hfuel|].
    intros fuel' root. apply long_timestamp_no_node; assumption.
Qed.

Lemma timestamp_takes_1_to_17_digits_witness :
  let ds := bytes_of_string "7" in
  let suffix := Some (chr "R") in
  let source := timestamp_text true ds suffix in
  let p := NewParser None in
  digits ds /\ ds <> [] /\ suffix_ok suffix /\
  (enough (timestamp_text true ds suffix) <= 512)%nat /\
  ((length ds <= 17)%nat ->
   Parse 512 p source
   = Returned
       (Tree rootNode
             [Tree (TimestampNode (sign_text true ++ ds)
                                  (match suffix with Some x => [x] | None => [] end))
                   []])) /\
  ((18 <= length ds)%nat ->
   FindStringSubmatchIndex patternTimestamp source = None /\
   (exists root, Parse 512 p source = Returned root) /\
   (forall fuel' root,
       Parse fuel' p source = Returned root -> has_timestamp root = false)).
Proof.
  intros ds suffix source p.
  assert (Hd : digits ds) by (repeat constructor; cbn; lia).
  assert (Hne : ds <> []) by discriminate.
  assert (Hs : suffix_ok suffix) by (cbn; auto 10).
  assert (Hf : (enough (timestamp_text true ds suffix) <= 512)%nat)
    by (apply Nat.leb_le; reflexivity).
  split; [exact Hd|]. split; [exact Hne|]. split; [exact Hs|]. split; [exact Hf|].
  exact (timestamp_takes_1_to_17_digits None true ds suffix 512 Hd Hne Hs Hf).
Defined.

(** * Block quotes are not nested *)

Section Quotes.

Lemma nth_error_update {A : Type} (f : A -> A) (l : list A) :
  forall n m,
    nth_error (update n f l) m
    = if Nat.eqb m n then option_map f (nth_error l m) else nth_error l m.
Proof.
  induction l as [|x l IH]; intros [|n] [|m]; cbn [update nth_error Nat.eqb option_map];
    auto.
  destruct (Nat.eqb _ _); reflexivity.
Qed.

(** The cells of the store after a node has been allocated and appended
    to its parent. *)
Lemma step_lookup (h : store) (parent : ptr) (dnew : NodeData) (n : ptr)
      (d : NodeData) (cs : list ptr) :
  (parent < length h)%nat ->
  nth_error (addChild parent (length h) (h ++ [(dnew, [])])) n = Some (d, cs) ->
  (n = length h /\ d = dnew /\ cs = []) \/
  ((n < length h)%nat /\
   exists cs0, nth_error h n = Some (d, cs0) /\
               ((n <> parent /\ cs = cs0) \/
                (n = parent /\ cs = cs0 ++ [length h]))).
Proof.
  intros Hp H. unfold addChild in H. rewrite nth_error_update in H.
  destruct (Nat.lt_ge_cases n (length h)) as [Hn|Hn].
  - right. split; [exact Hn|]. rewrite nth_error_app1 in H by exact Hn.
    destruct (Nat.eqb n parent) eqn:E.
    + apply Nat.eqb_eq in E. subst n.
      destruct (nth_error h parent) as [[d0 cs0]|]; [|discriminate].
      cbn [option_map fst snd] in H. injection H as <- <-.
      exists cs0. auto.
    + apply Nat.eqb_neq in E. exists cs. auto.
  - left. assert (E : Nat.eqb n parent = false) by (apply Nat.eqb_neq; lia).
    rewrite E in H. rewrite nth_error_app2 in H by exact Hn.
    destruct (n - length h)%nat as [|k] eqn:K.
    + cbn in H. injection H as <- <-. split; [lia|auto].
    + cbn in H. destruct k; discriminate.
Qed.

Lemma step_lookup_old (h : store) (parent : ptr) (dnew : NodeData) (n : ptr)
      (d : NodeData) (cs : list ptr) :
  nth_error h n = Some (d, cs) ->
  exists cs', nth_error (addChild parent (length h) (h ++ [(dnew, [])])) n
              = Some (d, cs').
Proof.
  intros H. unfold addChild. rewrite nth_error_update.
  assert (Hn : (n < length h)%nat) by (apply nth_error_Some; congruence).
  rewrite nth_error_app1 by exact Hn. rewrite H.
  destruct (Nat.eqb n parent); cbn [option_map fst]; eauto.
Qed.

Lemma quoted_step (h : store) (parent : ptr) (dnew : NodeData) (x : ptr) :
  heap_wf h -> (parent < length h)%nat ->
  quoted (addChild parent (length h) (h ++ [(dnew, [])])) x ->
  ((x < length h)%nat /\ quoted h x) \/
  (x = length h /\ (is_quote dnew = true \/ quoted h parent)).
Proof.
  intros Hwf Hp H. induction H as [n cs Hn|n d cs c Hn Hc Hq IH].
  - apply step_lookup in Hn as [(-> & <- & _)|(Hlt & cs0 & Hn & _)]; auto.
    left. split; [exact Hlt|]. eapply quoted_self; eauto.
  - apply step_lookup in Hn as [(-> & _ & ->)|(Hlt & cs0 & Hn & Hcs)]; auto;
      [contradiction|].
    destruct IH as [[_ Hqn]|[-> _]]; [|lia].
    pose proof (Hwf _ _ _ Hn) as Hkids. rewrite Forall_forall in Hkids.
    destruct Hcs as [[_ ->]|[-> ->]].
    + left. split; [apply Hkids; exact Hc|]. eapply quoted_child; eauto.
    + apply in_app_or in Hc as [Hc|[<-|[]]].
      * left. split; [apply Hkids; exact Hc|]. eapply quoted_child; eauto.
      * right. auto.
Qed.

Lemma quote_rule_only (options : option ParserOptions) (r : rule)
      (m : match_) (ps : parseSpec NodeData) :
  In r (rules (NewParser options)) ->
  parser r m = Some ps -> is_quote (node ps) = true ->
  blockQuote r = true.
Proof.
  unfold NewParser. cbn [rules].
  destruct (EnableBlockQuote _), (EnableMaskedLinks _), (EnableMentions _),
    (EnableForumMarkdown _); cbn [app In];
    intros H Hps Hq;
    repeat match type of H with
           | _ \/ _ => destruct H as [<-|H]
           | False => contradiction
           end;
    try reflexivity;
    cbn [parser ruleSoftHyphen ruleEscape ruleCodeBlock
                ruleCodeInline ruleSpoiler ruleMaskedLink ruleURLNoEmbed ruleURL
                ruleCustomEmoji ruleNamedEmoji ruleUnescapeEmoticon
                ruleChannelMention ruleRoleMention ruleUserMention
                ruleSpecialMention ruleTimestamp ruleHeaderItem ruleListItem
                ruleNewline ruleBold ruleUnderline ruleItalics ruleStrikethrough
                ruleText leaf] in Hps;
    try (destruct (slice _ _ _) in Hps; [|discriminate]);
    injection Hps as <-; discriminate Hq.
Qed.

Lemma quote_rule_is_ruleBlockQuote (options : option ParserOptions) (r : rule) :
  In r (rules (NewParser options)) -> blockQuote r = true -> r = ruleBlockQuote.
Proof.
  unfold NewParser. cbn [rules].
  destruct (EnableBlockQuote _), (EnableMaskedLinks _), (EnableMentions _),
    (EnableForumMarkdown _); cbn [app In];
    intros H Hb;
    repeat match type of H with
           | _ \/ _ => destruct H as [<-|H]
           | False => contradiction
           end;
    try discriminate Hb; reflexivity.
Qed.

Lemma quoted_init (n : ptr) : ~ quoted [(rootNode, [])] n.
Proof.
  intros H. induction H as [n cs Hn|n d cs c Hn Hc _ _].
  - destruct n as [|[|n]]; cbn in Hn; discriminate.
  - destruct n as [|[|n]]; cbn in Hn; try discriminate.
    injection Hn as <- <-. contradiction.
Qed.

End Quotes.

Section QuoteInvariant.

Variable options : option ParserOptions.
Variable source : bytes.

Local Abbreviation p := (NewParser options).

Lemma quote_inv_init : quote_inv (Parse_init source).
Proof.
  unfold quote_inv, Parse_init. cbn [heap remainingParses blockQuoteEnd].
  split; [|split; [|split]].
  - intros [|[|n]] d cs H; cbn in H; try discriminate.
    injection H as <- <-. constructor.
  - destruct (0 <? len source); repeat constructor.
  - intros n d cs c d' cs' Hq. exfalso. eapply quoted_init; eauto.
  - right. unfold spans_in_region.
    destruct (0 <? len source); repeat constructor.
    intros Hq. exfalso. eapply quoted_init; eauto.
Qed.

Lemma quote_inv_step (st st' : pstate) :
  Forall (span_ok source) (remainingParses st) ->
  quote_inv st -> Parse_iter p source st = Next st' -> quote_inv st'.
Proof.
  intros Hok (Hwf & Hnodes & Hflat & Hreg) Hstep.
  destruct (Parse_iter_facts options source st st' Hok Hstep)
    as (builder & remaining & w & rule & g & ps & Hst & (Hb0 & Hb1 & Hb2) & Hw
        & Hlen & Hsel & Hin & [Hskip Hfind] & Hps & [He1 He2] & Hchild & Hpush).
  apply Parse_push_Next in Hpush as (_ & Hheap & Hbqe & Hstack).
  cbv zeta in Hheap, Hbqe, Hstack.
  rewrite Hst in Hnodes, Hreg.
  inversion Hnodes as [|? ? Hparent Hnodes']; subst.
  destruct Hreg as [Hempty|Hreg]; [cbn [top_is_empty] in Hempty; lia|].
  inversion Hreg as [|? ? Hbuilder Hreg']; subst.
  set (h := heap st) in *. set (parent := node builder) in *.
  set (h' := addChild parent (length h) (h ++ [(node ps, [])])) in *.
  change (parent < length h)%nat in Hparent.
  assert (Hlen' : length h' = S (length h)).
  { subst h'. rewrite length_addChild, length_app. cbn [length]. lia. }
  (* quoted nodes of the old store *)
  assert (Hold : forall x, (x < length h)%nat -> quoted h' x -> quoted h x).
  { intros x Hx Hq.
    destruct (quoted_step _ _ _ _ Hwf Hparent Hq) as [[_ Hq']|[-> _]];
      [exact Hq'|lia]. }
  (* the new node is not a block quote below a quoted parent *)
  assert (Hnew : quoted h parent -> is_quote (node ps) = false).
  { intros Hq. specialize (Hbuilder Hq).
    destruct (is_quote (node ps)) eqn:E; [|reflexivity].
    pose proof (quote_rule_only options rule _ ps Hin Hps E) as Hbq.
    unfold skipped in Hskip. rewrite Hbq in Hskip.
    apply orb_false_elim in Hskip as [_ Hskip]. cbn [andb] in Hskip.
    apply Z.ltb_ge in Hskip. lia. }
  unfold quote_inv. rewrite Hheap, Hbqe, Hstack. fold h h'.
  split; [|split; [|split]].
  - (* heap_wf *)
    intros n d cs Hn. rewrite Hlen'.
    destruct (step_lookup _ _ _ _ _ _ Hparent Hn)
      as [(_ & _ & ->)|(Hlt & cs0 & Hn0 & Hcs)]; [constructor|].
    pose proof (Hwf _ _ _ Hn0) as Hkids.
    assert (Hkids' : Forall (fun c => (c < S (length h))%nat) cs0)
      by (eapply Forall_impl; [|exact Hkids]; cbn beta; intros; lia).
    destruct Hcs as [[_ ->]|[_ ->]]; [exact Hkids'|].
    apply Forall_app. split; [exact Hkids'|].
    apply Forall_cons; [lia|constructor].
  - (* nodes of the spans *)
    rewrite Hlen'. apply Forall_app. split; [|apply Forall_app; split].
    + destruct (negb _ || negb _); [|constructor].
      apply Forall_cons; [cbn [node]; lia|constructor].
    + destruct (_ =? end_ builder); [constructor|].
      apply Forall_cons; [cbn [node]; lia|constructor].
    + eapply Forall_impl; [|exact Hnodes']. cbn beta. intros. lia.
  - (* quotes_flat *)
    intros n d cs c d' cs' Hq Hn Hc Hc'.
    destruct (step_lookup _ _ _ _ _ _ Hparent Hn)
      as [(_ & _ & ->)|(Hlt & cs0 & Hn0 & Hcs)]; [contradiction|].
    pose proof (Hold n Hlt Hq) as Hqn.
    pose proof (Hwf _ _ _ Hn0) as Hkids. rewrite Forall_forall in Hkids.
    assert (Hgo : In c cs0 -> is_quote d' = false).
    { intros Hc0. pose proof (Hkids c Hc0) as Hclt.
      destruct (step_lookup _ _ _ _ _ _ Hparent Hc')
        as [(-> & _ & _)|(_ & cs0' & Hc0' & _)]; [lia|].
      eapply Hflat; eauto. }
    destruct Hcs as [[_ ->]|[-> ->]]; [exact (Hgo Hc)|].
    apply in_app_or in Hc as [Hc|[<-|[]]]; [exact (Hgo Hc)|].
    destruct (step_lookup _ _ _ _ _ _ Hparent Hc')
      as [(_ & -> & _)|(Hlt' & _)]; [|lia].
    apply Hnew. exact Hqn.
  - (* the block-quote region *)
    destruct (blockQuote rule) eqn:Hbq.
    + pose proof (quote_rule_is_ruleBlockQuote options rule Hin Hbq) as ->.
      unfold skipped in Hskip. rewrite Hbq in Hskip.
      apply orb_false_elim in Hskip as [_ Hskip]. cbn [andb] in Hskip.
      apply Z.ltb_ge in Hskip.
      destruct (ruleBlockQuote_child w g ps Hfind Hps)
        as [[C1 C2]|(C1 & C2 & C3)].
      * left. rewrite C1, C2. cbn [Z.eqb negb orb app top_is_empty start end_].
        lia.
      * right.
        assert (Hp : negb (start ps =? 0) || negb (end_ ps =? 0) = true).
        { apply orb_true_iff. left. apply negb_true_iff. apply Z.eqb_neq. lia. }
        rewrite Hp. unfold spans_in_region. cbn [app].
        apply Forall_cons; [cbn [end_]; lia|].
        apply Forall_app. split.
        -- destruct (_ =? end_ builder); [constructor|].
           apply Forall_cons; [|constructor].
           cbn [node end_]. intros Hq.
           specialize (Hbuilder (Hold _ Hparent Hq)). lia.
        -- rewrite Forall_forall in Hreg', Hnodes' |- *. intros sp Hsp Hq.
           specialize (Hreg' sp Hsp (Hold _ (Hnodes' sp Hsp) Hq)). lia.
    + right. unfold spans_in_region.
      apply Forall_app. split; [|apply Forall_app; split].
      * destruct (negb (start ps =? 0) || negb (end_ ps =? 0)) eqn:Hp;
          [|constructor].
        apply Forall_cons; [|constructor]. cbn [node end_]. intros Hq.
        destruct (quoted_step _ _ _ _ Hwf Hparent Hq)
          as [[Hlt _]|[_ [Hq'|Hq']]]; [lia| |].
        -- pose proof (quote_rule_only options rule _ ps Hin Hps Hq'). congruence.
        -- specialize (Hbuilder Hq').
           destruct Hchild as [[C1 C2]|[[C1 C2]|(C1 & C2 & C3)]]; lia.
      * destruct (_ =? end_ builder); [constructor|].
        apply Forall_cons; [|constructor].
        cbn [node end_]. intros Hq. apply Hbuilder. apply Hold; assumption.
      * rewrite Forall_forall in Hreg', Hnodes' |- *. intros sp Hsp Hq.
        apply (Hreg' sp Hsp). apply Hold; auto.
Qed.

Lemma quote_inv_reachable (st : pstate) :
  reachable p source st -> quote_inv st.
Proof.
  induction 1 as [|st st' Hr IH Hstep]; [apply quote_inv_init|].
  eapply quote_inv_step; eauto. apply (reachable_inv options source st Hr).
Qed.

End QuoteInvariant.

Lemma reify_no_nested_quote (h : store) :
  quotes_flat h ->
  forall fuel inside n,
    (inside = true ->
     quoted h n /\ forall d cs, nth_error h n = Some (d, cs) -> is_quote d = false) ->
    no_nested_quote inside (reify fuel h n) = true.
Proof.
  intros Hflat. induction fuel as [|fuel IH]; intros inside n Hin.
  - cbn. rewrite andb_false_r. reflexivity.
  - cbn [reify]. destruct (nth_error h n) as [[d cs]|] eqn:E.
    + cbn [no_nested_quote]. apply andb_true_iff. split.
      * destruct inside; [|reflexivity].
        destruct (Hin eq_refl) as [_ Hd]. rewrite (Hd _ _ eq_refl). reflexivity.
      * apply forallb_forall. intros t Ht.
        apply in_map_iff in Ht as (c & <- & Hc).
        apply IH. intros Hins.
        assert (Hq : quoted h n).
        { destruct inside; [apply Hin; reflexivity|].
          cbn [orb] in Hins. destruct d; try discriminate.
          eapply quoted_self; eauto. }
        split; [eapply quoted_child; eauto|].
        intros d' cs' Hc'. eapply Hflat; eauto.
    + cbn. rewrite andb_false_r. reflexivity.
Qed.

Lemma Parse_steps_reachable (p : Parser) (source : bytes) :
  forall n st st',
    reachable p source st -> Parse_steps n p source st = Next st' ->
    reachable p source st'.
Proof.
  induction n as [|n IH]; intros st st' Hr H; cbn [Parse_steps] in H.
  - injection H as <-. exact Hr.
  - destruct (Parse_iter p source st) as [st1| |] eqn:E; try discriminate.
    apply (IH st1); auto. econstructor; eauto.
Qed.

(** What an iteration does to the block-quote region. *)
Lemma Parse_iter_region (options : option ParserOptions) (source : bytes)
      (st st' : pstate) :
  reachable (NewParser options) source st ->
  Parse_iter (NewParser options) source st = Next st' ->
  exists builder remaining w rule g ps,
    remainingParses st = builder :: remaining /\
    slice source (start builder) (end_ builder) = Some w /\
    select_rule (rules (NewParser options)) (lastCapture st) (blockQuoteEnd st)
                (start builder) w = Some (rule, g) /\
    parser rule (Match w g) = Some ps /\
    nth_error (heap st') (length (heap st)) = Some (node ps, []) /\
    (blockQuote rule = true ->
     node ps = BlockQuoteNode /\
     exists kid rest,
       remainingParses st' = kid :: rest /\ node kid = length (heap st) /\
       end_ kid = end_ ps + start builder /\
       blockQuoteEnd st' = end_ kid) /\
    (blockQuote rule = false -> blockQuoteEnd st' = blockQuoteEnd st) /\
    (start builder < blockQuoteEnd st ->
     blockQuote rule = false /\ is_quote (node ps) = false).
Proof.
  intros Hr Hstep.
  pose proof (reachable_inv options source st Hr) as [Hok _].
  pose proof (quote_inv_reachable options source st Hr) as (_ & Hnodes & _).
  destruct (Parse_iter_facts options source st st' Hok Hstep)
    as (builder & remaining & w & rule & g & ps & Hst & (Hb0 & Hb1 & Hb2) & Hw
        & Hlen & Hsel & Hin & [Hskip Hfind] & Hps & [He1 He2] & Hchild & Hpush).
  apply Parse_push_Next in Hpush as (_ & Hheap & Hbqe & Hstack).
  cbv zeta in Hheap, Hbqe, Hstack.
  rewrite Hst in Hnodes. inversion Hnodes as [|? ? Hparent _]; subst.
  exists builder, remaining, w, rule, g, ps.
  split; [exact Hst|]. split; [exact Hw|]. split; [exact Hsel|].
  split; [exact Hps|]. split; [|split; [|split]].
  - rewrite Hheap. unfold addChild. rewrite nth_error_update.
    assert (E : Nat.eqb (length (heap st)) (node builder) = false)
      by (apply Nat.eqb_neq; lia).
    rewrite E, nth_error_app2, Nat.sub_diag by lia. reflexivity.
  - intros Hbq.
    pose proof (quote_rule_is_ruleBlockQuote options rule Hin Hbq) as ->.
    destruct (ruleBlockQuote_child w g ps Hfind Hps) as [[C1 C2]|(C1 & C2 & C3)];
      (split; [unfold ruleBlockQuote in Hps; cbn [parser] in Hps;
               injection Hps as <-; reflexivity|]);
      assert (Hp : negb (start ps =? 0) || negb (end_ ps =? 0) = true)
        by (apply orb_true_iff; left; apply negb_true_iff; apply Z.eqb_neq; lia);
      rewrite Hp in Hstack, Hbqe; cbn [app] in Hstack;
        eexists; eexists; (split; [exact Hstack|]); cbn [node end_];
          rewrite Hbqe; auto.
  - intros Hbq. rewrite Hbqe, Hbq. reflexivity.
  - intros Hlt. unfold skipped in Hskip.
    apply orb_false_elim in Hskip as [_ Hskip].
    apply Z.ltb_lt in Hlt. rewrite Hlt, andb_true_r in Hskip.
    split; [exact Hskip|].
    destruct (is_quote (node ps)) eqn:E; [|reflexivity].
    pose proof (quote_rule_only options rule _ ps Hin Hps E). congruence.
Qed.

(** C6: when the block-quote rule matches, [blockQuoteEnd] becomes the end
    of the child span of the new [BlockQuoteNode]; for a pending span that
    starts before [blockQuoteEnd] the block-quote rule is skipped, so the
    node created for that span is not a [BlockQuoteNode]; and in every tree
    that [Parse] returns no [BlockQuoteNode] lies below a [BlockQuoteNode]. *)
Theorem block_quotes_are_flattened
        (options : option ParserOptions) (source : bytes) (st : pstate) :
  reachable (NewParser options) source st ->
  (forall r bs,
      blockQuote r = true -> bs < blockQuoteEnd st ->
      skipped r (lastCapture st) (blockQuoteEnd st) bs = true) /\
  (forall st',
      Parse_iter (NewParser options) source st = Next st' ->
      exists builder remaining w rule g ps,
        remainingParses st = builder :: remaining /\
        slice source (start builder) (end_ builder) = Some w /\
        select_rule (rules (NewParser options)) (lastCapture st)
                    (blockQuoteEnd st) (start builder) w = Some (rule, g) /\
        parser rule (Match w g) = Some ps /\
        nth_error (heap st') (length (heap st)) = Some (node ps, []) /\
        (blockQuote rule = true ->
         node ps = BlockQuoteNode /\
         exists kid rest,
           remainingParses st' = kid :: rest /\ node kid = length (heap st) /\
           end_ kid = end_ ps + start builder /\
           blockQuoteEnd st' = end_ kid) /\
        (blockQuote rule = false -> blockQuoteEnd st' = blockQuoteEnd st) /\
        (start builder < blockQuoteEnd st ->
         blockQuote rule = false /\ is_quote (node ps) = false)) /\
  (forall fuel root,
      Parse fuel (NewParser options) source = Returned root ->
      no_nested_quote false root = true).
Proof.
  intros Hr. split; [|split].
  - intros r bs Hbq Hlt. unfold skipped. rewrite Hbq.
    apply Z.ltb_lt in Hlt. rewrite Hlt. apply orb_true_r.
  - intros st' Hstep. eapply Parse_iter_region; eauto.
  - intros fuel root H.
    apply Parse_Returned_reachable in H as (st1 & Hr1 & ->).
    apply reify_no_nested_quote; [|discriminate].
    apply (quote_inv_reachable options source st1 Hr1).
Qed.

(** The state in which the window [> b] of [>>> a\n> b] is parsed: the
    last match ended in a newline, the window starts inside the region. *)
Lemma block_quotes_are_flattened_witness :
  let st :=
      PState [ParseSpec 1%nat 0 6 9]
             [(rootNode, [1%nat]); (BlockQuoteNode, [2%nat; 3%nat]);
              (TextNode [97], []); (TextNode [LF], [])]
             [LF] 9 in
  reachable (NewParser None) quote_in_quote st /\
  Parse 5 (NewParser None) quote_in_quote
  = Returned (Tree rootNode
                   [Tree BlockQuoteNode
                         [Tree (TextNode [97]) []; Tree (TextNode [LF]) [];
                          Tree (TextNode (bytes_of_string "> b")) []]]) /\
  (forall r bs,
      blockQuote r = true -> bs < blockQuoteEnd st ->
      skipped r (lastCapture st) (blockQuoteEnd st) bs = true) /\
  (forall st',
      Parse_iter (NewParser None) quote_in_quote st = Next st' ->
      exists builder remaining w rule g ps,
        remainingParses st = builder :: remaining /\
        slice quote_in_quote (start builder) (end_ builder) = Some w /\
        select_rule (rules (NewParser None)) (lastCapture st)
                    (blockQuoteEnd st) (start builder) w = Some (rule, g) /\
        parser rule (Match w g) = Some ps /\
        nth_error (heap st') (length (heap st)) = Some (node ps, []) /\
        (blockQuote rule = true ->
         node ps = BlockQuoteNode /\
         exists kid rest,
           remainingParses st' = kid :: rest /\ node kid = length (heap st) /\
           end_ kid = end_ ps + start builder /\
           blockQuoteEnd st' = end_ kid) /\
        (blockQuote rule = false -> blockQuoteEnd st' = blockQuoteEnd st) /\
        (start builder < blockQuoteEnd st ->
         blockQuote rule = false /\ is_quote (node ps) = false)) /\
  (forall fuel root,
      Parse fuel (NewParser None) quote_in_quote = Returned root ->
      no_nested_quote false root = true).
Proof.
  intros st.
  assert (Hr : reachable (NewParser None) quote_in_quote st).
  { apply (Parse_steps_reachable _ _ 3 (Parse_init quote_in_quote));
      [apply reach_init|vm_compute; reflexivity]. }
  split; [exact Hr|]. split; [vm_compute; reflexivity|].
  exact (block_quotes_are_flattened None quote_in_quote st Hr).
Defined.

(** * The trees [Parse] returns *)

Section TreeShape.

Variable options : option ParserOptions.
Variable source : bytes.

Local Abbreviation p := (NewParser options).

Lemma tree_inv_init : tree_inv p source (Parse_init source).
Proof.
  unfold tree_inv, Parse_init. cbn [heap remainingParses].
  split; [|split; [|split]].
  - intros [|[|n]] d cs H; cbn in H; try discriminate.
    injection H as <- <-. constructor.
  - destruct (0 <? len source); repeat constructor.
  - exists []. reflexivity.
  - intros [|[|n]] d cs Hn H; cbn in H; try discriminate. lia.
Qed.

Lemma tree_inv_step (st st' : pstate) :
  Forall (span_ok source) (remainingParses st) ->
  tree_inv p source st -> Parse_iter p source st = Next st' -> tree_inv p source st'.
Proof.
  intros Hok (Hord & Hnodes & [cs0 Hroot] & Hprod) Hstep.
  destruct (Parse_iter_facts options source st st' Hok Hstep)
    as (builder & remaining & w & rule & g & ps & Hst & (Hb0 & Hb1 & Hb2) & Hw
        & Hlen & Hsel & Hin & [Hskip Hfind] & Hps & [He1 He2] & Hchild & Hpush).
  apply Parse_push_Next in Hpush as (_ & Hheap & _ & Hstack).
  cbv zeta in Hheap, Hstack.
  rewrite Hst in Hnodes.
  inversion Hnodes as [|? ? Hparent Hnodes']; subst.
  set (h := heap st) in *. set (parent := node builder) in *.
  set (h' := addChild parent (length h) (h ++ [(node ps, [])])) in *.
  assert (Hlen' : length h' = S (length h)).
  { subst h'. rewrite length_addChild, length_app. cbn [length]. lia. }
  unfold tree_inv. rewrite Hheap, Hstack. fold h h'.
  split; [|split; [|split]].
  - intros n d cs Hn. rewrite Hlen'.
    destruct (step_lookup _ _ _ _ _ _ Hparent Hn)
      as [(_ & _ & ->)|(Hlt & cs1 & Hn0 & Hcs)]; [constructor|].
    pose proof (Hord _ _ _ Hn0) as Hkids.
    assert (Hkids' : Forall (fun c => (n < c < S (length h))%nat) cs1)
      by (eapply Forall_impl; [|exact Hkids]; cbn beta; intros; lia).
    destruct Hcs as [[_ ->]|[_ ->]]; [exact Hkids'|].
    apply Forall_app. split; [exact Hkids'|].
    apply Forall_cons; [lia|constructor].
  - rewrite Hlen'. apply Forall_app. split; [|apply Forall_app; split].
    + destruct (negb _ || negb _); [|constructor].
      apply Forall_cons; [cbn [node]; lia|constructor].
    + destruct (_ =? end_ builder); [constructor|].
      apply Forall_cons; [cbn [node]; lia|constructor].
    + eapply Forall_impl; [|exact Hnodes']. cbn beta. intros. lia.
  - destruct (step_lookup_old h parent (node ps) _ _ _ Hroot) as [cs' Hcs'].
    exists cs'. exact Hcs'.
  - intros n d cs Hn1 Hn.
    destruct (step_lookup _ _ _ _ _ _ Hparent Hn)
      as [(_ & -> & _)|(Hlt & cs1 & Hn0 & _)].
    + exists rule, (start builder), (end_ builder), w, g, ps. auto.
    + eapply Hprod; eauto.
Qed.

Lemma tree_inv_reachable (st : pstate) :
  reachable p source st -> tree_inv p source st.
Proof.
  induction 1 as [|st st' Hr IH Hstep]; [apply tree_inv_init|].
  eapply tree_inv_step; eauto. apply (reachable_inv options source st Hr).
Qed.

End TreeShape.

Lemma Forall_flat_map {A B : Type} (P : B -> Prop) (f : A -> list B) (l : list A) :
  (forall x, In x l -> Forall P (f x)) -> Forall P (flat_map f l).
Proof.
  induction l as [|x l IH]; intros H; cbn [flat_map]; [constructor|].
  apply Forall_app. split; [apply H; left; reflexivity|].
  apply IH. intros y Hy. apply H. right. exact Hy.
Qed.

(** Reading a tree back from an ordered store visits allocated cells only. *)
Lemma reify_nodes (P : NodeData -> Prop) (h : store) :
  heap_ordered h ->
  forall fuel n,
    (n < length h)%nat -> (length h - n <= fuel)%nat ->
    (forall m d cs, (n <= m)%nat -> nth_error h m = Some (d, cs) -> P d) ->
    Forall P (nodes (reify fuel h n)).
Proof.
  intros Hord. induction fuel as [|fuel IH]; intros n Hn Hfuel HP; [lia|].
  cbn [reify]. destruct (nth_error h n) as [[d cs]|] eqn:E.
  - cbn [nodes]. apply Forall_cons; [eapply HP; eauto|].
    apply Forall_flat_map. intros t Ht.
    apply in_map_iff in Ht as (c & <- & Hc).
    pose proof (Hord _ _ _ E) as Hkids. rewrite Forall_forall in Hkids.
    specialize (Hkids c Hc).
    apply IH; [lia|lia|]. intros m d' cs' Hm. apply HP. lia.
  - apply nth_error_None in E. lia.
Qed.

(** The tree [Parse] returns: the root is the bare node, every node below
    it was built by a rule of the table. *)
Lemma Parse_nodes (options : option ParserOptions) (source : bytes) (fuel : nat)
      (root : Node) :
  Parse fuel (NewParser options) source = Returned root ->
  exists kids,
    root = Tree rootNode kids /\
    Forall (produced (NewParser options) source) (flat_map nodes kids).
Proof.
  intros H. apply Parse_Returned_reachable in H as (st & Hr & ->).
  destruct (tree_inv_reachable options source st Hr)
    as (Hord & _ & [cs0 Hroot] & Hprod).
  assert (Hlen : (0 < length (heap st))%nat)
    by (apply nth_error_Some; unfold topLevelRootNode; congruence).
  destruct (length (heap st)) as [|fuel'] eqn:L; [lia|].
  cbn [reify]. unfold topLevelRootNode. rewrite Hroot.
  eexists. split; [reflexivity|].
  apply Forall_flat_map. intros t Ht.
  apply in_map_iff in Ht as (c & <- & Hc).
  pose proof (Hord _ _ _ Hroot) as Hkids. rewrite Forall_forall in Hkids.
  specialize (Hkids c Hc).
  apply reify_nodes; [exact Hord|lia|lia|].
  intros m d cs Hm. apply Hprod. lia.
Qed.

(** * None *)

(** The rules of a table: the fixed ones and those the options add. *)
Lemma In_NewParser_rules (options : option ParserOptions) (r : rule) :
  In r (rules (NewParser options)) <->
  In r (fixed_rules ++ optional_rules (effective options)).
Proof.
  unfold NewParser, effective, optional_rules, fixed_rules. cbn [rules].
  destruct options as [o|];
    [destruct o as [[] [] [] []]|];
    cbn [EnableBlockQuote EnableMaskedLinks EnableMentions EnableForumMarkdown
         DefaultParserOptions app In];
    intuition.
Qed.

Ltac in_cases H :=
  repeat match type of H with
         | _ \/ _ => destruct H as [<-|H]
         | False => contradiction
         end.

Ltac open_rule Hps :=
  cbn [parser ruleSoftHyphen ruleEscape ruleBlockQuote ruleCodeBlock
              ruleCodeInline ruleSpoiler ruleMaskedLink ruleURLNoEmbed ruleURL
              ruleCustomEmoji ruleNamedEmoji ruleUnescapeEmoticon
              ruleChannelMention ruleRoleMention ruleUserMention
              ruleSpecialMention ruleTimestamp ruleHeaderItem ruleListItem
              ruleNewline ruleBold ruleUnderline ruleItalics ruleStrikethrough
              ruleText leaf] in Hps;
  try (let E := fresh "Hmask" in
       destruct (slice _ _ _) eqn:E in Hps; [|discriminate]);
  injection Hps as <-.

(** What the rules of a table build, by the options. *)
Lemma produced_gates (options : option ParserOptions) (source : bytes)
      (d : NodeData) :
  produced (NewParser options) source d ->
  let o := effective options in
  d <> rootNode /\
  (EnableBlockQuote o = false -> is_quote d = false) /\
  (EnableMaskedLinks o = false -> no_mask d) /\
  (EnableMentions o = false -> is_mention d = false) /\
  (EnableForumMarkdown o = false -> is_forum d = false).
Proof.
  intros (r & a & b & w & g & ps & Hin & _ & _ & Hps & <-) o.
  apply In_NewParser_rules in Hin. fold o in Hin. unfold optional_rules, fixed_rules in Hin.
  destruct (EnableBlockQuote o), (EnableMaskedLinks o), (EnableMentions o),
    (EnableForumMarkdown o); cbn [app In] in Hin; in_cases Hin; open_rule Hps;
    cbn [node is_quote no_mask is_mention is_forum];
    (split; [discriminate|]); repeat split; intros; auto; discriminate.
Qed.

(** * What the options switch off *)

Lemma Parse_nodes_gates (options : option ParserOptions) (source : bytes)
      (fuel : nat) (root : Node) (P : NodeData -> Prop) :
  P rootNode ->
  (forall d, produced (NewParser options) source d -> P d) ->
  Parse fuel (NewParser options) source = Returned root ->
  Forall P (nodes root).
Proof.
  intros Hroot HP H. apply Parse_nodes in H as (kids & -> & Hk).
  cbn [nodes]. apply Forall_cons; [exact Hroot|].
  eapply Forall_impl; [|exact Hk]. exact HP.
Qed.

(** X1: the tree [Parse] returns has the bare [node] as its root, and no
    node below the root is a bare [node]: each one is a node of one of the
    exported types, built by a rule. *)
Theorem root_type_only_at_root
        (options : option ParserOptions) (source : bytes) (fuel : nat) (root : Node) :
  Parse fuel (NewParser options) source = Returned root ->
  exists kids,
    root = Tree rootNode kids /\
    Forall (fun d => d <> rootNode) (flat_map nodes kids).
Proof.
  intros H. apply Parse_nodes in H as (kids & -> & Hk).
  exists kids. split; [reflexivity|].
  eapply Forall_impl; [|exact Hk]. intros d Hd.
  apply (produced_gates options source d Hd).
Qed.

Lemma root_type_only_at_root_witness :
  exists root,
    Parse 8 (NewParser None) (bytes_of_string "**a** b") = Returned root /\
    exists kids,
      root = Tree rootNode kids /\
      Forall (fun d => d <> rootNode) (flat_map nodes kids).
Proof.
  eexists. split; [vm_compute; reflexivity|].
  apply (root_type_only_at_root None (bytes_of_string "**a** b") 8).
  vm_compute. reflexivity.
Defined.

(** X2: with [EnableBlockQuote] off, no tree [Parse] returns holds a
    [BlockQuoteNode], whatever the source. *)
Theorem block_quote_option_off
        (options : option ParserOptions) (source : bytes) (fuel : nat) (root : Node) :
  EnableBlockQuote (effective options) = false ->
  Parse fuel (NewParser options) source = Returned root ->
  Forall (fun d => is_quote d = false) (nodes root).
Proof.
  intros Hoff. apply Parse_nodes_gates; [reflexivity|].
  intros d Hd. apply (produced_gates options source d Hd). exact Hoff.
Qed.

Lemma block_quote_option_off_witness :
  exists root,
    Parse 8 (NewParser no_options) (bytes_of_string ">>> hi") = Returned root /\
    Forall (fun d => is_quote d = false) (nodes root).
Proof.
  eexists. split; [vm_compute; reflexivity|].
  apply (block_quote_option_off no_options (bytes_of_string ">>> hi") 8);
    [reflexivity|vm_compute; reflexivity].
Defined.

(** X3: with [EnableMaskedLinks] off, every [URLNode] of a tree [Parse]
    returns has an empty [Mask]. *)
Theorem masked_link_option_off
        (options : option ParserOptions) (source : bytes) (fuel : nat) (root : Node) :
  EnableMaskedLinks (effective options) = false ->
  Parse fuel (NewParser options) source = Returned root ->
  Forall no_mask (nodes root).
Proof.
  intros Hoff. apply Parse_nodes_gates; [exact I|].
  intros d Hd. apply (produced_gates options source d Hd). exact Hoff.
Qed.

Lemma masked_link_option_off_witness :
  exists root,
    Parse 32 (NewParser None) (bytes_of_string "[a](http://b.c)") = Returned root /\
    Forall no_mask (nodes root).
Proof.
  eexists. split; [vm_compute; reflexivity|].
  apply (masked_link_option_off None (bytes_of_string "[a](http://b.c)") 32);
    [reflexivity|vm_compute; reflexivity].
Defined.

(** X4: with [EnableMentions] off, no tree [Parse] returns holds a channel,
    role, user or special mention node. *)
Theorem mention_option_off
        (options : option ParserOptions) (source : bytes) (fuel : nat) (root : Node) :
  EnableMentions (effective options) = false ->
  Parse fuel (NewParser options) source = Returned root ->
  Forall (fun d => is_mention d = false) (nodes root).
Proof.
  intros Hoff. apply Parse_nodes_gates; [reflexivity|].
  intros d Hd. apply (produced_gates options source d Hd). exact Hoff.
Qed.

Lemma mention_option_off_witness :
  exists root,
    Parse 16 (NewParser no_options) (bytes_of_string "<@12> @here") = Returned root /\
    Forall (fun d => is_mention d = false) (nodes root).
Proof.
  eexists. split; [vm_compute; reflexivity|].
  apply (mention_option_off no_options (bytes_of_string "<@12> @here") 16);
    [reflexivity|vm_compute; reflexivity].
Defined.

(** X5: with [EnableForumMarkdown] off, no tree [Parse] returns holds a
    [HeaderNode] or a [BulletListNode]. *)
Theorem forum_option_off
        (options : option ParserOptions) (source : bytes) (fuel : nat) (root : Node) :
  EnableForumMarkdown (effective options) = false ->
  Parse fuel (NewParser options) source = Returned root ->
  Forall (fun d => is_forum d = false) (nodes root).
Proof.
  intros Hoff. apply Parse_nodes_gates; [reflexivity|].
  intros d Hd. apply (produced_gates options source d Hd). exact Hoff.
Qed.

Lemma forum_option_off_witness :
  exists root,
    Parse 16 (NewParser None) (bytes_of_string "# a") = Returned root /\
    Forall (fun d => is_forum d = false) (nodes root).
Proof.
  eexists. split; [vm_compute; reflexivity|].
  apply (forum_option_off None (bytes_of_string "# a") 16);
    [reflexivity|vm_compute; reflexivity].
Defined.

(** * Where the strings of the nodes come from *)

Section Factors.

Lemma factor_refl (s : bytes) : factor s s.
Proof. exists [], []. rewrite app_nil_r. reflexivity. Qed.

Lemma factor_nil (s : bytes) : factor [] s.
Proof. exists [], s. reflexivity. Qed.

Lemma factor_trans (x y z : bytes) : factor x y -> factor y z -> factor x z.
Proof.
  intros (a & b & ->) (c & d & ->). exists (c ++ a), (b ++ d).
  rewrite <- !app_assoc. reflexivity.
Qed.

Lemma factor_substr (s : bytes) (a b : Z) : factor (substr s a b) s.
Proof.
  unfold substr.
  exists (firstn (Z.to_nat a) s),
         (skipn (Z.to_nat (b - a)) (skipn (Z.to_nat a) s)).
  rewrite firstn_skipn, firstn_skipn. reflexivity.
Qed.

Lemma factor_slice (s w : bytes) (a b : Z) : slice s a b = Some w -> factor w s.
Proof.
  unfold slice. destruct (_ && _); [|discriminate].
  intros H. injection H as <-. apply factor_substr.
Qed.

Lemma factor_group (m : match_) (i : nat) : factor (group m i) (m_match m).
Proof.
  unfold group. destruct (_ =? -1); [apply factor_nil|apply factor_substr].
Qed.

Lemma factor_In (c : Z) (s : bytes) : In c s -> factor [c] s.
Proof. intros H. apply in_split in H as (a & b & ->). exists a, b. reflexivity. Qed.

(** What is left to read is a suffix of what was left before. *)
Lemma take_suffix (p : Z -> bool) (st st' : mstate) :
  In st' (take p st) -> exists pre, m_rest st = pre ++ m_rest st'.
Proof.
  intros H. apply take_spec in H as (c & w & _ & _ & _ & ->). cbn [m_rest].
  exists (firstn (Z.to_nat w) (m_rest st)). rewrite firstn_skipn. reflexivity.
Qed.

Lemma run_suffix (r : Regexp) :
  forall st st', In st' (run r st) -> exists pre, m_rest st = pre ++ m_rest st'.
Proof.
  induction r; intros st st' H; cbn [run] in H;
    try (eapply take_suffix; eassumption).
  - destruct H as [<-|[]]. exists []. reflexivity.
  - destruct (m_pos st =? 0); [|contradiction]. destruct H as [<-|[]].
    exists []. reflexivity.
  - destruct (m_rest st) eqn:E; [|contradiction]. destruct H as [<-|[]].
    exists []. rewrite E. reflexivity.
  - destruct (at_word_boundary st); [|contradiction]. destruct H as [<-|[]].
    exists []. reflexivity.
  - apply in_flat_map in H as (st1 & H1 & H2).
    destruct (IHr1 _ _ H1) as [a Ha]. destruct (IHr2 _ _ H2) as [b Hb].
    exists (a ++ b). rewrite Ha, Hb, app_assoc. reflexivity.
  - apply in_app_or in H as [H|H]; eauto.
  - refine (star_loop_ind
              (fun a b => exists pre, m_rest a = pre ++ m_rest b)
              (run r) _ _ _ _ _ _ H); clear st st' H.
    + intros st. exists []. reflexivity.
    + intros a b c Hb _ [y Hy]. destruct (IHr _ _ Hb) as [x Hx].
      exists (x ++ y). rewrite Hx, Hy, app_assoc. reflexivity.
  - apply in_map_iff in H as (st1 & <- & H1). cbn [set_cap m_rest]. eauto.
Qed.

(** A literal below 0x80 reads the byte itself. *)
Lemma run_Chr_ascii (c : Z) (st st' : mstate) :
  c < 128 -> In st' (run (Chr c) st) -> m_rest st = c :: m_rest st'.
Proof.
  intros Hc H. cbn [run] in H. destruct st as [pos prev [|b rest] caps];
    [contradiction|].
  destruct (Z.lt_ge_cases b 128) as [Hb|Hb].
  - rewrite take_ascii in H by exact Hb.
    destruct (b =? c) eqn:E; [|contradiction]. apply Z.eqb_eq in E.
    destruct H as [<-|[]]. cbn [m_rest]. congruence.
  - pose proof (DecodeRune_high b rest Hb) as Hh.
    apply take_spec in H as (c0 & w & Hd & E & _ & _). cbn [m_rest] in Hd.
    rewrite Hd in Hh. cbn [fst] in Hh. apply Z.eqb_eq in E. lia.
Qed.

(** A match of the newline pattern reads a line feed. *)
Lemma patternNewline_reads_LF (w : bytes) (g : list Z) :
  FindStringSubmatchIndex patternNewline w = Some g -> In LF w.
Proof.
  intros H. rewrite Find_anchored in H by reflexivity.
  unfold match_at_start in H.
  destruct (run patternNewline (init_state patternNewline w)) as [|st' l] eqn:E;
    [discriminate|].
  assert (Hin : In st' (run patternNewline (init_state patternNewline w)))
    by (rewrite E; left; reflexivity).
  unfold patternNewline in Hin. cbn [Seq] in Hin.
  apply in_flat_map in Hin as (st1 & H1 & Hin).
  apply in_flat_map in Hin as (st2 & H2 & H3).
  apply (run_suffix Bol) in H1 as [a Ha].
  apply (run_suffix (Star true (Cat (Chr LF) (Star true sp)))) in H2 as [b Hb].
  apply (run_Chr_ascii LF) in H3; [|unfold LF; lia].
  cbn [init_state m_rest] in Ha. rewrite Ha, Hb, H3.
  apply in_or_app. right. apply in_or_app. right. left. reflexivity.
Qed.

End Factors.

(** The strings a rule puts into a node are read from the window. *)
Lemma produced_strings (options : option ParserOptions) (source : bytes)
      (d : NodeData) :
  produced (NewParser options) source d ->
  Forall (fun x => factor x source) (strings d).
Proof.
  intros (r & a & b & w & g & ps & Hin & Hw & Hfind & Hps & <-).
  apply factor_slice in Hw.
  assert (G : forall i, factor (group (Match w g) i) source).
  { intros i. eapply factor_trans; [apply factor_group|exact Hw]. }
  apply In_NewParser_rules in Hin. unfold optional_rules, fixed_rules in Hin.
  destruct (EnableBlockQuote _), (EnableMaskedLinks _), (EnableMentions _),
    (EnableForumMarkdown _); cbn [app In] in Hin; in_cases Hin; open_rule Hps;
    cbn [node strings];
    repeat (apply Forall_cons; [|]); try apply Forall_nil;
      try apply G; try apply factor_nil;
      try (eapply factor_trans; [|exact Hw];
           apply factor_In; eapply patternNewline_reads_LF; exact Hfind);
      try (eapply factor_trans; [eapply factor_slice; exact Hmask|apply G]).
Qed.

(** X6: every string field of every node of a tree [Parse] returns
    (contents, languages, URLs, masks, names, IDs, stamps, suffixes) is a
    substring of the source, the empty string included: [Parse] copies text
    and never makes any up. *)
Theorem node_strings_come_from_source
        (options : option ParserOptions) (source : bytes) (fuel : nat) (root : Node) :
  Parse fuel (NewParser options) source = Returned root ->
  Forall (fun d => Forall (fun x => factor x source) (strings d)) (nodes root).
Proof.
  apply Parse_nodes_gates; [constructor|].
  intros d Hd. eapply produced_strings; eauto.
Qed.

Lemma node_strings_come_from_source_witness :
  exists root,
    Parse 32 (NewParser all_options) (bytes_of_string "[a](http://b.c) <:x:1>")
    = Returned root /\
    Forall (fun d => Forall (fun x => factor x (bytes_of_string "[a](http://b.c) <:x:1>"))
                            (strings d)) (nodes root).
Proof.
  eexists. split; [vm_compute; reflexivity|].
  apply (node_strings_come_from_source
           all_options (bytes_of_string "[a](http://b.c) <:x:1>") 32).
  vm_compute. reflexivity.
Defined.

(** * Leaf nodes and the empty message *)

(** A rule that builds a leaf node asks for no child span. *)
Lemma leaf_rules_have_no_span (options : option ParserOptions) (r : rule)
      (m : match_) (ps : parseSpec NodeData) :
  In r (rules (NewParser options)) -> parser r m = Some ps ->
  is_leaf (node ps) = true -> start ps = 0 /\ end_ ps = 0.
Proof.
  intros Hin Hps.
  apply In_NewParser_rules in Hin. unfold optional_rules, fixed_rules in Hin.
  destruct (EnableBlockQuote _), (EnableMaskedLinks _), (EnableMentions _),
    (EnableForumMarkdown _); cbn [app In] in Hin; in_cases Hin; open_rule Hps;
    cbn [node start end_ is_leaf]; intros; auto; discriminate.
Qed.

Section Leaves.

Variable options : option ParserOptions.
Variable source : bytes.

Local Abbreviation p := (NewParser options).

Lemma leaf_inv_init : leaf_inv (Parse_init source).
Proof.
  unfold leaf_inv, Parse_init. cbn [heap remainingParses]. split.
  - intros [|[|n]] d cs H; cbn in H; try discriminate.
    injection H as <- <-. discriminate.
  - destruct (0 <? len source); repeat constructor.
    exists rootNode, []. auto.
Qed.

Lemma leaf_inv_step (st st' : pstate) :
  Forall (span_ok source) (remainingParses st) ->
  leaf_inv st -> Parse_iter p source st = Next st' -> leaf_inv st'.
Proof.
  intros Hok (Hleaf & Hnodes) Hstep.
  destruct (Parse_iter_facts options source st st' Hok Hstep)
    as (builder & remaining & w & rule & g & ps & Hst & (Hb0 & Hb1 & Hb2) & Hw
        & Hlen & Hsel & Hin & [Hskip Hfind] & Hps & [He1 He2] & Hchild & Hpush).
  apply Parse_push_Next in Hpush as (_ & Hheap & _ & Hstack).
  cbv zeta in Hheap, Hstack.
  rewrite Hst in Hnodes.
  inversion Hnodes as [|? ? (dp & csp & Hdp & Hleafp) Hnodes']; subst.
  set (h := heap st) in *. set (parent := node builder) in *.
  set (h' := addChild parent (length h) (h ++ [(node ps, [])])) in *.
  assert (Hparent : (parent < length h)%nat)
    by (apply nth_error_Some; congruence).
  assert (Hkeep : forall n d cs, nth_error h n = Some (d, cs) ->
                                 exists cs', nth_error h' n = Some (d, cs')).
  { intros n d cs Hn. eapply step_lookup_old; eauto. }
  unfold leaf_inv. rewrite Hheap, Hstack. fold h h'. split.
  - intros n d cs Hn Hd.
    destruct (step_lookup _ _ _ _ _ _ Hparent Hn)
      as [(_ & _ & ->)|(Hlt & cs1 & Hn0 & Hcs)]; [reflexivity|].
    destruct Hcs as [[_ ->]|[-> _]]; [eapply Hleaf; eauto|].
    fold parent in Hn0. congruence.
  - apply Forall_app. split; [|apply Forall_app; split].
    + destruct (negb (start ps =? 0) || negb (end_ ps =? 0)) eqn:Hp; [|constructor].
      apply Forall_cons; [|constructor]. cbn [node].
      exists (node ps), []. split.
      * subst h'. unfold addChild. rewrite nth_error_update.
        assert (E : Nat.eqb (length h) parent = false) by (apply Nat.eqb_neq; lia).
        rewrite E, nth_error_app2, Nat.sub_diag by lia. reflexivity.
      * destruct (is_leaf (node ps)) eqn:E; [|reflexivity].
        destruct (leaf_rules_have_no_span options rule _ ps Hin Hps E) as [C1 C2].
        rewrite C1, C2 in Hp. discriminate Hp.
    + destruct (_ =? end_ builder); [constructor|].
      apply Forall_cons; [|constructor]. cbn [node].
      destruct (Hkeep _ _ _ Hdp) as [cs' Hcs']. eauto.
    + eapply Forall_impl; [|exact Hnodes']. cbn beta.
      intros sp (d & cs & Hn & Hd). destruct (Hkeep _ _ _ Hn) as [cs' Hcs']. eauto.
Qed.

Lemma leaf_inv_reachable (st : pstate) : reachable p source st -> leaf_inv st.
Proof.
  induction 1 as [|st st' Hr IH Hstep]; [apply leaf_inv_init|].
  eapply leaf_inv_step; eauto. apply (reachable_inv options source st Hr).
Qed.

End Leaves.

Lemma reify_leaves_childless (h : store) :
  (forall n d cs, nth_error h n = Some (d, cs) -> is_leaf d = true -> cs = []) ->
  forall fuel n, leaves_childless (reify fuel h n) = true.
Proof.
  intros Hh. induction fuel as [|fuel IH]; intros n; [reflexivity|].
  cbn [reify]. destruct (nth_error h n) as [[d cs]|] eqn:E; [|reflexivity].
  cbn [leaves_childless]. apply andb_true_iff. split.
  - destruct (is_leaf d) eqn:L; [|reflexivity].
    rewrite (Hh _ _ _ E L). reflexivity.
  - apply forallb_forall. intros t Ht.
    apply in_map_iff in Ht as (c & <- & _). apply IH.
Qed.

(** X7: in a tree [Parse] returns, the nodes of the types documented as
    leaf nodes (text, URL, emoji, the four mentions, timestamp) and the
    code nodes have no children. *)
Theorem leaf_nodes_have_no_children
        (options : option ParserOptions) (source : bytes) (fuel : nat) (root : Node) :
  Parse fuel (NewParser options) source = Returned root ->
  leaves_childless root = true.
Proof.
  intros H. apply Parse_Returned_reachable in H as (st & Hr & ->).
  apply reify_leaves_childless.
  apply (leaf_inv_reachable options source st Hr).
Qed.

Lemma leaf_nodes_have_no_children_witness :
  exists root,
    Parse 32 (NewParser None) (bytes_of_string "**a `b`** <t:1>") = Returned root /\
    leaves_childless root = true.
Proof.
  eexists. split; [vm_compute; reflexivity|].
  apply (leaf_nodes_have_no_children None (bytes_of_string "**a `b`** <t:1>") 32).
  vm_compute. reflexivity.
Defined.

(** ** The empty message *)

Lemma Parse_Returned_exit (p : Parser) (source : bytes) (fuel : nat) (root : Node) :
  Parse fuel p source = Returned root ->
  exists st,
    reachable p source st /\ Parse_iter p source st = Exit (heap st) /\
    root = reify (length (heap st)) (heap st) topLevelRootNode.
Proof.
  unfold Parse. intros H.
  destruct (Parse_loop fuel p source (Parse_init source)) as [[h|]|] eqn:E;
    try discriminate.
  injection H as <-.
  assert (G : forall fuel st,
             reachable p source st ->
             Parse_loop fuel p source st = Some (Some h) ->
             exists st', reachable p source st' /\
                         Parse_iter p source st' = Exit (heap st') /\ h = heap st').
  { clear. induction fuel as [|fuel IH]; intros st Hr H; [discriminate|].
    cbn [Parse_loop] in H.
    destruct (Parse_iter p source st) as [st'|h'|] eqn:E; try discriminate.
    - apply (IH st'); auto. econstructor; eauto.
    - injection H as ->. pose proof (Parse_iter_Exit_heap _ _ _ _ E) as ->.
      exists st. auto. }
  destruct (G fuel _ (reach_init p source) E) as (st & Hr & Hx & ->). eauto.
Qed.

Section Empty.

Variable options : option ParserOptions.
Variable source : bytes.

Local Abbreviation p := (NewParser options).

(** After the first iteration the root has a child. *)
Lemma root_has_child (st : pstate) :
  reachable p source st ->
  st = Parse_init source \/
  exists c cs, nth_error (heap st) 0 = Some (rootNode, c :: cs).
Proof.
  induction 1 as [|st st' Hr IH Hstep]; [left; reflexivity|]. right.
  pose proof (reachable_inv options source st Hr) as [Hok _].
  destruct (Parse_iter_facts options source st st' Hok Hstep)
    as (builder & remaining & w & rule & g & ps & Hst & _ & _
        & _ & _ & _ & _ & _ & _ & _ & Hpush).
  apply Parse_push_Next in Hpush as (_ & Hheap & _ & _).
  cbv zeta in Hheap. rewrite Hheap.
  destruct IH as [->|(c & cs & Hroot)].
  - unfold Parse_init in Hst |- *. cbn [remainingParses heap] in *.
    destruct (0 <? len source); [|discriminate].
    injection Hst as <- _. cbn. eauto.
  - unfold addChild. rewrite nth_error_update.
    assert (Hlt : (0 < length (heap st))%nat) by (apply nth_error_Some; congruence).
    rewrite nth_error_app1 by exact Hlt. rewrite Hroot.
    destruct (Nat.eqb 0 (node builder)); cbn [option_map fst snd app]; eauto.
Qed.

Lemma Parse_iter_init_no_exit (h : store) :
  source <> [] -> Parse_iter p source (Parse_init source) <> Exit h.
Proof.
  intros Hne. unfold Parse_iter, Parse_init. cbn [remainingParses].
  assert (E : (0 <? len source) = true).
  { apply Z.ltb_lt. unfold len. destruct source; [congruence|cbn [length]; lia]. }
  rewrite E. cbn [start end_].
  assert (E' : (len source <=? 0) = false) by (apply Z.leb_gt; apply Z.ltb_lt; exact E).
  rewrite E'.
  destruct (slice source 0 (len source)); [|discriminate].
  destruct (select_rule _ _ _ _ _) as [[? ?]|]; [|discriminate].
  destruct (parser _ _); [|discriminate].
  unfold Parse_push, alloc. destruct (slice _ 0 _); discriminate.
Qed.

End Empty.

(** X8: [Parse] returns the root without children for the empty source,
    and for the empty source only: a source of one byte or more gives the
    root one child at least. *)
Theorem only_the_empty_message_gives_an_empty_tree
        (options : option ParserOptions) (source : bytes) (fuel : nat) (root : Node) :
  Parse fuel (NewParser options) source = Returned root ->
  exists kids, root = Tree rootNode kids /\ (kids = [] <-> source = []).
Proof.
  intros H. apply Parse_Returned_exit in H as (st & Hr & Hx & ->).
  destruct (root_has_child options source st Hr) as [->|(c & cs & Hroot)].
  - destruct source as [|b s] eqn:Hs.
    + exists []. split; [reflexivity|tauto].
    + exfalso. rewrite <- Hs in Hx.
      apply (Parse_iter_init_no_exit options source _ ltac:(congruence) Hx).
  - assert (Hlt : (0 < length (heap st))%nat) by (apply nth_error_Some; congruence).
    destruct (length (heap st)) as [|n] eqn:L; [lia|].
    cbn [reify]. unfold topLevelRootNode. rewrite Hroot. cbn [map].
    eexists. split; [reflexivity|].
    split; [discriminate|].
    intros ->. exfalso.
    clear - Hr Hroot.
    assert (G : forall st, reachable (NewParser options) [] st -> st = Parse_init []).
    { clear. induction 1 as [|st st' Hr IH Hstep]; [reflexivity|].
      subst st. discriminate Hstep. }
    rewrite (G _ Hr) in Hroot. discriminate Hroot.
Qed.

Lemma only_the_empty_message_gives_an_empty_tree_witness :
  exists root,
    Parse 1 (NewParser None) [] = Returned root /\
    exists kids, root = Tree rootNode kids /\ (kids = [] <-> @nil Z = []).
Proof.
  eexists. split; [vm_compute; reflexivity|].
  apply (only_the_empty_message_gives_an_empty_tree None [] 1).
  vm_compute. reflexivity.
Defined.

(** * [Walk] and [Debug] *)

Lemma Node_induction (P : Node -> Prop) :
  (forall d cs, Forall P cs -> P (Tree d cs)) -> forall n, P n.
Proof.
  intros H. fix IH 1. intros [d cs]. apply H.
  induction cs as [|c cs IHcs]; constructor; [apply IH|exact IHcs].
Qed.

Section Walking.

Context {St : Type}.
Variable w : Walker St.

Local Abbreviation call := (fun (s : St) (e : Node * bool) => w (fst e) (snd e) s).

Lemma Walk_calls (n : Node) :
  forall s, Walk n w s = fold_left call (calls n) s.
Proof.
  induction n as [d cs IH] using Node_induction. intros s.
  cbn [Walk calls fold_left fst snd]. rewrite fold_left_app. cbn [fold_left fst snd].
  f_equal. generalize (w (Tree d cs) true s). clear s.
  induction IH as [|c cs Hc _ IHcs]; intros s; [reflexivity|].
  cbn [fold_left flat_map]. rewrite fold_left_app, <- Hc. apply IHcs.
Qed.

End Walking.

Lemma nested_calls (n : Node) :
  forall k rest, nested k (calls n ++ rest) = nested k rest.
Proof.
  induction n as [d cs IH] using Node_induction. intros k rest.
  cbn [calls app nested]. rewrite <- app_assoc. cbn [app].
  transitivity (nested (S k) ((Tree d cs, false) :: rest)); [|reflexivity].
  generalize ((Tree d cs, false) :: rest). generalize (S k).
  induction IH as [|c cs' Hc _ IHcs]; intros k' tail; [reflexivity|].
  cbn [flat_map]. rewrite <- app_assoc, Hc. apply IHcs.
Qed.

Lemma length_calls (n : Node) : length (calls n) = (2 * length (nodes n))%nat.
Proof.
  induction n as [d cs IH] using Node_induction.
  cbn [calls nodes length]. rewrite length_app. cbn [length].
  assert (E : length (flat_map calls cs) = (2 * length (flat_map nodes cs))%nat).
  { induction IH as [|c cs' Hc _ IHcs]; [reflexivity|].
    cbn [flat_map]. rewrite !length_app, Hc, IHcs. lia. }
  rewrite E. lia.
Qed.

Lemma entering_calls (n : Node) :
  map (fun e => data (fst e)) (filter snd (calls n)) = nodes n.
Proof.
  induction n as [d cs IH] using Node_induction.
  cbn [calls nodes filter snd map fst data]. f_equal.
  rewrite filter_app. cbn [filter snd]. rewrite app_nil_r.
  induction IH as [|c cs' Hc _ IHcs]; [reflexivity|].
  cbn [flat_map]. rewrite filter_app, map_app, Hc, IHcs. reflexivity.
Qed.

(** X9: [Walk] calls the walker on a sequence of nodes that depends on the
    tree alone: two calls for each node, one entering and one leaving; the
    entering calls come in depth-first order, parent first and children
    from left to right, and every leaving call closes the last node entered
    that is still open. *)
Theorem Walk_enters_and_leaves_every_node
        (St : Type) (w : Walker St) (n : Node) (s : St) :
  Walk n w s = fold_left (fun s e => w (fst e) (snd e) s) (calls n) s /\
  length (calls n) = (2 * length (nodes n))%nat /\
  map (fun e => data (fst e)) (filter snd (calls n)) = nodes n /\
  nested 0%nat (calls n) = true.
Proof.
  split; [apply Walk_calls|]. split; [apply length_calls|].
  split; [apply entering_calls|].
  rewrite <- (app_nil_r (calls n)). rewrite nested_calls. reflexivity.
Qed.

Section Debugging.

Variable quote : bytes -> bytes.

Local Abbreviation blank := (bytes_of_string " ").

Lemma Debug_walker_enter (d : NodeData) (cs : list Node) (s : debug_state) :
  d <> rootNode ->
  Debug_walker quote (Tree d cs) true s
  = DebugState false
               (sb s ++ (if noSpace s then [] else blank)
                   ++ bytes_of_string "[" ++ Debug_switch quote d).
Proof.
  intros Hd. destruct s as [[] out];
    destruct d; try congruence; unfold Debug_walker;
      cbn [data noSpace sb Debug_switch app]; rewrite <- ?app_assoc; reflexivity.
Qed.

Lemma Debug_walker_leave (n : Node) (s : debug_state) :
  Debug_walker quote n false s
  = DebugState (noSpace s) (sb s ++ bytes_of_string "]").
Proof. reflexivity. Qed.

Lemma Debug_walker_root (cs : list Node) :
  Debug_walker quote (Tree rootNode cs) true (DebugState true [])
  = DebugState true (bytes_of_string "[").
Proof. reflexivity. Qed.

Lemma Walk_Debug (n : Node) :
  Forall (fun d => d <> rootNode) (nodes n) ->
  forall s,
    Walk n (Debug_walker quote) s
    = DebugState false
                 (sb s ++ (if noSpace s then [] else blank) ++ render quote n).
Proof.
  induction n as [d cs IH] using Node_induction. intros Hn s.
  cbn [nodes] in Hn. inversion Hn as [|? ? Hd Hcs]; subst.
  cbn [Walk render]. rewrite Debug_walker_enter by exact Hd.
  set (s0 := DebugState false _).
  assert (E : fold_left (fun s c => Walk c (Debug_walker quote) s) cs s0
              = DebugState false
                           (sb s0 ++ flat_map (fun c => blank ++ render quote c) cs)).
  { assert (H0 : noSpace s0 = false) by reflexivity.
    clearbody s0. clear Hn Hd. revert s0 H0.
    induction IH as [|c cs' Hc _ IHcs]; intros s0 H0.
    - cbn [fold_left flat_map]. rewrite app_nil_r. destruct s0. cbn in *. congruence.
    - cbn [fold_left flat_map]. cbn [flat_map] in Hcs.
      apply Forall_app in Hcs as [Hc1 Hc2].
      rewrite (Hc Hc1), H0. rewrite (IHcs Hc2) by reflexivity.
      cbn [sb]. rewrite <- !app_assoc. reflexivity. }
  rewrite E, Debug_walker_leave. subst s0. cbn [noSpace sb].
  rewrite <- !app_assoc. reflexivity.
Qed.

Lemma Debug_root (kids : list Node) :
  Forall (fun d => d <> rootNode) (flat_map nodes kids) ->
  Debug quote (Tree rootNode kids)
  = bytes_of_string "[" ++ render_kids quote kids ++ bytes_of_string "]".
Proof.
  intros Hk. unfold Debug. cbn [Walk].
  rewrite Debug_walker_root, Debug_walker_leave.
  destruct kids as [|c cs]; [reflexivity|].
  cbn [fold_left flat_map render_kids] in *.
  apply Forall_app in Hk as [Hc Hcs].
  rewrite (Walk_Debug c Hc). cbn [noSpace sb app].
  set (s0 := DebugState false _).
  assert (E : fold_left (fun s c => Walk c (Debug_walker quote) s) cs s0
              = DebugState false
                           (sb s0 ++ flat_map (fun c => blank ++ render quote c) cs)).
  { assert (H0 : noSpace s0 = false) by reflexivity.
    clearbody s0. revert s0 H0.
    induction cs as [|c' cs' IHcs]; intros s0 H0.
    - cbn [fold_left flat_map]. rewrite app_nil_r. destruct s0. cbn in *. congruence.
    - cbn [fold_left flat_map]. cbn [flat_map] in Hcs.
      apply Forall_app in Hcs as [Hc1 Hc2].
      rewrite (Walk_Debug c' Hc1), H0. rewrite (IHcs Hc2) by reflexivity.
      cbn [sb]. rewrite <- !app_assoc. reflexivity. }
  rewrite E. subst s0. cbn [noSpace sb].
  rewrite <- !app_assoc. reflexivity.
Qed.

End Debugging.

(** X10: [Debug] of a tree [Parse] returns is an opening bracket, the
    renderings of the children of the root with one blank between two, and
    a closing bracket; the rendering of a node is its label in brackets,
    followed inside the brackets by the renderings of its children, each
    after a blank. This holds for every way [%q] prints a string. *)
Theorem Debug_of_a_parsed_message
        (quote : bytes -> bytes) (options : option ParserOptions) (source : bytes)
        (fuel : nat) (root : Node) :
  Parse fuel (NewParser options) source = Returned root ->
  exists kids,
    root = Tree rootNode kids /\
    Debug quote root
    = bytes_of_string "[" ++ render_kids quote kids ++ bytes_of_string "]".
Proof.
  intros H. apply Parse_nodes in H as (kids & -> & Hk).
  exists kids. split; [reflexivity|]. apply Debug_root.
  eapply Forall_impl; [|exact Hk]. intros d Hd.
  apply (produced_gates options source d Hd).
Qed.

Lemma Debug_of_a_parsed_message_witness :
  let quote := fun c : bytes => DQUOTE :: c ++ [DQUOTE] in
  exists root,
    Parse 8 (NewParser None) (bytes_of_string "**a** b") = Returned root /\
    exists kids,
      root = Tree rootNode kids /\
      Debug quote root
      = bytes_of_string "[" ++ render_kids quote kids ++ bytes_of_string "]".
Proof.
  intros quote. eexists. split; [vm_compute; reflexivity|].
  apply (Debug_of_a_parsed_message quote None (bytes_of_string "**a** b") 8).
  vm_compute. reflexivity.
Defined.

(** * Groups within groups *)

Lemma check_no_req (r : Regexp) :
  forall p q, 0 <= p -> 0 <= q ->
              check no_req p r = true -> check no_req q r = true.
Proof.
  induction r; intros p q Hp Hq H; cbn [check] in *; auto.
  - apply andb_prop in H as [H1 H2]. pose proof (min_len_nonneg r1).
    rewrite (IHr1 p q), (IHr2 (p + min_len r1) (q + min_len r1)); auto; lia.
  - apply andb_prop in H as [H1 H2]. rewrite (IHr1 p q), (IHr2 p q); auto.
  - eauto.
  - apply andb_prop in H as [H H4]. apply andb_prop in H as [H H3].
    apply andb_prop in H as [H1 H2].
    rewrite H1, H3, (IHr p q) by auto. cbn [no_req fst].
    assert (E : (0 <=? q) = true) by (apply Z.leb_le; lia).
    rewrite E. reflexivity.
Qed.

Section Nesting.

Variables j k : nat.
Hypothesis Hj : (1 <= j)%nat.
Hypothesis Hk : (1 <= k)%nat.

Lemma cap_hi_set_cap_other (i : nat) (a : Z) (st : mstate) :
  (1 <= i)%nat -> i <> j ->
  cap_hi (m_caps (set_cap i a st)) j = cap_hi (m_caps st) j.
Proof.
  intros Hi Hne. unfold set_cap, cap_hi. cbn [m_caps].
  rewrite !nth_set_nth.
  assert (E1 : Nat.eqb (2 * j - 1) (2 * i - 1) = false) by (apply Nat.eqb_neq; lia).
  assert (E2 : Nat.eqb (2 * j - 1) (2 * i - 2) = false) by (apply Nat.eqb_neq; lia).
  rewrite E1, E2. reflexivity.
Qed.

Lemma cap_hi_set_cap_same (a : Z) (st : mstate) :
  (2 * k <= length (m_caps st))%nat ->
  cap_hi (m_caps (set_cap k a st)) k = m_pos st.
Proof.
  intros Hr. unfold set_cap, cap_hi. cbn [m_caps].
  rewrite nth_set_nth, length_set_nth, Nat.eqb_refl.
  assert (L : Nat.ltb (2 * k - 1) (length (m_caps st)) = true)
    by (apply Nat.ltb_lt; lia).
  rewrite L. reflexivity.
Qed.

Local Abbreviation nest_inv := (nest_inv j k).

Lemma caps_ok_hi (pos : Z) (c : list Z) (i : nat) :
  0 <= pos -> (1 <= i)%nat -> caps_ok no_req 0 pos c -> cap_hi c i <= pos.
Proof.
  intros Hp Hi H. destruct (H i Hi) as [[_ ->]|(_ & _ & ?)]; lia.
Qed.

Lemma run_inside (r : Regexp) :
  forall st st',
    inside j k r = true -> check no_req 0 r = true ->
    nest_inv st -> In st' (run r st) -> nest_inv st'.
Proof.
  induction r; intros st st' Hi Hc Hinv H;
    pose proof Hinv as (Hp & Hev & Hr & Hok & Hle);
    cbn [run inside check] in *;
    try (apply take_spec in H as (c0 & w & _ & _ & W & ->);
         unfold nest_inv; cbn [m_pos m_caps];
         split; [lia|]; split; [exact Hev|]; split; [exact Hr|];
         split; [eapply caps_ok_mono; [|eassumption]; lia|exact Hle]).
  - destruct H as [<-|[]]. exact Hinv.
  - destruct (m_pos st =? 0); [|contradiction]. destruct H as [<-|[]].
    exact Hinv.
  - destruct (m_rest st); [|contradiction]. destruct H as [<-|[]].
    exact Hinv.
  - destruct (at_word_boundary st); [|contradiction]. destruct H as [<-|[]].
    exact Hinv.
  - apply andb_prop in Hi as [Hi1 Hi2]. apply andb_prop in Hc as [Hc1 Hc2].
    apply in_flat_map in H as (st1 & H1 & H2).
    pose proof (min_len_nonneg r1).
    eapply IHr2; [exact Hi2| | |exact H2].
    + apply (check_no_req r2 (0 + min_len r1) 0); auto; lia.
    + eapply IHr1; eauto.
  - apply andb_prop in Hi as [Hi1 Hi2]. apply andb_prop in Hc as [Hc1 Hc2].
    apply in_app_or in H as [H|H]; [eapply IHr1|eapply IHr2]; eauto.
  - refine (star_loop_ind (fun a b => nest_inv a -> nest_inv b)
                          (run r) _ _ _ _ _ _ H Hinv);
      clear st st' Hinv Hp Hev Hr Hok Hle H.
    + auto.
    + intros a b c Hb _ Hbc Ha. apply Hbc. eapply IHr; eauto.
  - apply andb_prop in Hc as [Hc Hc4]. apply andb_prop in Hc as [Hc Hc3].
    apply andb_prop in Hc as [Hc1 Hc2]. apply Nat.leb_le in Hc1.
    apply in_map_iff in H as (st1 & <- & H1).
    pose proof (run_reads _ _ _ H1) as (R1 & R2 & R3).
    pose proof (min_len_nonneg r).
    assert (Hok' : caps_ok no_req 0 (m_pos st1) (m_caps (set_cap k0 (m_pos st) st1))).
    { change (m_pos st1) with (m_pos (set_cap k0 (m_pos st) st1)).
      eapply (run_caps_ok no_req 0 (Cap k0 r) 0 st);
        [cbn [check]; rewrite Hc4, Hc3, Hc2; apply Nat.leb_le in Hc1; rewrite Hc1;
         reflexivity|lia|exact Hev|exact Hok|].
      cbn [run]. apply in_map. exact H1. }
    assert (Hlen : length (m_caps (set_cap k0 (m_pos st) st1)) = length (m_caps st)).
    { unfold set_cap. cbn [m_caps]. rewrite !length_set_nth. exact R3. }
    unfold nest_inv. rewrite Hlen.
    change (m_pos (set_cap k0 (m_pos st) st1)) with (m_pos st1).
    split; [lia|]. split; [exact Hev|]. split; [exact Hr|]. split; [exact Hok'|].
    destruct (Nat.eqb k0 k) eqn:E.
    + apply Nat.eqb_eq in E. subst k0.
      rewrite cap_hi_set_cap_same by (rewrite R3; exact Hr).
      apply caps_ok_hi; auto. lia.
    + apply andb_prop in Hi as [Hne Hi]. apply negb_true_iff in Hne.
      apply Nat.eqb_neq in E, Hne.
      assert (Hin : nest_inv st1) by (eapply IHr; eauto).
      destruct Hin as (_ & _ & _ & _ & Hle1).
      rewrite cap_hi_set_cap_other by auto.
      unfold set_cap, cap_hi. cbn [m_caps]. rewrite !nth_set_nth.
      assert (E1 : Nat.eqb (2 * k - 1) (2 * k0 - 1) = false) by (apply Nat.eqb_neq; lia).
      assert (E2 : Nat.eqb (2 * k - 1) (2 * k0 - 2) = false) by (apply Nat.eqb_neq; lia).
      rewrite E1, E2. exact Hle1.
Qed.

(** In a match, a group that occurs within another one ends before it. *)
Lemma Find_inside (r : Regexp) (s : bytes) (g : list Z) :
  inside j k r = true -> check no_req 0 r = true ->
  (j <= num_caps r)%nat -> (k <= num_caps r)%nat ->
  FindStringSubmatchIndex r s = Some g ->
  m_end (Match s g) j <= m_end (Match s g) k.
Proof.
  intros Hi Hc Hjn Hkn H. unfold FindStringSubmatchIndex in H.
  apply search_spec in H as (st0 & st' & R & C & Hin & ->).
  destruct R as (R1 & R2 & R3). cbn [m_pos m_rest m_caps] in *.
  assert (H0 : nest_inv st0).
  { unfold nest_inv. rewrite C, repeat_length. split; [lia|].
    split; [rewrite Nat.even_mul; reflexivity|]. split; [lia|]. split.
    - intros i Hi1. left. unfold cap_lo, cap_hi. split; apply nth_repeat.
    - unfold cap_hi. rewrite !nth_repeat. lia. }
  destruct (run_inside r st0 st' Hi Hc H0 Hin) as (_ & _ & _ & _ & Hle).
  pose proof (run_reads _ _ _ Hin) as (_ & _ & Q3).
  assert (Hlen : length (m_caps st') = (2 * num_caps r)%nat)
    by (rewrite Q3, C; apply repeat_length).
  unfold m_end, cap_hi in *. cbn [groups].
  replace (j * 2 + 1)%nat with (S (S (2 * j - 1))) by lia.
  replace (k * 2 + 1)%nat with (S (S (2 * k - 1))) by lia.
  cbn [nth].
  rewrite (nth_indep _ 0 (-1)) by lia.
  rewrite (nth_indep _ 0 (-1)) by lia.
  exact Hle.
Qed.

End Nesting.

(** * Groups that a match leaves unset *)

Section Unmentioned.

Variable k : nat.
Hypothesis Hk : (1 <= k)%nat.

Lemma cap_set_cap_other (i : nat) (a : Z) (st : mstate) :
  (1 <= i)%nat -> i <> k ->
  cap_lo (m_caps (set_cap i a st)) k = cap_lo (m_caps st) k /\
  cap_hi (m_caps (set_cap i a st)) k = cap_hi (m_caps st) k.
Proof.
  intros Hi Hne. unfold set_cap, cap_lo, cap_hi. cbn [m_caps].
  rewrite !nth_set_nth.
  assert (E1 : Nat.eqb (2 * k - 1) (2 * i - 1) = false) by (apply Nat.eqb_neq; lia).
  assert (E2 : Nat.eqb (2 * k - 1) (2 * i - 2) = false) by (apply Nat.eqb_neq; lia).
  assert (E3 : Nat.eqb (2 * k - 2) (2 * i - 1) = false) by (apply Nat.eqb_neq; lia).
  assert (E4 : Nat.eqb (2 * k - 2) (2 * i - 2) = false) by (apply Nat.eqb_neq; lia).
  rewrite E1, E2, E3, E4. auto.
Qed.

(** A group that does not occur in an expression keeps its offsets. *)
Lemma run_unmentioned (r : Regexp) :
  forall st st',
    mentions k r = false -> check no_req 0 r = true -> In st' (run r st) ->
    cap_lo (m_caps st') k = cap_lo (m_caps st) k /\
    cap_hi (m_caps st') k = cap_hi (m_caps st) k.
Proof.
  induction r; intros st st' Hm Hc H; cbn [run mentions check] in *;
    try (apply take_caps in H; rewrite H; auto).
  - destruct H as [<-|[]]; auto.
  - destruct (m_pos st =? 0); [|contradiction]. destruct H as [<-|[]]; auto.
  - destruct (m_rest st); [|contradiction]. destruct H as [<-|[]]; auto.
  - destruct (at_word_boundary st); [|contradiction]. destruct H as [<-|[]]; auto.
  - apply orb_false_elim in Hm as [Hm1 Hm2]. apply andb_prop in Hc as [Hc1 Hc2].
    apply in_flat_map in H as (st1 & H1 & H2).
    pose proof (min_len_nonneg r1).
    assert (Hc2' : check no_req 0 r2 = true)
      by (apply (check_no_req r2 (0 + min_len r1) 0); auto; lia).
    destruct (IHr1 _ _ Hm1 Hc1 H1) as [A1 A2].
    destruct (IHr2 _ _ Hm2 Hc2' H2) as [B1 B2]. split; congruence.
  - apply orb_false_elim in Hm as [Hm1 Hm2]. apply andb_prop in Hc as [Hc1 Hc2].
    apply in_app_or in H as [H|H]; eauto.
  - refine (star_loop_ind
              (fun a b => cap_lo (m_caps b) k = cap_lo (m_caps a) k /\
                          cap_hi (m_caps b) k = cap_hi (m_caps a) k)
              (run r) _ _ _ _ _ _ H); clear st st' H.
    + auto.
    + intros a b c Hb _ [C1 C2]. destruct (IHr _ _ Hm Hc Hb) as [B1 B2].
      split; congruence.
  - apply orb_false_elim in Hm as [Hm1 Hm2]. apply Nat.eqb_neq in Hm1.
    apply andb_prop in Hc as [Hc Hc4]. apply andb_prop in Hc as [Hc _].
    apply andb_prop in Hc as [Hc1 _]. apply Nat.leb_le in Hc1.
    apply in_map_iff in H as (st1 & <- & H1).
    destruct (IHr _ _ Hm2 Hc4 H1) as [A1 A2].
    destruct (cap_set_cap_other k0 (m_pos st) st1 Hc1 Hm1) as [B1 B2].
    split; congruence.
Qed.

End Unmentioned.

(** The offsets of a group in a match. *)
Lemma Find_caps (r : Regexp) (s : bytes) (g : list Z) (k : nat) :
  check no_req 0 r = true ->
  FindStringSubmatchIndex r s = Some g ->
  (1 <= k <= num_caps r)%nat ->
  let m := Match s g in
  (m_start m k = -1 /\ m_end m k = -1) \/
  (0 <= m_start m k /\ m_start m k <= m_end m k /\ m_end m k <= nth 1 g 0).
Proof.
  intros Hc H Hk m.
  destruct (Find_ok no_req [] r s g Hc (or_introl eq_refl) H) as [_ _ _ C _].
  specialize (C k Hk). unfold m, m_start, m_end. cbn [groups no_req fst snd] in *.
  destruct C as [C|C]; [left; exact C|right; lia].
Qed.

(** A match of an alternation leaves the groups of one side unset. *)
Lemma Find_Alt (r1 r2 : Regexp) (s : bytes) (g : list Z) :
  check no_req 0 (Alt r1 r2) = true ->
  FindStringSubmatchIndex (Alt r1 r2) s = Some g ->
  let m := Match s g in
  (forall k, (1 <= k <= num_caps (Alt r1 r2))%nat -> mentions k r1 = false ->
             m_start m k = -1 /\ m_end m k = -1) \/
  (forall k, (1 <= k <= num_caps (Alt r1 r2))%nat -> mentions k r2 = false ->
             m_start m k = -1 /\ m_end m k = -1).
Proof.
  intros Hc H m. unfold FindStringSubmatchIndex in H.
  apply search_spec in H as (st0 & st' & R & C & Hin & ->).
  cbn [m_caps] in C. cbn [check] in Hc. apply andb_prop in Hc as [Hc1 Hc2].
  pose proof (run_reads _ _ _ Hin) as (_ & _ & Q3).
  assert (Hlen : length (m_caps st') = (2 * num_caps (Alt r1 r2))%nat)
    by (rewrite Q3, C; apply repeat_length).
  assert (G : forall k, (1 <= k <= num_caps (Alt r1 r2))%nat ->
                        m_start m k = cap_lo (m_caps st') k /\
                        m_end m k = cap_hi (m_caps st') k).
  { intros k Hk. unfold m, m_start, m_end, cap_lo, cap_hi. cbn [groups].
    replace (k * 2)%nat with (S (S (2 * k - 2))) by lia.
    replace (S (S (2 * k - 2)) + 1)%nat with (S (S (2 * k - 1))) by lia.
    cbn [nth]. split; apply nth_indep; lia. }
  assert (I : forall k, cap_lo (m_caps st0) k = -1 /\ cap_hi (m_caps st0) k = -1).
  { intros k. rewrite C. unfold cap_lo, cap_hi. split; apply nth_repeat. }
  cbn [run] in Hin. apply in_app_or in Hin as [Hin|Hin]; [left|right];
    intros k Hk Hm; destruct (G k Hk) as [-> ->]; destruct (I k) as [I1 I2].
  - destruct (run_unmentioned k ltac:(lia) r1 _ _ Hm Hc1 Hin) as [-> ->]. auto.
  - destruct (run_unmentioned k ltac:(lia) r2 _ _ Hm Hc2 Hin) as [-> ->]. auto.
Qed.

(** * The child span lies within the match *)

Section ChildBound.

Lemma group_unset (m : match_) (k : nat) : m_start m k = -1 -> group m k = [].
Proof. unfold group. intros ->. reflexivity. Qed.

Lemma no_span_child_bound (r : rule) :
  (forall m ps, parser r m = Some ps -> start ps = 0) -> child_bound r.
Proof. intros H s g ps _ Hps C _. rewrite (H _ _ Hps) in C. lia. Qed.

Ltac caps H k :=
  match type of H with
  | FindStringSubmatchIndex ?r ?s = Some ?g =>
    let C := fresh "C" in
    pose proof (Find_caps r s g k ltac:(vm_compute; reflexivity) H
                          ltac:(vm_compute; lia)) as C;
    cbv zeta in C
  end.

Ltac within_group H j k :=
  match type of H with
  | FindStringSubmatchIndex ?r ?s = Some ?g =>
    let I := fresh "I" in
    pose proof (Find_inside j k ltac:(lia) ltac:(lia) r s g
                            ltac:(vm_compute; reflexivity)
                            ltac:(vm_compute; reflexivity)
                            ltac:(vm_compute; lia) ltac:(vm_compute; lia) H) as I
  end.

Ltac open_spec Hps :=
  cbn [parser] in Hps; injection Hps as <-;
  unfold effective_end in *; cbn [start end_ matchEnd] in *;
  change (0 =? 0) with true in *; cbv iota in *.

Ltac by_cases :=
  repeat match goal with
         | H : context [if ?b then _ else _] |- _ => destruct b eqn:?
         | |- context [if ?b then _ else _] => destruct b eqn:?
         end; lia.

Lemma ruleBlockQuote_bound : child_bound ruleBlockQuote.
Proof.
  intros s g ps H Hps C He. unfold ruleBlockQuote in *. cbn [pattern] in H.
  caps H 1%nat. caps H 2%nat. open_spec Hps. by_cases.
Qed.

Lemma ruleSpoiler_bound : child_bound ruleSpoiler.
Proof.
  intros s g ps H Hps C He. unfold ruleSpoiler in *. cbn [pattern] in H.
  caps H 1%nat. open_spec Hps. by_cases.
Qed.

Lemma ruleStrikethrough_bound : child_bound ruleStrikethrough.
Proof.
  intros s g ps H Hps C He. unfold ruleStrikethrough in *. cbn [pattern] in H.
  caps H 1%nat. open_spec Hps. by_cases.
Qed.

Lemma ruleListItem_bound : child_bound ruleListItem.
Proof.
  intros s g ps H Hps C He. unfold ruleListItem in *. cbn [pattern] in H.
  caps H 2%nat. open_spec Hps. by_cases.
Qed.

Lemma ruleHeaderItem_bound : child_bound ruleHeaderItem.
Proof.
  intros s g ps H Hps C He. unfold ruleHeaderItem in *. cbn [pattern] in H.
  caps H 3%nat. within_group H 3%nat 1%nat. open_spec Hps. by_cases.
Qed.

Lemma ruleBold_bound : child_bound ruleBold.
Proof.
  intros s g ps H Hps C He. unfold ruleBold in *. cbn [pattern] in H.
  caps H 2%nat. within_group H 2%nat 1%nat. open_spec Hps. by_cases.
Qed.

Lemma ruleUnderline_bound : child_bound ruleUnderline.
Proof.
  intros s g ps H Hps C He. unfold ruleUnderline in *. cbn [pattern] in H.
  caps H 2%nat. within_group H 2%nat 1%nat. open_spec Hps. by_cases.
Qed.

Lemma ruleItalics_bound : child_bound ruleItalics.
Proof.
  intros s g ps H Hps C He. unfold ruleItalics in *. cbn [pattern] in H.
  caps H 2%nat. caps H 4%nat.
  within_group H 2%nat 1%nat. within_group H 4%nat 3%nat.
  unfold patternItalics in H.
  match type of H with
  | FindStringSubmatchIndex (Alt ?r1 ?r2) _ = _ =>
    pose proof (Find_Alt r1 r2 s g ltac:(vm_compute; reflexivity) H) as A
  end.
  cbv zeta in A.
  set (m := Match s g) in *.
  destruct A as [A|A].
  - destruct (A 3%nat ltac:(vm_compute; lia) eq_refl) as [A3 _].
    destruct (A 4%nat ltac:(vm_compute; lia) eq_refl) as [A4 _].
    cbn [parser] in Hps.
    rewrite (group_unset m 3 A3), (group_unset m 4 A4) in Hps.
    change (0 <? len []) with false in Hps. cbv iota in Hps.
    injection Hps as <-. unfold effective_end in *. cbn [start end_ matchEnd] in *.
    by_cases.
  - destruct (A 1%nat ltac:(vm_compute; lia) eq_refl) as [_ A1].
    destruct (A 2%nat ltac:(vm_compute; lia) eq_refl) as [A2 _].
    cbn [parser] in Hps. injection Hps as <-.
    unfold effective_end in *. cbn [start end_ matchEnd] in *.
    by_cases.
Qed.

End ChildBound.

(** Every rule of every table keeps the child span within the match. *)
Lemma NewParser_child_in_match (options : option ParserOptions) (r : rule)
      (s : bytes) (g : list Z) (ps : parseSpec NodeData) :
  In r (rules (NewParser options)) ->
  FindStringSubmatchIndex (pattern r) s = Some g ->
  parser r (Match s g) = Some ps ->
  child_in_match ps g.
Proof.
  intros Hin Hf Hps.
  destruct (NewParser_rules_ok options r Hin s g Hf) as (ps' & Hps' & He1 & _ & Hchild).
  rewrite Hps in Hps'. injection Hps' as <-.
  destruct Hchild as [C|[C|(C1 & C2 & _)]]; [left; exact C|right; left; exact C|].
  right. right. split; [exact C1|]. split; [exact C2|].
  assert (Hb : child_bound r); [|exact (Hb s g ps Hf Hps C1 He1)].
  clear - Hin. apply In_NewParser_rules in Hin. unfold optional_rules, fixed_rules in Hin.
  destruct (EnableBlockQuote _), (EnableMaskedLinks _), (EnableMentions _),
    (EnableForumMarkdown _); cbn [app In] in Hin; in_cases Hin;
    auto using ruleBlockQuote_bound, ruleSpoiler_bound, ruleStrikethrough_bound,
      ruleListItem_bound, ruleHeaderItem_bound, ruleBold_bound, ruleUnderline_bound,
      ruleItalics_bound;
    apply no_span_child_bound; intros m ps Hps; open_rule Hps; reflexivity.
Qed.

(** * A linear bound *)

Section Linear.

Variable options : option ParserOptions.
Variable source : bytes.

Local Abbreviation p := (NewParser options).

Lemma pending_cons (sp : parseSpec ptr) (l : list (parseSpec ptr)) :
  pending (sp :: l) = (span_len sp + pending l)%nat.
Proof. reflexivity. Qed.

Lemma pending_app (l1 l2 : list (parseSpec ptr)) :
  pending (l1 ++ l2) = (pending l1 + pending l2)%nat.
Proof.
  induction l1 as [|x l1 IH]; [reflexivity|].
  cbn [app]. rewrite !pending_cons, IH. lia.
Qed.

(** An iteration creates one node and leaves fewer bytes pending. *)
Lemma Parse_iter_linear (st st' : pstate) :
  Forall (span_ok source) (remainingParses st) ->
  Parse_iter p source st = Next st' ->
  (pending (remainingParses st') < pending (remainingParses st))%nat /\
  length (heap st') = S (length (heap st)).
Proof.
  intros Hok Hstep.
  destruct (Parse_iter_facts options source st st' Hok Hstep)
    as (builder & remaining & w & rule & g & ps & Hst & (Hb0 & Hb1 & Hb2) & Hw
        & Hlen & Hsel & Hin & [Hskip Hfind] & Hps & [He1 He2] & _ & Hpush).
  pose proof (NewParser_child_in_match options rule w g ps Hin Hfind Hps) as Hchild.
  apply Parse_push_Next in Hpush as (_ & Hheap & _ & Hstack).
  cbv zeta in Hheap, Hstack. split.
  - rewrite Hstack, Hst, !pending_app, pending_cons.
    set (me := effective_end ps g) in *.
    set (kid := ParseSpec (length (heap st)) me (start ps + start builder)
                          (end_ ps + start builder)).
    set (sib := ParseSpec (node builder) 0 (me + start builder) (end_ builder)).
    assert (K : (span_len kid <= Z.to_nat (me - 1))%nat).
    { unfold span_len, kid. cbn [start end_].
      destruct Hchild as [[C1 C2]|[[C1 C2]|(C1 & C2 & C3)]]; lia. }
    assert (S : (span_len sib <= Z.to_nat (end_ builder - start builder - me))%nat).
    { unfold span_len, sib. cbn [start end_]. lia. }
    assert (B : span_len builder = Z.to_nat (end_ builder - start builder))
      by reflexivity.
    destruct (negb _ || negb _), (_ =? end_ builder);
      cbn [pending map list_sum fold_right]; lia.
  - rewrite Hheap, length_addChild, length_app. cbn [length]. lia.
Qed.

Lemma Parse_loop_linear :
  forall fuel st,
    Forall (span_ok source) (remainingParses st) ->
    (pending (remainingParses st) < fuel)%nat ->
    exists h, Parse_loop fuel p source st = Some (Some h).
Proof.
  induction fuel as [|fuel IH]; intros st Hok Hfuel; [lia|].
  cbn [Parse_loop].
  pose proof (Parse_iter_progress options source st Hok) as P.
  destruct (Parse_iter p source st) as [st'|h|] eqn:E.
  - destruct P as [P1 _]. apply IH; auto.
    destruct (Parse_iter_linear st st' Hok E) as [L _]. lia.
  - eauto.
  - contradiction.
Qed.

Lemma Parse_steps_linear :
  forall n st st',
    Forall (span_ok source) (remainingParses st) ->
    Parse_steps n p source st = Next st' ->
    (pending (remainingParses st') + n <= pending (remainingParses st))%nat /\
    length (heap st') = (length (heap st) + n)%nat.
Proof.
  induction n as [|n IH]; intros st st' Hok H; cbn [Parse_steps] in H.
  - injection H as <-. lia.
  - pose proof (Parse_iter_progress options source st Hok) as P.
    destruct (Parse_iter p source st) as [st1|h|] eqn:E; try discriminate.
    destruct P as [P1 _].
    destruct (Parse_iter_linear st st1 Hok E) as [L1 L2].
    destruct (IH st1 st' P1 H) as [M1 M2]. lia.
Qed.

Lemma pending_init : pending (remainingParses (Parse_init source)) = length source.
Proof.
  unfold Parse_init. cbn [remainingParses].
  destruct (0 <? len source) eqn:E.
  - unfold pending, span_len. cbn [map list_sum fold_right start end_].
    unfold len. lia.
  - apply Z.ltb_ge in E. unfold len in E. cbn. lia.
Qed.

End Linear.

(** X11: the loop of [Parse] creates one node in each iteration and runs
    [len(source)] times at most: with room for one iteration more than the
    source has bytes [Parse] returns, and after [n] iterations [n] is at
    most the length of the source and the store holds the root and [n]
    nodes. *)
Theorem Parse_makes_one_node_per_byte_at_most
        (options : option ParserOptions) (source : bytes) (fuel : nat) :
  (length source < fuel)%nat ->
  (exists root, Parse fuel (NewParser options) source = Returned root) /\
  (forall n st,
      Parse_steps n (NewParser options) source (Parse_init source) = Next st ->
      (n <= length source)%nat /\ length (heap st) = S n).
Proof.
  intros Hfuel.
  assert (Hok : Forall (span_ok source) (remainingParses (Parse_init source)))
    by apply (reachable_inv options source _ (reach_init _ source)).
  split.
  - unfold Parse.
    destruct (Parse_loop_linear options source fuel (Parse_init source) Hok)
      as [h ->]; [rewrite pending_init; exact Hfuel|].
    eexists. reflexivity.
  - intros n st H.
    destruct (Parse_steps_linear options source n _ st Hok H) as [L1 L2].
    rewrite pending_init in L1. cbn [Parse_init heap length] in L2. lia.
Qed.

Lemma Parse_makes_one_node_per_byte_at_most_witness :
  (length (bytes_of_string "**a** _b_") < 10)%nat /\
  (exists root,
      Parse 10 (NewParser None) (bytes_of_string "**a** _b_") = Returned root) /\
  (forall n st,
      Parse_steps n (NewParser None) (bytes_of_string "**a** _b_")
                  (Parse_init (bytes_of_string "**a** _b_")) = Next st ->
      (n <= length (bytes_of_string "**a** _b_"))%nat /\ length (heap st) = S n).
Proof.
  split; [apply Nat.ltb_lt; reflexivity|].
  apply (Parse_makes_one_node_per_byte_at_most None (bytes_of_string "**a** _b_") 10).
  apply Nat.ltb_lt. reflexivity.
Defined.

(** * The bounds of [match.group] *)

Lemma In_all_rules (options : option ParserOptions) (r : rule) :
  In r (rules (NewParser options)) -> In r all_rules.
Proof.
  intros H. apply In_NewParser_rules in H. unfold all_rules.
  apply in_app_or in H as [H|H]; apply in_or_app; [left; exact H|right].
  unfold optional_rules in *.
  cbn [EnableBlockQuote EnableMaskedLinks EnableMentions EnableForumMarkdown app].
  destruct (EnableBlockQuote (effective options)),
    (EnableMaskedLinks (effective options)), (EnableMentions (effective options)),
    (EnableForumMarkdown (effective options)); cbn [app In] in *; tauto.
Qed.

Lemma all_rules_check :
  forallb (fun r => check no_req 0 (pattern r)) all_rules = true.
Proof. vm_compute. reflexivity. Qed.

Lemma slice_substr (s : bytes) (a b : Z) :
  0 <= a -> a <= b -> b <= len s -> slice s a b = Some (substr s a b).
Proof.
  intros. unfold slice.
  assert (E : (0 <=? a) && (a <=? b) && (b <=? len s) = true)
    by (rewrite !andb_true_iff, !Z.leb_le; lia).
  rewrite E. reflexivity.
Qed.

(** X12: for a match of the pattern of a rule of the table and a group
    [i] of that pattern (0 for the whole match), [match.group(i)] does not
    panic, neither on the index nor on the slice: the group is unset and
    the result is the empty string, or its offsets are ordered and lie
    within the window. *)
Theorem group_is_in_bounds
        (options : option ParserOptions) (r : rule) (w : bytes) (g : list Z) (i : nat) :
  In r (rules (NewParser options)) ->
  FindStringSubmatchIndex (pattern r) w = Some g ->
  (i <= num_caps (pattern r))%nat ->
  let m := Match w g in
  group_go m i = Some (group m i) /\
  (m_start m i = -1 \/ 0 <= m_start m i <= m_end m i /\ m_end m i <= len w).
Proof.
  intros Hin Hf Hi m. subst m.
  assert (Hc : check no_req 0 (pattern r) = true).
  { pose proof all_rules_check as A. rewrite forallb_forall in A.
    apply A. eapply In_all_rules; eauto. }
  destruct (Find_ok no_req [] _ _ _ Hc (or_introl eq_refl) Hf) as [L S0 [E1 E2] _ _].
  pose proof (min_len_nonneg (pattern r)) as Hmin.
  set (m := Match w g).
  assert (N1 : nth_error g (i * 2) = Some (m_start m i)).
  { unfold m, m_start. cbn [groups]. apply nth_error_nth'. lia. }
  assert (N2 : nth_error g (i * 2 + 1) = Some (m_end m i)).
  { unfold m, m_end. cbn [groups]. apply nth_error_nth'. lia. }
  assert (B : m_start m i = -1 /\ m_end m i = -1 \/
              0 <= m_start m i <= m_end m i /\ m_end m i <= len w).
  { destruct i as [|i].
    - right. unfold m, m_start, m_end. cbn [groups Nat.mul Nat.add]. lia.
    - destruct (Find_caps _ _ _ (S i) Hc Hf ltac:(lia)) as [C|C]; [left; exact C|].
      right. fold m in C. lia. }
  split.
  - unfold group_go, group.
    change (groups m) with g. change (m_match m) with w. rewrite N1.
    cbv zeta.
    destruct (m_start m i =? -1) eqn:E; [reflexivity|].
    apply Z.eqb_neq in E. rewrite N2.
    destruct B as [[B _]|[B1 B2]]; [contradiction|].
    apply slice_substr; lia.
  - destruct B as [[B _]|B]; [left; exact B|right; exact B].
Qed.

Lemma group_is_in_bounds_witness :
  let w := bytes_of_string "<:smile:1>" in
  let g := [0; 10; -1; -1; 2; 7; 8; 9] in
  In ruleCustomEmoji (rules (NewParser None)) /\
  FindStringSubmatchIndex (pattern ruleCustomEmoji) w = Some g /\
  (1 <= num_caps (pattern ruleCustomEmoji))%nat /\
  group_go (Match w g) 1 = Some (group (Match w g) 1) /\
  (m_start (Match w g) 1 = -1 \/
   0 <= m_start (Match w g) 1 <= m_end (Match w g) 1 /\
   m_end (Match w g) 1 <= len w).
Proof.
  intros w g.
  assert (H1 : In ruleCustomEmoji (rules (NewParser None))) by (cbn; auto 20).
  assert (H2 : FindStringSubmatchIndex (pattern ruleCustomEmoji) w = Some g)
    by (vm_compute; reflexivity).
  assert (H3 : (1 <= num_caps (pattern ruleCustomEmoji))%nat)
    by (apply Nat.leb_le; reflexivity).
  split; [exact H1|]. split; [exact H2|]. split; [exact H3|].
  exact (group_is_in_bounds None ruleCustomEmoji w g 1 H1 H2 H3).
Defined.

(** * Plain texts *)

Section Dead.

Variable alphabet : list Z.
Hypothesis Hascii : Forall (fun b => b < 128) alphabet.

Local Abbreviation over st := (Forall (fun b => In b alphabet) (m_rest st)).

Lemma over_suffix (r : Regexp) (st st' : mstate) :
  In st' (run r st) -> over st -> over st'.
Proof.
  intros H Ho. apply run_suffix in H as [pre E]. rewrite E in Ho.
  apply Forall_app in Ho. apply Ho.
Qed.

Lemma take_dead (f : Z -> bool) (st : mstate) :
  (forall b, In b alphabet -> f b = false) -> over st -> take f st = [].
Proof.
  intros Hf Ho. destruct st as [pos prev [|b rest] caps]; [reflexivity|].
  cbn [m_rest] in Ho. inversion Ho as [|? ? Hb _]; subst.
  rewrite Forall_forall in Hascii.
  rewrite take_ascii by (apply Hascii; exact Hb).
  rewrite (Hf b Hb). reflexivity.
Qed.

Lemma dead_run (r : Regexp) :
  dead alphabet r = true -> forall st, over st -> run r st = [].
Proof.
  induction r; cbn [dead]; intros Hd st Ho; try discriminate; cbn [run].
  - apply take_dead; auto. intros b Hb.
    apply negb_true_iff in Hd. apply Z.eqb_neq. intros ->.
    assert (E : existsb (Z.eqb c) alphabet = true)
      by (apply existsb_exists; exists c; split; [exact Hb|apply Z.eqb_refl]).
    congruence.
  - apply take_dead; auto. intros b Hb.
    rewrite forallb_forall in Hd. apply negb_true_iff. apply Hd. exact Hb.
  - apply take_dead; auto. intros b Hb.
    rewrite forallb_forall in Hd. rewrite (Hd b Hb). reflexivity.
  - destruct alphabet; [|discriminate].
    destruct st as [pos prev [|b rest] caps]; [reflexivity|].
    cbn [m_rest] in Ho. inversion Ho as [|? ? Hb _]; subst. contradiction.
  - apply orb_prop in Hd as [Hd|Hd].
    + rewrite IHr1; auto.
    + apply (run_Cat_all r1 r2). intros st1 H1. apply IHr2; auto.
      eapply over_suffix; eauto.
  - apply andb_prop in Hd as [Hd1 Hd2]. rewrite IHr1, IHr2; auto.
  - rewrite IHr; auto.
Qed.

End Dead.

Section PlainText.

Lemma plain_bytes_ascii : Forall (fun b => b < 128) plain_bytes.
Proof.
  unfold plain_bytes. apply Forall_cons; [lia|].
  apply Forall_forall. intros b Hb. apply in_map_iff in Hb as (n & <- & Hn).
  rewrite !in_app_iff, !in_seq in Hn. lia.
Qed.

Lemma is_plain_In (b : Z) : is_plain b -> In b plain_bytes.
Proof.
  unfold is_plain, is_alnum, within, plain_bytes. intros [H| ->]; [|left; reflexivity].
  right. rewrite !orb_true_iff, !andb_true_iff, !Z.leb_le in H.
  apply in_map_iff. exists (Z.to_nat b). split; [lia|].
  rewrite !in_app_iff, !in_seq. lia.
Qed.

(** The alternatives that end the text of the text rule, but for the end
    of the window. *)
Lemma patternText_eq :
  exists c1 c2 c3 c4,
    patternText
    = Cat Bol (Cat (Cap 1 (Cat any (Star false any)))
                   (Alt c1 (Alt c2 (Alt c3 (Alt c4 Eol))))) /\
    dead plain_bytes c1 = true /\ dead plain_bytes c2 = true /\
    dead plain_bytes c3 = true /\ dead plain_bytes c4 = true.
Proof.
  do 4 eexists. split; [reflexivity|]. repeat split; vm_compute; reflexivity.
Qed.

Lemma flat_map_of_map {A B C : Type} (f : B -> list C) (g : A -> B) (l : list A) :
  flat_map f (map g l) = flat_map (fun x => f (g x)) l.
Proof. induction l as [|x l IH]; cbn; [reflexivity|]. rewrite IH. reflexivity. Qed.

Lemma run_any_plain (pos prev b : Z) (rest : bytes) (caps : list Z) :
  In b plain_bytes ->
  run any (MState pos prev (b :: rest) caps) = [MState (pos + 1) b rest caps].
Proof.
  intros Hb. pose proof plain_bytes_ascii as A. rewrite Forall_forall in A.
  cbn [run any]. rewrite take_ascii by (apply A; exact Hb).
  rewrite any_matches. reflexivity.
Qed.

(** A lazy [[\s\S]*?] followed by something that needs the end of the
    text: the text is read to its end. *)
Lemma lazy_any_to_end (F : mstate -> list mstate) :
  (forall st, m_rest st <> [] -> Forall (fun b => In b plain_bytes) (m_rest st) ->
              F st = []) ->
  forall cs fuel pos prev caps,
    Forall (fun b => In b plain_bytes) cs -> (length cs <= fuel)%nat ->
    flat_map F (star_loop (run any) false fuel (MState pos prev cs caps))
    = F (MState (pos + len cs) (last cs prev) [] caps).
Proof.
  intros HF. induction cs as [|b cs IH]; intros fuel pos prev caps Hcs Hfuel.
  - cbn [len length last Z.of_nat]. rewrite Z.add_0_r.
    destruct fuel; cbn [star_loop run any take m_rest flat_map]; rewrite app_nil_r;
      reflexivity.
  - destruct fuel as [|fuel]; [cbn in Hfuel; lia|].
    inversion Hcs as [|? ? Hb Hcs']; subst.
    cbn [star_loop]. rewrite run_any_plain by exact Hb.
    cbn [flat_map m_pos]. rewrite app_nil_r.
    assert (E : (pos <? pos + 1) = true) by (apply Z.ltb_lt; lia).
    rewrite E, (HF (MState pos prev (b :: cs) caps)); [|discriminate|exact Hcs].
    cbn [app]. rewrite IH; [|exact Hcs'|cbn in Hfuel; lia].
    rewrite last_cons. f_equal. f_equal. unfold len. cbn [length]. lia.
Qed.

(** The text pattern on a plain text: one match, the whole text. *)
Lemma patternText_plain (w : bytes) :
  w <> [] -> Forall is_plain w ->
  FindStringSubmatchIndex patternText w = Some [0; len w; 0; len w].
Proof.
  intros Hne Hw.
  assert (Hin : Forall (fun b => In b plain_bytes) w)
    by (eapply Forall_impl; [|exact Hw]; apply is_plain_In).
  rewrite Find_anchored by reflexivity. unfold match_at_start, init_state.
  change (repeat (-1) (2 * num_caps patternText)) with [-1; -1].
  destruct patternText_eq as (c1 & c2 & c3 & c4 & -> & D1 & D2 & D3 & D4).
  set (T := Alt c1 (Alt c2 (Alt c3 (Alt c4 Eol)))).
  assert (HT : forall st, Forall (fun b => In b plain_bytes) (m_rest st) ->
                          run T st = run Eol st).
  { intros st Ho. unfold T. cbn [run].
    rewrite !(dead_run plain_bytes plain_bytes_ascii) by assumption. reflexivity. }
  destruct w as [|b w']; [congruence|].
  inversion Hin as [|? ? Hb Hin']; subst.
  change (run (Cat Bol (Cat (Cap 1 (Cat any (Star false any))) T))
              (MState 0 (-1) (b :: w') [-1; -1]))
    with (flat_map (run T)
                   (map (set_cap 1 0)
                        (flat_map (run (Star false any))
                                  (run any (MState 0 (-1) (b :: w') [-1; -1]))))
                   ++ []).
  rewrite run_any_plain by exact Hb. cbn [flat_map]. rewrite !app_nil_r.
  rewrite flat_map_of_map. cbn [run m_rest].
  rewrite (lazy_any_to_end (fun x => run T (set_cap 1 0 x))).
  - rewrite HT by constructor. cbn [run set_cap m_rest m_pos m_caps set_nth
                                       Nat.mul Nat.sub Nat.add].
    unfold len. cbn [length]. list_eq.
  - intros st Hst Ho. rewrite HT by exact Ho.
    cbn [run set_cap m_rest]. destruct (m_rest st); [congruence|reflexivity].
  - exact Hin'.
  - apply le_n.
Qed.

End PlainText.

(** Every rule but the text rule needs a byte that a plain text lacks. *)
Lemma rules_before_text (options : option ParserOptions) :
  exists pre,
    rules (NewParser options) = pre ++ [ruleText] /\
    Forall (fun r => anchored (pattern r) = true /\
                     dead plain_bytes (pattern r) = true) pre.
Proof.
  exists (removelast (rules (NewParser options))).
  unfold NewParser. cbn [rules].
  destruct (EnableBlockQuote _), (EnableMaskedLinks _), (EnableMentions _),
    (EnableForumMarkdown _); cbn [app removelast];
    (split; [reflexivity|]);
    repeat (apply Forall_cons; [split; vm_compute; reflexivity|]); apply Forall_nil.
Qed.

(** When the first rule selected on the whole source builds a node without
    a child span and its match ends at the end of the source, the tree is
    the root with that node. *)
Lemma Parse_single_node (p : Parser) (source : bytes) (r : rule) (g : list Z)
      (d : NodeData) (me : Z) (fuel : nat) :
  source <> [] ->
  select_rule (rules p) [] 0 0 source = Some (r, g) ->
  parser r (Match source g) = Some (ParseSpec d me 0 0) ->
  effective_end (ParseSpec d me 0 0) g = len source ->
  (2 <= fuel)%nat ->
  Parse fuel p source = Returned (Tree rootNode [Tree d []]).
Proof.
  intros Hne Hsel Hps Hend Hfuel.
  pose proof (len_pos source Hne) as Hlen.
  apply Parse_mono with (fuel := 2%nat); [|exact Hfuel].
  unfold Parse, Parse_init. cbn [Parse_loop].
  assert (E1 : (0 <? len source) = true) by (apply Z.ltb_lt; lia).
  assert (E2 : (len source <=? 0) = false) by (apply Z.leb_gt; lia).
  unfold Parse_iter at 1. cbn [remainingParses start end_ lastCapture blockQuoteEnd].
  rewrite E1. cbn [start end_]. rewrite E2, slice_all, Hsel, Hps.
  unfold Parse_push, alloc. unfold effective_end in Hend.
  cbn [matchEnd start end_ node heap Z.eqb negb orb length] in *.
  rewrite Hend, Z.add_0_r, Z.eqb_refl, slice_all.
  cbn. reflexivity.
Qed.

(** X13: a source of ASCII letters, digits and blanks only (one byte at
    least) comes back as the root with one [TextNode] that holds the whole
    source, for every option set. *)
Theorem plain_text_is_one_text_node
        (options : option ParserOptions) (w : bytes) (fuel : nat) :
  w <> [] -> Forall is_plain w -> (2 <= fuel)%nat ->
  Parse fuel (NewParser options) w = Returned (Tree rootNode [Tree (TextNode w) []]).
Proof.
  intros Hne Hw Hfuel.
  assert (Hin : Forall (fun b => In b plain_bytes) w)
    by (eapply Forall_impl; [|exact Hw]; apply is_plain_In).
  destruct (rules_before_text options) as (pre & Hrules & Hpre).
  pose proof (patternText_plain w Hne Hw) as Hfind.
  apply (Parse_single_node _ w ruleText [0; len w; 0; len w] (TextNode w) (len w)).
  - exact Hne.
  - rewrite Hrules. apply select_rule_first.
    + eapply Forall_impl; [|exact Hpre]. intros r [Ha Hr]. right.
      rewrite Find_anchored by exact Ha.
      apply match_at_start_none.
      apply (dead_run plain_bytes plain_bytes_ascii); assumption.
    + split; [apply skipped_init|exact Hfind].
  - unfold ruleText. cbn [parser]. unfold group, m_start, m_end.
    cbn [groups m_match nth Nat.mul Nat.add].
    assert (E : (0 =? -1) = false) by reflexivity. rewrite E.
    unfold substr, len. rewrite Z.sub_0_r, Nat2Z.id. cbn [Z.to_nat skipn].
    rewrite firstn_all. reflexivity.
  - unfold effective_end. cbn [matchEnd].
    pose proof (len_pos w Hne). destruct (len w =? 0) eqn:E; [|reflexivity].
    apply Z.eqb_eq in E. lia.
  - exact Hfuel.
Qed.

Lemma plain_text_is_one_text_node_witness :
  let w := bytes_of_string "see you at 10" in
  w <> [] /\ Forall is_plain w /\ (2 <= 2)%nat /\
  Parse 2 (NewParser None) w = Returned (Tree rootNode [Tree (TextNode w) []]).
Proof.
  intros w.
  assert (H1 : w <> []) by discriminate.
  assert (H2 : Forall is_plain w).
  { repeat (apply Forall_cons;
            [first [left; reflexivity|right; reflexivity]|]).
    apply Forall_nil. }
  split; [exact H1|]. split; [exact H2|]. split; [apply le_n|].
  exact (plain_text_is_one_text_node None w 2 H1 H2 (le_n 2)).
Defined.

(** * Channel and role mentions *)

Section Mentions.

(** The rules before the mention rules reject a window [<#...]. *)
Lemma plain_rules_lt_hash (rest : bytes) (r : rule) :
  In r plain_rules ->
  FindStringSubmatchIndex (pattern r) (60 :: 35 :: rest) = None.
Proof. intros H. each_rule H; no_match. Qed.

Lemma ChannelMention_matches (d : bytes) :
  digits d -> d <> [] ->
  FindStringSubmatchIndex patternChannelMention ([60; 35] ++ d ++ [62])
  = Some [0; 2 + len d + 1; 2; 2 + len d].
Proof.
  intros Hd Hne. destruct d as [|d0 ds]; [congruence|].
  rewrite Find_anchored by reflexivity.
  erewrite match_at_start_first.
  2:{ change patternChannelMention
        with (Cat Bol (Cat (Cat (Chr 60) (Chr 35))
                           (Cat (Cap 1 (Plus true digit)) (Chr 62)))).
      unfold init_state. change (repeat (-1) _) with [-1; -1]. cbn [app].
      eapply first_Cat; [apply first_Bol; reflexivity|].
      eapply first_Cat; [eapply first_Cat; apply first_Chr; lia|].
      eapply first_Cat;
        [apply first_Cap; apply first_plus_digits; [exact Hd|reflexivity]|].
      unfold set_cap; cbn [m_pos m_prev m_rest m_caps].
      apply first_Chr; lia. }
  cbn [m_pos m_caps set_nth Nat.mul Nat.add Nat.sub].
  unfold len; cbn [length]; list_eq.
Qed.

Lemma RoleMention_matches (d : bytes) :
  digits d -> d <> [] ->
  FindStringSubmatchIndex patternRoleMention ([60; 64; 38] ++ d ++ [62])
  = Some [0; 3 + len d + 1; 3; 3 + len d].
Proof.
  intros Hd Hne. destruct d as [|d0 ds]; [congruence|].
  rewrite Find_anchored by reflexivity.
  erewrite match_at_start_first.
  2:{ change patternRoleMention
        with (Cat Bol (Cat (Cat (Chr 60) (Cat (Chr 64) (Chr 38)))
                           (Cat (Cap 1 (Plus true digit)) (Chr 62)))).
      unfold init_state. change (repeat (-1) _) with [-1; -1]. cbn [app].
      eapply first_Cat; [apply first_Bol; reflexivity|].
      eapply first_Cat;
        [eapply first_Cat; [apply first_Chr; lia|];
         eapply first_Cat; apply first_Chr; lia|].
      eapply first_Cat;
        [apply first_Cap; apply first_plus_digits; [exact Hd|reflexivity]|].
      unfold set_cap; cbn [m_pos m_prev m_rest m_caps].
      apply first_Chr; lia. }
  cbn [m_pos m_caps set_nth Nat.mul Nat.add Nat.sub].
  unfold len; cbn [length]; list_eq.
Qed.

Lemma select_ChannelMention (options : option ParserOptions) (d : bytes) :
  EnableMentions (effective options) = true -> digits d -> d <> [] ->
  select_rule (rules (NewParser options)) [] 0 0 ([60; 35] ++ d ++ [62])
  = Some (ruleChannelMention, [0; 2 + len d + 1; 2; 2 + len d]).
Proof.
  intros Hm Hd Hne.
  rewrite NewParser_rules. unfold mention_rules. rewrite Hm.
  cbn [app]. change (60 :: 35 :: d ++ [62]) with ([60; 35] ++ d ++ [62]).
  apply select_rule_first.
  - apply Forall_forall. intros r Hr. right.
    apply rules_before_mentions_plain in Hr.
    cbn [app]. apply plain_rules_lt_hash. exact Hr.
  - split; [apply skipped_init|]. apply ChannelMention_matches; assumption.
Qed.

Lemma select_RoleMention (options : option ParserOptions) (d : bytes) :
  EnableMentions (effective options) = true -> digits d -> d <> [] ->
  select_rule (rules (NewParser options)) [] 0 0 ([60; 64; 38] ++ d ++ [62])
  = Some (ruleRoleMention, [0; 3 + len d + 1; 3; 3 + len d]).
Proof.
  intros Hm Hd Hne.
  rewrite NewParser_rules. unfold mention_rules. rewrite Hm.
  replace (rules_before_mentions (effective options)
             ++ [ruleChannelMention; ruleRoleMention; ruleUserMention;
                 ruleSpecialMention]
             ++ ruleTimestamp :: rules_after_timestamp (effective options))
    with ((rules_before_mentions (effective options) ++ [ruleChannelMention])
            ++ ruleRoleMention
            :: ruleUserMention :: ruleSpecialMention :: ruleTimestamp
            :: rules_after_timestamp (effective options))
    by (rewrite <- app_assoc; reflexivity).
  apply select_rule_first.
  - apply Forall_app. split.
    + apply Forall_forall. intros r Hr. right.
      apply rules_before_mentions_plain in Hr.
      cbn [app]. apply plain_rules_lt_at. exact Hr.
    + apply Forall_cons; [right|apply Forall_nil].
      cbn [app]. apply ChannelMention_lt_at.
  - split; [apply skipped_init|]. apply RoleMention_matches; assumption.
Qed.

End Mentions.

(** X14: with the mention rules enabled, for every non-empty string [d]
    of decimal digits, [<#d>] parses to the root with one
    [ChannelMentionNode] and [<@&d>] to the root with one
    [RoleMentionNode], each with [d] as its ID. *)
Theorem channel_and_role_mentions_carry_the_id
        (options : option ParserOptions) (d : bytes) (fuel : nat) :
  EnableMentions (effective options) = true ->
  digits d -> d <> [] -> (2 <= fuel)%nat ->
  let p := NewParser options in
  Parse fuel p (bytes_of_string "<#" ++ d ++ bytes_of_string ">")
  = Returned (Tree rootNode [Tree (ChannelMentionNode d) []]) /\
  Parse fuel p (bytes_of_string "<@&" ++ d ++ bytes_of_string ">")
  = Returned (Tree rootNode [Tree (RoleMentionNode d) []]).
Proof.
  intros Hm Hd Hne Hfuel p.
  change (bytes_of_string "<#") with [60; 35].
  change (bytes_of_string "<@&") with [60; 64; 38].
  change (bytes_of_string ">") with [62].
  split.
  - eapply Parse_single_leaf.
    + discriminate.
    + apply (select_ChannelMention options d Hm Hd Hne).
    + unfold ruleChannelMention, leaf. cbn [parser].
      rewrite (group_middle [60; 35] d); reflexivity.
    + cbn [nth]. unfold len. rewrite !length_app. cbn [length]. lia.
    + exact Hfuel.
  - eapply Parse_single_leaf.
    + discriminate.
    + apply (select_RoleMention options d Hm Hd Hne).
    + unfold ruleRoleMention, leaf. cbn [parser].
      rewrite (group_middle [60; 64; 38] d); reflexivity.
    + cbn [nth]. unfold len. rewrite !length_app. cbn [length]. lia.
    + exact Hfuel.
Qed.

Lemma channel_and_role_mentions_carry_the_id_witness :
  let d := bytes_of_string "1234" in
  let p := NewParser None in
  EnableMentions (effective None) = true /\
  digits d /\ d <> [] /\ (2 <= 2)%nat /\
  Parse 2 p (bytes_of_string "<#" ++ d ++ bytes_of_string ">")
  = Returned (Tree rootNode [Tree (ChannelMentionNode d) []]) /\
  Parse 2 p (bytes_of_string "<@&" ++ d ++ bytes_of_string ">")
  = Returned (Tree rootNode [Tree (RoleMentionNode d) []]).
Proof.
  intros d p.
  assert (Hd : digits d) by (repeat constructor; cbn; lia).
  assert (Hne : d <> []) by discriminate.
  split; [reflexivity|]. split; [exact Hd|]. split; [exact Hne|].
  split; [apply le_n|].
  exact (channel_and_role_mentions_carry_the_id None d 2 eq_refl Hd Hne (le_n 2)).
Defined.

(** * Inline code *)

Section InlineCode.

Local Abbreviation not_tick := (Cls true [Of "`"]).

Lemma run_Chr_other (c b pos prev : Z) (rest : bytes) (caps : list Z) :
  c < 128 -> b <> c -> run (Chr c) (MState pos prev (b :: rest) caps) = [].
Proof.
  intros Hc Hne.
  destruct (run (Chr c) (MState pos prev (b :: rest) caps)) as [|st' l] eqn:E;
    [reflexivity|].
  assert (Hin : In st' (run (Chr c) (MState pos prev (b :: rest) caps)))
    by (rewrite E; left; reflexivity).
  apply run_Chr_ascii in Hin; [|exact Hc]. cbn [m_rest] in Hin. congruence.
Qed.

(** Decoding a rune before a backtick does not read the backtick. *)
Lemma DecodeRune_before_backtick (b : Z) (c rest : bytes) :
  b <> BACKTICK ->
  fst (DecodeRune (b :: c ++ BACKTICK :: rest)) <> BACKTICK /\
  1 <= snd (DecodeRune (b :: c ++ BACKTICK :: rest)) <= len (b :: c).
Proof.
  intros Hb. unfold BACKTICK in *. split.
  - destruct (Z.lt_ge_cases b 128) as [H|H].
    + unfold DecodeRune. assert (E : (b <? 128) = true) by (apply Z.ltb_lt; lia).
      rewrite E. exact Hb.
    + pose proof (DecodeRune_high b (c ++ 96 :: rest) H). lia.
  - unfold len.
    destruct c as [|s1 [|s2 [|s3 t]]], rest as [|r1 [|r2 rest]];
      cbn [app length]; unfold DecodeRune, within;
      repeat match goal with
             | |- context [if ?a =? ?b then _ else _] => destruct (a =? b)
             | |- context [if ?b then _ else _] => destruct b eqn:?
             end; cbn [snd]; try lia;
        repeat match goal with
               | H : (_ && _) = true |- _ => apply andb_prop in H as [? ?]
               | H : (_ <=? _) = true |- _ => apply Z.leb_le in H
               end; lia.
Qed.

Lemma in_class_not_tick (r : Z) : in_class true [Of "`"] r = negb (r =? BACKTICK).
Proof.
  unfold in_class, Of, One, in_item, within, BACKTICK. cbn [existsb xorb].
  change (chr "`") with 96. rewrite orb_false_r.
  destruct (r =? 96) eqn:E.
  - apply Z.eqb_eq in E. subst. reflexivity.
  - apply Z.eqb_neq in E. cbn [negb].
    destruct (96 <=? r) eqn:E1, (r <=? 96) eqn:E2; try reflexivity.
    apply Z.leb_le in E1, E2. lia.
Qed.

(** A greedy [[^`]*] first reads up to the next backtick. *)
Lemma first_star_not_tick :
  forall n c, (length c <= n)%nat -> no_backtick c ->
    forall fuel pos prev caps rest,
      (length (c ++ BACKTICK :: rest) <= fuel)%nat ->
      exists prev',
        hd_error (star_loop (run not_tick) true fuel
                            (MState pos prev (c ++ BACKTICK :: rest) caps))
        = Some (MState (pos + len c) prev' (BACKTICK :: rest) caps).
Proof.
  induction n as [|n IH]; intros c Hn Hc fuel pos prev caps rest Hfuel.
  - destruct c; [|cbn in Hn; lia]. cbn [app len length Z.of_nat].
    rewrite Z.add_0_r. exists prev.
    destruct fuel as [|fuel]; [reflexivity|]. cbn [star_loop run].
    unfold BACKTICK. rewrite take_ascii by lia.
    rewrite in_class_not_tick. reflexivity.
  - destruct c as [|b c].
    { apply (IH []); [cbn; lia|constructor|exact Hfuel]. }
    destruct fuel as [|fuel]; [cbn in Hfuel; lia|].
    inversion Hc as [|? ? Hb Hc']; subst.
    destruct (DecodeRune_before_backtick b c rest Hb) as [Hr Hw].
    cbn [star_loop app run].
    rewrite (take_decoded _ _ (fst (DecodeRune (b :: c ++ BACKTICK :: rest)))
                          (snd (DecodeRune (b :: c ++ BACKTICK :: rest))));
      [|discriminate|apply surjective_pairing].
    rewrite in_class_not_tick.
    apply Z.eqb_neq in Hr. rewrite Hr. cbn [negb flat_map m_pos m_rest m_caps].
    set (r := fst _) in *. set (w := snd _) in *.
    assert (E : (pos <? pos + w) = true) by (apply Z.ltb_lt; lia).
    rewrite E, app_nil_r.
    assert (Hsk : skipn (Z.to_nat w) (b :: c ++ BACKTICK :: rest)
                  = skipn (Z.to_nat w) (b :: c) ++ BACKTICK :: rest).
    { change (b :: c ++ BACKTICK :: rest) with ((b :: c) ++ BACKTICK :: rest).
      rewrite skipn_app.
      replace (Z.to_nat w - length (b :: c))%nat with 0%nat
        by (unfold len in Hw; lia).
      reflexivity. }
    rewrite Hsk.
    destruct (IH (skipn (Z.to_nat w) (b :: c))) with
        (fuel := fuel) (pos := pos + w) (prev := r) (caps := caps) (rest := rest)
      as [prev' Hhd].
    + rewrite length_skipn. cbn [length] in *. lia.
    + unfold no_backtick in *.
      rewrite <- (firstn_skipn (Z.to_nat w) (b :: c)) in Hc.
      apply Forall_app in Hc. apply Hc.
    + rewrite length_app, length_skipn. cbn [length] in *.
      rewrite length_app in Hfuel. cbn [length] in Hfuel. lia.
    + exists prev'.
      destruct (star_loop _ _ _ _) as [|x l]; [discriminate|].
      cbn [app hd_error] in *. rewrite Hhd. f_equal. f_equal.
      unfold len in *. rewrite length_skipn. cbn [length] in *. lia.
Qed.

Lemma two_ticks_reject (pos prev b : Z) (rest : bytes) (caps : list Z) (r : Regexp) :
  b <> BACKTICK ->
  run (Cat (Cat (Chr 96) (Chr 96)) r) (MState pos prev (96 :: b :: rest) caps) = [].
Proof.
  intros Hb. apply run_Cat_nil.
  rewrite (run_Cat_single _ _ _ _ (run_Chr_eq 96 pos prev (b :: rest) caps ltac:(lia))).
  apply run_Chr_other; [lia|exact Hb].
Qed.

Lemma CodeBlock_needs_three_ticks (b : Z) (rest : bytes) :
  b <> BACKTICK ->
  FindStringSubmatchIndex patternCodeBlock (96 :: b :: rest) = None.
Proof.
  intros Hb. rewrite Find_anchored by reflexivity. apply match_at_start_none.
  unfold init_state.
  change patternCodeBlock
    with (Cat Bol (Cat (Cat (Chr 96) (Cat (Chr 96) (Chr 96)))
                       (Seq [Quest true
                               (Cat (Quest true
                                       (Cap 1 (Plus false
                                                 (Cls false [PerlW; Of "+"; Of "-"; Of "."]))))
                                    (Cap 2 (Cat (Star true space) (Chr LF))));
                             Cap 3 (Cat (Cls true [One LF]) (Star false DotAll));
                             Star true (Chr LF); Str "```"]))).
  rewrite run_Bol_Cat by reflexivity. apply run_Cat_nil.
  rewrite (run_Cat_single _ _ _ _ (run_Chr_eq 96 _ _ _ _ ltac:(lia))).
  apply run_Cat_nil. apply run_Chr_other; [lia|exact Hb].
Qed.

(** The inline code pattern on a text between two backticks. *)
Lemma CodeInline_matches (c : bytes) :
  c <> [] -> no_backtick c ->
  FindStringSubmatchIndex patternCodeInline (96 :: c ++ [96])
  = Some [0; len c + 2; -1; -1; 1; 1 + len c].
Proof.
  intros Hne Hc. rewrite Find_anchored by reflexivity.
  destruct (first_star_not_tick (length c) c (le_n _) Hc
                                (length (c ++ [96])) 1 96 [-1; -1; -1; -1] []
                                (le_n _)) as [prev' Hstar].
  destruct c as [|c0 c']; [congruence|].
  inversion Hc as [|? ? Hc0 _]; subst.
  unfold BACKTICK in Hstar.
  erewrite match_at_start_first.
  2:{ change patternCodeInline
        with (Alt (Cat Bol (Cat (Cat (Chr 96) (Chr 96))
                                (Cat (Cap 1 (Star true not_tick))
                                     (Cat (Chr 96) (Chr 96)))))
                  (Cat Bol (Cat (Chr 96)
                                (Cat (Cap 2 (Star true not_tick)) (Chr 96))))).
      unfold init_state. change (repeat (-1) _) with [-1; -1; -1; -1]. cbn [app].
      apply first_Alt_r.
      - rewrite run_Bol_Cat by reflexivity. apply two_ticks_reject. exact Hc0.
      - eapply first_Cat; [apply first_Bol; reflexivity|].
        eapply first_Cat; [apply first_Chr; lia|].
        eapply first_Cat.
        + apply first_Cap. unfold first_match. cbn [run m_rest]. exact Hstar.
        + unfold set_cap. cbn [m_pos m_prev m_rest m_caps].
          apply first_Chr. lia. }
  cbn [m_pos m_caps set_nth Nat.mul Nat.add Nat.sub].
  unfold len; cbn [length]; list_eq.
Qed.

End InlineCode.

Lemma select_CodeInline (options : option ParserOptions) (c : bytes) :
  c <> [] -> no_backtick c ->
  select_rule (rules (NewParser options)) [] 0 0 (96 :: c ++ [96])
  = Some (ruleCodeInline, [0; len c + 2; -1; -1; 1; 1 + len c]).
Proof.
  intros Hne Hc.
  assert (Hcand : candidate [] 0 0 (96 :: c ++ [96]) ruleCodeInline
                            [0; len c + 2; -1; -1; 1; 1 + len c])
    by (split; [apply skipped_init|apply CodeInline_matches; assumption]).
  assert (Hblock : rejected [] 0 0 (96 :: c ++ [96]) ruleCodeBlock).
  { right. destruct c as [|c0 c']; [congruence|]. inversion Hc; subst.
    apply CodeBlock_needs_three_ticks. assumption. }
  assert (H1 : rejected [] 0 0 (96 :: c ++ [96]) ruleSoftHyphen) by (right; no_match).
  assert (H2 : rejected [] 0 0 (96 :: c ++ [96]) ruleEscape) by (right; no_match).
  assert (H3 : rejected [] 0 0 (96 :: c ++ [96]) ruleBlockQuote) by (right; no_match).
  unfold NewParser. cbn [rules].
  destruct (EnableBlockQuote _); cbn [app];
    rewrite ?select_rule_rejected by assumption;
    apply select_rule_candidate; exact Hcand.
Qed.

(** X15: a text [c] without a backtick (one byte at least), put between
    two backticks, parses to the root with one [CodeNode] whose content is
    [c] and whose language is empty, for every option set: nothing inside
    the backticks is parsed. *)
Theorem inline_code_is_taken_verbatim
        (options : option ParserOptions) (c : bytes) (fuel : nat) :
  c <> [] -> no_backtick c -> (2 <= fuel)%nat ->
  Parse fuel (NewParser options) (bytes_of_string "`" ++ c ++ bytes_of_string "`")
  = Returned (Tree rootNode [Tree (CodeNode c []) []]).
Proof.
  intros Hne Hc Hfuel.
  change (bytes_of_string "`") with [96]. cbn [app].
  eapply Parse_single_leaf.
  - discriminate.
  - apply (select_CodeInline options c Hne Hc).
  - unfold ruleCodeInline, leaf. cbn [parser].
    assert (G : group (Match (96 :: c ++ [96]) [0; len c + 2; -1; -1; 1; 1 + len c]) 2
                = c).
    { apply (group_middle [96] c [96]); reflexivity. }
    rewrite G.
    assert (E : (0 <? len c) = true).
    { apply Z.ltb_lt. destruct c; [congruence|]. unfold len. cbn [length]. lia. }
    rewrite E, G. reflexivity.
  - cbn [nth]. unfold len. cbn [length]. rewrite length_app. cbn [length]. lia.
  - exact Hfuel.
Qed.

Lemma inline_code_is_taken_verbatim_witness :
  let c := bytes_of_string "**a** <@1>" in
  c <> [] /\ no_backtick c /\ (2 <= 2)%nat /\
  Parse 2 (NewParser None) (bytes_of_string "`" ++ c ++ bytes_of_string "`")
  = Returned (Tree rootNode [Tree (CodeNode c []) []]).
Proof.
  intros c.
  assert (H1 : c <> []) by discriminate.
  assert (H2 : no_backtick c)
    by (repeat (apply Forall_cons; [discriminate|]); apply Forall_nil).
  split; [exact H1|]. split; [exact H2|]. split; [apply le_n|].
  exact (inline_code_is_taken_verbatim None c 2 H1 H2 (le_n 2)).
Defined.

(** * Blank lines *)

Section BlankLines.

Local Abbreviation body := (Cat (Chr LF) (Star true sp)).

Lemma dead_rejected (alphabet : list Z) (r : rule) (lc : bytes) (bqe bs : Z)
      (w : bytes) :
  Forall (fun b => b < 128) alphabet ->
  anchored (pattern r) = true -> dead alphabet (pattern r) = true ->
  Forall (fun b => In b alphabet) w ->
  rejected lc bqe bs w r.
Proof.
  intros Ha Hanch Hdead Hw. right. rewrite Find_anchored by exact Hanch.
  apply match_at_start_none. apply (dead_run alphabet Ha); assumption.
Qed.

Lemma blank_lines_head (ks : list nat) : exists t, blank_lines ks = LF :: t.
Proof. destruct ks; cbn [blank_lines]; eauto. Qed.

Lemma blank_lines_bytes (ks : list nat) :
  Forall (fun b => In b [LF; 32]) (blank_lines ks).
Proof.
  induction ks as [|k ks IH]; cbn [blank_lines].
  - repeat constructor.
  - apply Forall_cons; [left; reflexivity|]. apply Forall_app. split; [|exact IH].
    apply Forall_forall. intros b Hb. apply repeat_spec in Hb. subst. right. left.
    reflexivity.
Qed.

Lemma run_sp_blank (pos prev : Z) (rest : bytes) (caps : list Z) :
  run sp (MState pos prev (32 :: rest) caps) = [MState (pos + 1) 32 rest caps].
Proof. apply run_Chr_eq. lia. Qed.

Lemma run_sp_LF (pos prev : Z) (rest : bytes) (caps : list Z) :
  run sp (MState pos prev (LF :: rest) caps) = [].
Proof. apply run_Chr_ne; unfold LF; lia. Qed.

(** A greedy [ *] first reads all the blanks ahead. *)
Lemma first_star_sp (k : nat) (t : bytes) :
  forall fuel pos prev caps,
    (k <= fuel)%nat ->
    exists prev',
      hd_error (star_loop (run sp) true fuel
                          (MState pos prev (repeat 32 k ++ LF :: t) caps))
      = Some (MState (pos + Z.of_nat k) prev' (LF :: t) caps).
Proof.
  induction k as [|k IH]; intros fuel pos prev caps Hfuel.
  - exists prev. cbn [repeat app Z.of_nat]. rewrite Z.add_0_r.
    destruct fuel; cbn [star_loop]; [reflexivity|].
    rewrite run_sp_LF. reflexivity.
  - destruct fuel as [|fuel]; [lia|].
    cbn [repeat app star_loop]. rewrite run_sp_blank.
    cbn [flat_map m_pos]. rewrite app_nil_r.
    assert (E : (pos <? pos + 1) = true) by (apply Z.ltb_lt; lia).
    rewrite E.
    destruct (IH fuel (pos + 1) 32 caps ltac:(lia)) as [prev' Hhd].
    exists prev'.
    destruct (star_loop (run sp) true fuel _) as [|x l]; [discriminate|].
    cbn [app hd_error] in *. rewrite Hhd. f_equal. f_equal. lia.
Qed.

Lemma hd_error_app {A : Type} (l1 l2 : list A) (x : A) :
  hd_error l1 = Some x -> hd_error (l1 ++ l2) = Some x.
Proof. destruct l1; [discriminate|]. exact (fun H => H). Qed.

(** The loop of the newline pattern, followed by its last line feed, first
    reads the blank lines to their end. *)
Lemma newline_to_end (ks : list nat) :
  forall fuel pos prev caps,
    (length (blank_lines ks) <= fuel)%nat ->
    hd_error (flat_map (run (Chr LF))
                       (star_loop (run body) true fuel
                                  (MState pos prev (blank_lines ks) caps)))
    = Some (MState (pos + len (blank_lines ks)) LF [] caps).
Proof.
  induction ks as [|k ks IH]; intros fuel pos prev caps Hfuel.
  - cbn [blank_lines] in *. destruct fuel as [|fuel]; [cbn in Hfuel; lia|].
    cbn [star_loop].
    assert (Hbody : run body (MState pos prev [LF] caps)
                    = [MState (pos + 1) LF [] caps]).
    { rewrite (run_Cat_single _ _ _ _ (run_Chr_eq LF pos prev [] caps ltac:(unfold LF; lia))).
      reflexivity. }
    rewrite Hbody. cbn [flat_map m_pos]. rewrite app_nil_r.
    assert (E : (pos <? pos + 1) = true) by (apply Z.ltb_lt; lia).
    rewrite E.
    assert (Hend : star_loop (run body) true fuel (MState (pos + 1) LF [] caps)
                   = [MState (pos + 1) LF [] caps])
      by (destruct fuel; reflexivity).
    rewrite Hend. cbn [app flat_map].
    rewrite (run_Chr_eq LF pos prev [] caps) by (unfold LF; lia).
    reflexivity.
  - cbn [blank_lines] in *. destruct fuel as [|fuel]; [cbn in Hfuel; lia|].
    cbn [star_loop].
    destruct (blank_lines_head ks) as [t Ht].
    destruct (first_star_sp k t (length (repeat 32 k ++ blank_lines ks))
                            (pos + 1) LF caps) as [prev' Hsp].
    { rewrite length_app, repeat_length. lia. }
    rewrite <- Ht in Hsp.
    assert (Hbody : hd_error (run body (MState pos prev
                                               (LF :: repeat 32 k ++ blank_lines ks) caps))
                    = Some (MState (pos + 1 + Z.of_nat k) prev' (blank_lines ks) caps)).
    { rewrite (run_Cat_single _ _ _ _
                              (run_Chr_eq LF pos prev _ caps ltac:(unfold LF; lia))).
      cbn [run m_rest]. exact Hsp. }
    destruct (run body _) as [|x l]; [discriminate|].
    cbn [hd_error] in Hbody. injection Hbody as ->.
    cbn [flat_map m_pos].
    assert (E : (pos <? pos + 1 + Z.of_nat k) = true) by (apply Z.ltb_lt; lia).
    rewrite E. rewrite <- !app_assoc. rewrite flat_map_app.
    apply hd_error_app. rewrite IH.
    + f_equal. f_equal. unfold len. cbn [length].
      rewrite length_app, repeat_length. lia.
    + cbn [length] in Hfuel. rewrite length_app in Hfuel. lia.
Qed.

Lemma patternNewline_blank_lines (ks : list nat) :
  FindStringSubmatchIndex patternNewline (blank_lines ks)
  = Some [0; len (blank_lines ks)].
Proof.
  rewrite Find_anchored by reflexivity.
  erewrite match_at_start_first.
  2:{ unfold first_match, init_state.
      change patternNewline with (Cat Bol (Cat (Star true body) (Chr LF))).
      change (repeat (-1) _) with (@nil Z).
      rewrite run_Bol_Cat by reflexivity.
      change (run (Cat (Star true body) (Chr LF))
                  (MState 0 (-1) (blank_lines ks) []))
        with (flat_map (run (Chr LF))
                       (star_loop (run body) true (length (blank_lines ks))
                                  (MState 0 (-1) (blank_lines ks) []))).
      apply newline_to_end. apply le_n. }
  reflexivity.
Qed.

End BlankLines.

Lemma rules_before_newline (r : rule) :
  In r [ruleSoftHyphen; ruleEscape; ruleBlockQuote; ruleCodeBlock; ruleCodeInline;
        ruleSpoiler; ruleMaskedLink; ruleURLNoEmbed; ruleURL; ruleCustomEmoji;
        ruleNamedEmoji; ruleUnescapeEmoticon; ruleChannelMention; ruleRoleMention;
        ruleUserMention; ruleSpecialMention; ruleTimestamp; ruleHeaderItem;
        ruleListItem] ->
  anchored (pattern r) = true /\ dead [LF; 32] (pattern r) = true.
Proof.
  intros H. cbn [In] in H.
  repeat match type of H with
         | _ \/ _ => destruct H as [<-|H]
         | False => contradiction
         end; split; vm_compute; reflexivity.
Qed.

Lemma select_Newline (options : option ParserOptions) (ks : list nat) :
  select_rule (rules (NewParser options)) [] 0 0 (blank_lines ks)
  = Some (ruleNewline, [0; len (blank_lines ks)]).
Proof.
  assert (Hrej : forall r,
             In r [ruleSoftHyphen; ruleEscape; ruleBlockQuote; ruleCodeBlock;
                   ruleCodeInline; ruleSpoiler; ruleMaskedLink; ruleURLNoEmbed;
                   ruleURL; ruleCustomEmoji; ruleNamedEmoji; ruleUnescapeEmoticon;
                   ruleChannelMention; ruleRoleMention; ruleUserMention;
                   ruleSpecialMention; ruleTimestamp; ruleHeaderItem;
                   ruleListItem] ->
             rejected [] 0 0 (blank_lines ks) r).
  { intros r Hr. destruct (rules_before_newline r Hr) as [Ha Hd].
    apply (dead_rejected [LF; 32]); auto; [|apply blank_lines_bytes].
    repeat constructor; unfold LF; lia. }
  assert (Hcand : candidate [] 0 0 (blank_lines ks) ruleNewline
                            [0; len (blank_lines ks)])
    by (split; [apply skipped_init|apply patternNewline_blank_lines]).
  unfold NewParser. cbn [rules].
  destruct (EnableBlockQuote _), (EnableMaskedLinks _), (EnableMentions _),
    (EnableForumMarkdown _); cbn [app];
    rewrite ?select_rule_rejected by (apply Hrej; cbn [In]; tauto);
    apply select_rule_candidate; exact Hcand.
Qed.

(** X16: a source that starts with a line feed and goes on with lines of
    blanks only, each ended by a line feed, comes back as the root with one
    [TextNode] that holds a single line feed, for every option set: a run of
    blank lines is one newline. *)
Theorem blank_lines_are_one_newline
        (options : option ParserOptions) (ks : list nat) (fuel : nat) :
  (2 <= fuel)%nat ->
  Parse fuel (NewParser options) (blank_lines ks)
  = Returned (Tree rootNode [Tree (TextNode [LF]) []]).
Proof.
  intros Hfuel. eapply Parse_single_leaf.
  - destruct ks; discriminate.
  - apply select_Newline.
  - reflexivity.
  - reflexivity.
  - exact Hfuel.
Qed.

Lemma blank_lines_are_one_newline_witness :
  (2 <= 2)%nat /\
  blank_lines [1%nat; 0%nat; 3%nat] = [LF; 32; LF; LF; 32; 32; 32; LF] /\
  Parse 2 (NewParser None) (blank_lines [1%nat; 0%nat; 3%nat])
  = Returned (Tree rootNode [Tree (TextNode [LF]) []]).
Proof.
  split; [apply le_n|]. split; [reflexivity|].
  exact (blank_lines_are_one_newline None [1%nat; 0%nat; 3%nat] 2 (le_n 2)).
Defined.

(** * Marks around a plain text *)

Section Containers.

Lemma Parse_iter_select (p : Parser) (source : bytes) (st : pstate)
      (b : parseSpec ptr) (rem : list (parseSpec ptr)) (w : bytes) (r : rule)
      (g : list Z) (ps : parseSpec NodeData) :
  remainingParses st = b :: rem -> start b < end_ b ->
  slice source (start b) (end_ b) = Some w ->
  select_rule (rules p) (lastCapture st) (blockQuoteEnd st) (start b) w = Some (r, g) ->
  parser r (Match w g) = Some ps ->
  Parse_iter p source st = Parse_push st b rem r g ps w.
Proof.
  intros Hst Hlt Hw Hsel Hps. unfold Parse_iter. rewrite Hst.
  assert (E : (end_ b <=? start b) = false) by (apply Z.leb_gt; lia).
  rewrite E, Hw, Hsel, Hps. reflexivity.
Qed.

(** The text rule is the one selected on a plain text, whatever was
    matched before. *)
Lemma select_Text_plain (options : option ParserOptions) (lc : bytes) (bqe bs : Z)
      (w : bytes) :
  w <> [] -> Forall is_plain w ->
  select_rule (rules (NewParser options)) lc bqe bs w
  = Some (ruleText, [0; len w; 0; len w]).
Proof.
  intros Hne Hw.
  assert (Hin : Forall (fun b => In b plain_bytes) w)
    by (eapply Forall_impl; [|exact Hw]; apply is_plain_In).
  destruct (rules_before_text options) as (pre & -> & Hpre).
  apply select_rule_first.
  - eapply Forall_impl; [|exact Hpre]. intros r [Ha Hr].
    apply (dead_rejected plain_bytes); auto. apply plain_bytes_ascii.
  - split; [reflexivity|]. apply patternText_plain; assumption.
Qed.

Lemma group_whole (w : bytes) (g : list Z) (k : nat) :
  nth (k * 2) g 0 = 0 -> nth (k * 2 + 1) g 0 = len w ->
  group (Match w g) k = w.
Proof.
  intros H1 H2. unfold group, m_start, m_end. cbn [groups m_match].
  rewrite H1, H2. change (0 =? -1) with false. cbv iota.
  unfold substr, len. rewrite Z.sub_0_r, Nat2Z.id. cbn [Z.to_nat skipn].
  apply firstn_all.
Qed.

(** A source that one rule consumes whole, with a child span that holds a
    plain text: the node of the rule with one text node below it. *)
Lemma Parse_container_of_plain_text
      (options : option ParserOptions) (source : bytes) (r : rule) (g : list Z)
      (d : NodeData) (me a b : Z) (w : bytes) (fuel : nat) :
  select_rule (rules (NewParser options)) [] 0 0 source = Some (r, g) ->
  parser r (Match source g) = Some (ParseSpec d me a b) ->
  effective_end (ParseSpec d me a b) g = len source ->
  1 <= a -> slice source a b = Some w ->
  w <> [] -> Forall is_plain w ->
  (3 <= fuel)%nat ->
  Parse fuel (NewParser options) source
  = Returned (Tree rootNode [Tree d [Tree (TextNode w) []]]).
Proof.
  intros Hsel Hps Hend Ha Hw Hne Hplain Hfuel.
  pose proof (len_slice_inv _ _ _ _ Hw) as (Hlw & _ & Hab & Hb).
  pose proof (len_pos w Hne) as Hwpos.
  apply Parse_mono with (fuel := 3%nat); [|exact Hfuel].
  unfold Parse. cbn [Parse_loop].
  assert (E1 : (0 <? len source) = true) by (apply Z.ltb_lt; lia).
  (* the first iteration *)
  rewrite (Parse_iter_select _ source (Parse_init source)
                             (ParseSpec topLevelRootNode 0 0 (len source)) []
                             source r g (ParseSpec d me a b)); cycle 1.
  { unfold Parse_init. rewrite E1. reflexivity. }
  { cbn [start end_]. lia. }
  { apply slice_all. }
  { exact Hsel. }
  { exact Hps. }
  unfold Parse_push at 1, alloc. unfold effective_end in Hend.
  cbn [matchEnd start end_ node heap Parse_init length] in *.
  rewrite Hend, !Z.add_0_r, Z.eqb_refl, slice_all.
  assert (Ea : (a =? 0) = false) by (apply Z.eqb_neq; lia).
  rewrite Ea. cbn [negb orb].
  (* the second iteration *)
  set (st1 := PState _ _ _ _).
  rewrite (Parse_iter_select _ source st1 (ParseSpec 1%nat (len source) a b) []
                             w ruleText [0; len w; 0; len w]
                             (ParseSpec (TextNode w) (len w) 0 0)); cycle 1.
  { reflexivity. }
  { cbn [start end_]. lia. }
  { exact Hw. }
  { apply select_Text_plain; assumption. }
  { unfold ruleText. cbn [parser]. rewrite group_whole by reflexivity. reflexivity. }
  unfold Parse_push, alloc.
  cbn [matchEnd start end_ node heap st1 length Z.eqb negb orb].
  assert (Ew : (len w =? 0) = false) by (apply Z.eqb_neq; lia).
  rewrite Ew. replace (len w + a) with b by lia. rewrite Z.eqb_refl, slice_all.
  cbn. reflexivity.
Qed.

(** A lazy [[\s\S]*?] before something that a plain byte cannot start:
    the plain text is read to its end. *)
Lemma lazy_any_until (F : mstate -> list mstate) (caps : list Z) :
  (forall pos prev b rest,
      In b plain_bytes -> F (MState pos prev (b :: rest) caps) = []) ->
  forall cs tail fuel pos prev x,
    Forall (fun b => In b plain_bytes) cs -> (length cs <= fuel)%nat ->
    hd_error (F (MState (pos + len cs) (last cs prev) tail caps)) = Some x ->
    hd_error (flat_map F (star_loop (run any) false fuel
                                    (MState pos prev (cs ++ tail) caps)))
    = Some x.
Proof.
  intros HF. induction cs as [|b cs IH]; intros tail fuel pos prev x Hcs Hfuel Hx.
  - cbn [len length last Z.of_nat app] in *. rewrite Z.add_0_r in Hx.
    destruct fuel; cbn [star_loop flat_map]; apply hd_error_app; exact Hx.
  - destruct fuel as [|fuel]; [cbn in Hfuel; lia|].
    inversion Hcs as [|? ? Hb Hcs']; subst.
    cbn [star_loop app]. rewrite run_any_plain by exact Hb.
    cbn [flat_map m_pos]. rewrite app_nil_r.
    assert (E : (pos <? pos + 1) = true) by (apply Z.ltb_lt; lia).
    rewrite E, HF by exact Hb. cbn [app].
    apply IH; [exact Hcs'|cbn in Hfuel; lia|].
    rewrite last_cons in Hx.
    replace (pos + 1 + len cs) with (pos + len (b :: cs))
      by (unfold len; cbn [length]; lia).
    exact Hx.
Qed.

(** A group [([\s\S]+?)] around a plain text, before a doubled mark. *)
Lemma lazy_group_until (D : Z) (k : nat) (w : bytes) (pos prev : Z) (caps : list Z) :
  D < 128 -> ~ In D plain_bytes -> w <> [] -> Forall is_plain w ->
  first_match (Cat (Cap k (Cat any (Star false any))) (Cat (Chr D) (Chr D)))
              (MState pos prev (w ++ [D; D]) caps)
              (MState (pos + len w + 2) D []
                      (set_nth (2 * k - 1) (pos + len w)
                               (set_nth (2 * k - 2) pos caps))).
Proof.
  intros HD Hnot Hne Hw.
  assert (Hin : Forall (fun b => In b plain_bytes) w)
    by (eapply Forall_impl; [|exact Hw]; apply is_plain_In).
  destruct w as [|b w']; [congruence|].
  inversion Hin as [|? ? Hb Hin']; subst.
  unfold first_match.
  change (run (Cat (Cap k (Cat any (Star false any))) (Cat (Chr D) (Chr D)))
              (MState pos prev ((b :: w') ++ [D; D]) caps))
    with (flat_map (run (Cat (Chr D) (Chr D)))
                   (map (set_cap k pos)
                        (flat_map (run (Star false any))
                                  (run any (MState pos prev (b :: w' ++ [D; D]) caps))))).
  rewrite run_any_plain by exact Hb. cbn [flat_map]. rewrite app_nil_r.
  rewrite flat_map_of_map. cbn [run m_rest].
  apply (lazy_any_until (fun s => run (Cat (Chr D) (Chr D)) (set_cap k pos s))).
  - intros pos' prev' c rest Hc. unfold set_cap. cbn [m_pos m_prev m_rest m_caps].
    apply run_Cat_nil. apply run_Chr_other; [exact HD|].
    intros ->. contradiction.
  - exact Hin'.
  - rewrite length_app. lia.
  - unfold set_cap. cbn [m_pos m_prev m_rest m_caps].
    rewrite (run_Cat_single _ _ _ _ (run_Chr_eq D _ _ _ _ HD)).
    rewrite run_Chr_eq by exact HD. cbn [hd_error].
    replace (pos + len (b :: w')) with (pos + 1 + len w')
      by (unfold len; cbn [length]; lia).
    f_equal. f_equal. lia.
Qed.

Lemma not_plain (D : Z) : D = 42 \/ D = 95 \/ D = 124 -> ~ In D plain_bytes.
Proof.
  intros HD Hin. unfold plain_bytes in Hin. destruct Hin as [Hin|Hin]; [lia|].
  apply in_map_iff in Hin as (n & <- & Hn).
  rewrite !in_app_iff, !in_seq in Hn. lia.
Qed.

Lemma run_Cls_end (neg : bool) (items : list citem) (pos prev : Z) (caps : list Z) :
  run (Cls neg items) (MState pos prev [] caps) = [].
Proof. reflexivity. Qed.

(** The patterns of bold and of underline on a plain text between two
    doubled marks. *)
Lemma doubled_marks_match (D : Z) (w : bytes) :
  D = 42 \/ D = 95 -> w <> [] -> Forall is_plain w ->
  FindStringSubmatchIndex
    (Cat Bol (Cat (Cap 1 (Cat (Cat (Chr D) (Chr D))
                              (Cat (Cap 2 (Cat any (Star false any)))
                                   (Cat (Chr D) (Chr D)))))
                  (Alt (Cls true [One D]) Eol)))
    (D :: D :: w ++ [D; D])
  = Some [0; len w + 4; 0; len w + 4; 2; len w + 2].
Proof.
  intros HD Hne Hw.
  assert (HD' : D < 128) by lia.
  rewrite Find_anchored by reflexivity.
  erewrite match_at_start_first.
  2:{ unfold init_state. change (repeat (-1) _) with [-1; -1; -1; -1].
      eapply first_Cat; [apply first_Bol; reflexivity|].
      eapply first_Cat.
      - apply first_Cap. eapply first_Cat.
        + eapply first_Cat; apply first_Chr; exact HD'.
        + apply lazy_group_until; auto. apply not_plain. lia.
      - unfold set_cap. cbn [m_pos m_prev m_rest m_caps].
        apply first_Alt_r; [apply run_Cls_end|]. apply first_Eol. reflexivity. }
  cbn [m_pos m_caps set_nth Nat.mul Nat.add Nat.sub]. list_eq.
Qed.

Lemma patternSpoiler_matches (w : bytes) :
  w <> [] -> Forall is_plain w ->
  FindStringSubmatchIndex patternSpoiler (124 :: 124 :: w ++ [124; 124])
  = Some [0; len w + 4; 2; len w + 2].
Proof.
  intros Hne Hw.
  rewrite Find_anchored by reflexivity.
  erewrite match_at_start_first.
  2:{ unfold init_state. change (repeat (-1) _) with [-1; -1].
      change patternSpoiler
        with (Cat Bol (Cat (Cat (Chr 124) (Chr 124))
                           (Cat (Cap 1 (Cat any (Star false any)))
                                (Cat (Chr 124) (Chr 124))))).
      eapply first_Cat; [apply first_Bol; reflexivity|].
      eapply first_Cat; [eapply first_Cat; apply first_Chr; lia|].
      apply lazy_group_until; auto; [lia|]. apply not_plain. lia. }
  cbn [m_pos m_caps set_nth Nat.mul Nat.add Nat.sub]. list_eq.
Qed.

End Containers.

Lemma slice_middle (pre w post : bytes) :
  slice (pre ++ w ++ post) (len pre) (len pre + len w) = Some w.
Proof.
  rewrite slice_substr.
  - rewrite substr_middle. reflexivity.
  - unfold len. lia.
  - unfold len. lia.
  - unfold len. rewrite !length_app. lia.
Qed.

Lemma select_Bold (options : option ParserOptions) (w : bytes) :
  w <> [] -> Forall is_plain w ->
  select_rule (rules (NewParser options)) [] 0 0 (42 :: 42 :: w ++ [42; 42])
  = Some (ruleBold, [0; len w + 4; 0; len w + 4; 2; len w + 2]).
Proof.
  intros Hne Hw.
  assert (Hrej : forall r,
             In r [ruleSoftHyphen; ruleEscape; ruleBlockQuote; ruleCodeBlock;
                   ruleCodeInline; ruleSpoiler; ruleMaskedLink; ruleURLNoEmbed;
                   ruleURL; ruleCustomEmoji; ruleNamedEmoji; ruleUnescapeEmoticon;
                   ruleChannelMention; ruleRoleMention; ruleUserMention;
                   ruleSpecialMention; ruleTimestamp; ruleHeaderItem;
                   ruleListItem; ruleNewline] ->
             rejected [] 0 0 (42 :: 42 :: w ++ [42; 42]) r).
  { intros r Hr. right. cbn [In] in Hr. in_cases Hr; no_match. }
  assert (Hcand : candidate [] 0 0 (42 :: 42 :: w ++ [42; 42]) ruleBold
                            [0; len w + 4; 0; len w + 4; 2; len w + 2]).
  { split; [reflexivity|]. apply (doubled_marks_match 42); auto. }
  unfold NewParser. cbn [rules].
  destruct (EnableBlockQuote _), (EnableMaskedLinks _), (EnableMentions _),
    (EnableForumMarkdown _); cbn [app];
    rewrite ?select_rule_rejected by (apply Hrej; cbn [In]; tauto);
    apply select_rule_candidate; exact Hcand.
Qed.

Lemma select_Underline (options : option ParserOptions) (w : bytes) :
  w <> [] -> Forall is_plain w ->
  select_rule (rules (NewParser options)) [] 0 0 (95 :: 95 :: w ++ [95; 95])
  = Some (ruleUnderline, [0; len w + 4; 0; len w + 4; 2; len w + 2]).
Proof.
  intros Hne Hw.
  assert (Hrej : forall r,
             In r [ruleSoftHyphen; ruleEscape; ruleBlockQuote; ruleCodeBlock;
                   ruleCodeInline; ruleSpoiler; ruleMaskedLink; ruleURLNoEmbed;
                   ruleURL; ruleCustomEmoji; ruleNamedEmoji; ruleUnescapeEmoticon;
                   ruleChannelMention; ruleRoleMention; ruleUserMention;
                   ruleSpecialMention; ruleTimestamp; ruleHeaderItem;
                   ruleListItem; ruleNewline; ruleBold] ->
             rejected [] 0 0 (95 :: 95 :: w ++ [95; 95]) r).
  { intros r Hr. right. cbn [In] in Hr. in_cases Hr; no_match. }
  assert (Hcand : candidate [] 0 0 (95 :: 95 :: w ++ [95; 95]) ruleUnderline
                            [0; len w + 4; 0; len w + 4; 2; len w + 2]).
  { split; [reflexivity|]. apply (doubled_marks_match 95); auto. }
  unfold NewParser. cbn [rules].
  destruct (EnableBlockQuote _), (EnableMaskedLinks _), (EnableMentions _),
    (EnableForumMarkdown _); cbn [app];
    rewrite ?select_rule_rejected by (apply Hrej; cbn [In]; tauto);
    apply select_rule_candidate; exact Hcand.
Qed.

Lemma select_Spoiler (options : option ParserOptions) (w : bytes) :
  w <> [] -> Forall is_plain w ->
  select_rule (rules (NewParser options)) [] 0 0 (124 :: 124 :: w ++ [124; 124])
  = Some (ruleSpoiler, [0; len w + 4; 2; len w + 2]).
Proof.
  intros Hne Hw.
  assert (Hrej : forall r,
             In r [ruleSoftHyphen; ruleEscape; ruleBlockQuote; ruleCodeBlock;
                   ruleCodeInline] ->
             rejected [] 0 0 (124 :: 124 :: w ++ [124; 124]) r).
  { intros r Hr. right. cbn [In] in Hr. in_cases Hr; no_match. }
  assert (Hcand : candidate [] 0 0 (124 :: 124 :: w ++ [124; 124]) ruleSpoiler
                            [0; len w + 4; 2; len w + 2]).
  { split; [reflexivity|]. apply patternSpoiler_matches; auto. }
  unfold NewParser. cbn [rules].
  destruct (EnableBlockQuote _); cbn [app];
    rewrite ?select_rule_rejected by (apply Hrej; cbn [In]; tauto);
    apply select_rule_candidate; exact Hcand.
Qed.

(** X17: a plain text (ASCII letters, digits and blanks, one byte at least)
    between two doubled marks parses to the root with one node for the
    marks and one [TextNode] with the text below it: a [BoldNode] for
    [**], an [UnderlineNode] for [__], a [SpoilerNode] for [||]. *)
Theorem marks_around_plain_text
        (options : option ParserOptions) (w : bytes) (fuel : nat) :
  w <> [] -> Forall is_plain w -> (3 <= fuel)%nat ->
  let p := NewParser options in
  let text := Tree (TextNode w) [] in
  Parse fuel p (bytes_of_string "**" ++ w ++ bytes_of_string "**")
  = Returned (Tree rootNode [Tree BoldNode [text]]) /\
  Parse fuel p (bytes_of_string "__" ++ w ++ bytes_of_string "__")
  = Returned (Tree rootNode [Tree UnderlineNode [text]]) /\
  Parse fuel p (bytes_of_string "||" ++ w ++ bytes_of_string "||")
  = Returned (Tree rootNode [Tree SpoilerNode [text]]).
Proof.
  intros Hne Hw Hfuel p text.
  pose proof (len_pos w Hne) as Hpos.
  change (bytes_of_string "**") with [42; 42].
  change (bytes_of_string "__") with [95; 95].
  change (bytes_of_string "||") with [124; 124].
  split; [|split].
  - eapply (Parse_container_of_plain_text options _ ruleBold _ BoldNode
                                          (len w + 4) 2 (len w + 2) w).
    + apply (select_Bold options w Hne Hw).
    + reflexivity.
    + unfold effective_end. cbn [matchEnd].
      destruct (len w + 4 =? 0) eqn:E; [apply Z.eqb_eq in E; lia|].
      unfold len. rewrite !length_app. cbn [length]. lia.
    + lia.
    + replace (len w + 2) with (len [42; 42] + len w) by (unfold len; cbn [length]; lia).
      apply (slice_middle [42; 42] w [42; 42]).
    + exact Hne.
    + exact Hw.
    + exact Hfuel.
  - eapply (Parse_container_of_plain_text options _ ruleUnderline _ UnderlineNode
                                          (len w + 4) 2 (len w + 2) w).
    + apply (select_Underline options w Hne Hw).
    + reflexivity.
    + unfold effective_end. cbn [matchEnd].
      destruct (len w + 4 =? 0) eqn:E; [apply Z.eqb_eq in E; lia|].
      unfold len. rewrite !length_app. cbn [length]. lia.
    + lia.
    + replace (len w + 2) with (len [95; 95] + len w) by (unfold len; cbn [length]; lia).
      apply (slice_middle [95; 95] w [95; 95]).
    + exact Hne.
    + exact Hw.
    + exact Hfuel.
  - eapply (Parse_container_of_plain_text options _ ruleSpoiler _ SpoilerNode
                                          0 2 (len w + 2) w).
    + apply (select_Spoiler options w Hne Hw).
    + reflexivity.
    + unfold effective_end. cbn [matchEnd Z.eqb nth].
      unfold len. rewrite !length_app. cbn [length]. lia.
    + lia.
    + replace (len w + 2) with (len [124; 124] + len w) by (unfold len; cbn [length]; lia).
      apply (slice_middle [124; 124] w [124; 124]).
    + exact Hne.
    + exact Hw.
    + exact Hfuel.
Qed.

Lemma marks_around_plain_text_witness :
  let w := bytes_of_string "so it goes" in
  let p := NewParser None in
  let text := Tree (TextNode w) [] in
  w <> [] /\ Forall is_plain w /\ (3 <= 3)%nat /\
  Parse 3 p (bytes_of_string "**" ++ w ++ bytes_of_string "**")
  = Returned (Tree rootNode [Tree BoldNode [text]]) /\
  Parse 3 p (bytes_of_string "__" ++ w ++ bytes_of_string "__")
  = Returned (Tree rootNode [Tree UnderlineNode [text]]) /\
  Parse 3 p (bytes_of_string "||" ++ w ++ bytes_of_string "||")
  = Returned (Tree rootNode [Tree SpoilerNode [text]]).
Proof.
  intros w p text.
  assert (H1 : w <> []) by discriminate.
  assert (H2 : Forall is_plain w).
  { repeat (apply Forall_cons;
            [first [left; reflexivity|right; reflexivity]|]).
    apply Forall_nil. }
  split; [exact H1|]. split; [exact H2|]. split; [apply le_n|].
  exact (marks_around_plain_text None w 3 H1 H2 (le_n 3)).
Defined.

(** * Headers *)

Section Headers.

Lemma first_star_none (greedy : bool) (r : Regexp) (st : mstate) :
  run r st = [] -> first_match (Star greedy r) st st.
Proof.
  intros H. unfold first_match. cbn [run].
  destruct (length (m_rest st)); cbn [star_loop]; [reflexivity|].
  rewrite H. destruct greedy; reflexivity.
Qed.

(** A greedy [c*] first reads all the bytes [c] ahead. *)
Lemma first_star_Chr (c : Z) (t : bytes) (caps : list Z) :
  c < 128 ->
  (forall pos prev, run (Chr c) (MState pos prev t caps) = []) ->
  forall k fuel pos,
    (k <= fuel)%nat ->
    hd_error (star_loop (run (Chr c)) true fuel
                        (MState pos c (repeat c k ++ t) caps))
    = Some (MState (pos + Z.of_nat k) c t caps).
Proof.
  intros Hc Ht. induction k as [|k IH]; intros fuel pos Hfuel.
  - cbn [repeat app Z.of_nat]. rewrite Z.add_0_r.
    destruct fuel; cbn [star_loop]; [reflexivity|]. rewrite Ht. reflexivity.
  - destruct fuel as [|fuel]; [lia|].
    cbn [repeat app star_loop]. rewrite run_Chr_eq by exact Hc.
    cbn [flat_map m_pos]. rewrite app_nil_r.
    assert (E : (pos <? pos + 1) = true) by (apply Z.ltb_lt; lia).
    rewrite E. specialize (IH fuel (pos + 1) ltac:(lia)).
    destruct (star_loop (run (Chr c)) true fuel _) as [|x l]; [discriminate|].
    cbn [app hd_error] in *. rewrite IH. f_equal. f_equal. lia.
Qed.

Lemma plain_not_LF (b : Z) : In b plain_bytes -> (b =? LF) = false.
Proof.
  intros Hin. apply Z.eqb_neq. unfold LF, plain_bytes in *.
  destruct Hin as [Hin|Hin]; [lia|].
  apply in_map_iff in Hin as (n & <- & Hn).
  rewrite !in_app_iff, !in_seq in Hn. lia.
Qed.

(** A greedy [.*] first reads a plain text to its end. *)
Lemma first_star_Dot_plain (w : bytes) :
  Forall (fun b => In b plain_bytes) w ->
  forall fuel pos prev caps,
    (length w <= fuel)%nat ->
    hd_error (star_loop (run Dot) true fuel (MState pos prev w caps))
    = Some (MState (pos + len w) (last w prev) [] caps).
Proof.
  intros Hw. induction Hw as [|b w Hb Hw IH]; intros fuel pos prev caps Hfuel.
  - cbn [len length last Z.of_nat]. rewrite Z.add_0_r.
    destruct fuel; reflexivity.
  - destruct fuel as [|fuel]; [cbn in Hfuel; lia|].
    pose proof plain_bytes_ascii as A. rewrite Forall_forall in A.
    cbn [star_loop run]. rewrite take_ascii by (apply A; exact Hb).
    rewrite (plain_not_LF b Hb). cbn [negb flat_map m_pos]. rewrite app_nil_r.
    assert (E : (pos <? pos + 1) = true) by (apply Z.ltb_lt; lia).
    rewrite E. specialize (IH fuel (pos + 1) b caps ltac:(cbn in Hfuel; lia)).
    change (take (fun x => negb (x =? LF))) with (run Dot).
    destruct (star_loop (run Dot) true fuel _) as [|x l]; [discriminate|].
    cbn [app hd_error] in *. rewrite IH, last_cons. f_equal. f_equal.
    unfold len. cbn [length]. lia.
Qed.

Lemma first_Cls_ascii (neg : bool) (items : list citem) (pos prev b : Z)
      (rest : bytes) (caps : list Z) :
  b < 128 -> in_class neg items b = true ->
  first_match (Cls neg items) (MState pos prev (b :: rest) caps)
              (MState (pos + 1) b rest caps).
Proof.
  intros Hb Hc. unfold first_match. cbn [run]. rewrite take_ascii by exact Hb.
  rewrite Hc. reflexivity.
Qed.

(** The header pattern on hashes, a blank or a tab, and a plain text. *)
Lemma patternHeaderItem_matches (m : nat) (sep : Z) (w : bytes) :
  sep = 32 \/ sep = TAB -> Forall is_plain w ->
  let n := Z.of_nat (S m) in
  FindStringSubmatchIndex patternHeaderItem (header_line (S m) sep w)
  = Some [0; n + 1 + len w; 0; n + 1 + len w; 0; n; n + 1; n + 1 + len w].
Proof.
  intros Hsep Hw n.
  assert (Hin : Forall (fun b => In b plain_bytes) w)
    by (eapply Forall_impl; [|exact Hw]; apply is_plain_In).
  assert (Hsep' : sep < 128 /\ sep <> 35) by (unfold TAB in Hsep; lia).
  rewrite Find_anchored by reflexivity.
  erewrite match_at_start_first.
  2:{ unfold init_state, header_line.
      change (repeat (-1) _) with [-1; -1; -1; -1; -1; -1].
      change patternHeaderItem
        with (Cat Bol
                  (Cat (Cap 1 (Cat (Star true space)
                              (Cat (Cap 2 (Cat (Chr 35) (Star true (Chr 35))))
                              (Cat (Cls false [One 32; One TAB])
                              (Cat (Cap 3 (Star true Dot)) (Star true sp))))))
                       (Alt (Chr LF) Eol))).
      cbn [repeat app].
      eapply first_Cat; [apply first_Bol; reflexivity|].
      eapply first_Cat.
      - apply first_Cap.
        eapply first_Cat.
        { apply first_star_none. cbn [run space]. rewrite take_ascii by lia.
          reflexivity. }
        eapply first_Cat.
        { apply first_Cap. eapply first_Cat; [apply first_Chr; lia|].
          unfold first_match. cbn [run m_rest].
          apply first_star_Chr; [lia| |rewrite length_app, repeat_length; lia].
          intros pos prev. apply run_Chr_other; lia. }
        unfold set_cap. cbn [m_pos m_prev m_rest m_caps].
        eapply first_Cat.
        { apply first_Cls_ascii; [lia|].
          destruct Hsep as [->| ->]; reflexivity. }
        eapply first_Cat.
        { apply first_Cap. unfold first_match. cbn [run m_rest].
          apply first_star_Dot_plain; [exact Hin|apply le_n]. }
        unfold set_cap. cbn [m_pos m_prev m_rest m_caps].
        apply first_star_none. reflexivity.
      - unfold set_cap. cbn [m_pos m_prev m_rest m_caps].
        apply first_Alt_r; [reflexivity|]. apply first_Eol. reflexivity. }
  cbn [m_pos m_caps set_nth Nat.mul Nat.add Nat.sub]. subst n. list_eq.
Qed.

End Headers.

Lemma select_HeaderItem (options : option ParserOptions) (m : nat) (sep : Z)
      (w : bytes) :
  EnableForumMarkdown (effective options) = true ->
  sep = 32 \/ sep = TAB -> Forall is_plain w ->
  let n := Z.of_nat (S m) in
  select_rule (rules (NewParser options)) [] 0 0 (header_line (S m) sep w)
  = Some (ruleHeaderItem,
          [0; n + 1 + len w; 0; n + 1 + len w; 0; n; n + 1; n + 1 + len w]).
Proof.
  intros Hforum Hsep Hw n.
  assert (Hrej : forall r,
             In r [ruleSoftHyphen; ruleEscape; ruleBlockQuote; ruleCodeBlock;
                   ruleCodeInline; ruleSpoiler; ruleMaskedLink; ruleURLNoEmbed;
                   ruleURL; ruleCustomEmoji; ruleNamedEmoji; ruleUnescapeEmoticon;
                   ruleChannelMention; ruleRoleMention; ruleUserMention;
                   ruleSpecialMention; ruleTimestamp] ->
             rejected [] 0 0 (header_line (S m) sep w) r).
  { intros r Hr. right. unfold header_line. cbn [repeat app].
    cbn [In] in Hr. in_cases Hr; no_match. }
  assert (Hcand : candidate [] 0 0 (header_line (S m) sep w) ruleHeaderItem
                            [0; n + 1 + len w; 0; n + 1 + len w; 0; n; n + 1;
                             n + 1 + len w]).
  { split; [reflexivity|]. apply patternHeaderItem_matches; assumption. }
  unfold NewParser. cbn [rules]. fold (effective options). rewrite Hforum.
  destruct (EnableBlockQuote _), (EnableMaskedLinks _), (EnableMentions _);
    cbn [app];
    rewrite ?select_rule_rejected by (apply Hrej; cbn [In]; tauto);
    apply select_rule_candidate; exact Hcand.
Qed.

(** X18: with the forum markdown enabled, a line of [n] hashes ([n] at
    least 1), a blank or a tab, and a plain text (ASCII letters, digits and
    blanks, one byte at least) parses to the root with one [HeaderNode]
    whose [Level] is [n], the number of hashes, and one [TextNode] with the
    text below it. *)
Theorem header_level_is_the_number_of_hashes
        (options : option ParserOptions) (m : nat) (sep : Z) (w : bytes)
        (fuel : nat) :
  EnableForumMarkdown (effective options) = true ->
  sep = 32 \/ sep = TAB -> w <> [] -> Forall is_plain w -> (3 <= fuel)%nat ->
  Parse fuel (NewParser options) (header_line (S m) sep w)
  = Returned (Tree rootNode
                   [Tree (HeaderNode (Z.of_nat (S m))) [Tree (TextNode w) []]]).
Proof.
  intros Hforum Hsep Hne Hw Hfuel.
  pose proof (len_pos w Hne) as Hpos.
  set (n := Z.of_nat (S m)).
  assert (Hlen : len (repeat 35 (S m)) = n)
    by (unfold len; rewrite repeat_length; reflexivity).
  eapply (Parse_container_of_plain_text
            options (header_line (S m) sep w) ruleHeaderItem
            [0; n + 1 + len w; 0; n + 1 + len w; 0; n; n + 1; n + 1 + len w]
            (HeaderNode n) (n + 1 + len w) (n + 1) (n + 1 + len w) w).
  - apply (select_HeaderItem options m sep w Hforum Hsep Hw).
  - unfold ruleHeaderItem. cbn [parser].
    assert (G : group (Match (header_line (S m) sep w)
                             [0; n + 1 + len w; 0; n + 1 + len w; 0; n; n + 1;
                              n + 1 + len w]) 2
                = repeat 35 (S m)).
    { apply (group_middle [] (repeat 35 (S m)) (sep :: w)); cbn [nth Nat.mul Nat.add];
        rewrite ?Hlen; reflexivity. }
    rewrite G, Hlen.
    assert (E : (0 <? n) = true) by (apply Z.ltb_lt; subst n; lia).
    rewrite E. reflexivity.
  - unfold effective_end. cbn [matchEnd].
    destruct (n + 1 + len w =? 0) eqn:E; [apply Z.eqb_eq in E; subst n; lia|].
    unfold header_line, len in *. rewrite length_app. cbn [length].
    rewrite repeat_length. subst n. lia.
  - subst n. lia.
  - unfold header_line.
    replace (repeat 35 (S m) ++ sep :: w)
      with ((repeat 35 (S m) ++ [sep]) ++ w ++ [])
      by (rewrite app_nil_r, <- app_assoc; reflexivity).
    replace (n + 1) with (len (repeat 35 (S m) ++ [sep]))
      by (unfold len in *; rewrite length_app; cbn [length]; lia).
    apply slice_middle.
  - exact Hne.
  - exact Hw.
  - exact Hfuel.
Qed.

Lemma header_level_is_the_number_of_hashes_witness :
  let w := bytes_of_string "Rules of the forum" in
  EnableForumMarkdown (effective all_options) = true /\
  (32 = 32 \/ 32 = TAB) /\ w <> [] /\ Forall is_plain w /\ (3 <= 3)%nat /\
  header_line 3 32 w = bytes_of_string "### Rules of the forum" /\
  Parse 3 (NewParser all_options) (header_line 3 32 w)
  = Returned (Tree rootNode [Tree (HeaderNode 3) [Tree (TextNode w) []]]).
Proof.
  intros w.
  assert (H1 : w <> []) by discriminate.
  assert (H2 : Forall is_plain w).
  { repeat (apply Forall_cons;
            [first [left; reflexivity|right; reflexivity]|]).
    apply Forall_nil. }
  split; [reflexivity|]. split; [left; reflexivity|]. split; [exact H1|].
  split; [exact H2|]. split; [apply le_n|]. split; [reflexivity|].
  exact (header_level_is_the_number_of_hashes
           all_options 2 32 w 3 eq_refl (or_introl eq_refl) H1 H2 (le_n 3)).
Defined.

(** * Block quotes of a plain text *)

Section BlockQuotes.

(** A greedy star of an expression that reads any plain byte first reads
    a plain text to its end. *)
Lemma first_star_plain (R : Regexp) :
  (forall pos prev b rest caps,
      In b plain_bytes ->
      run R (MState pos prev (b :: rest) caps) = [MState (pos + 1) b rest caps]) ->
  (forall pos prev caps, run R (MState pos prev [] caps) = []) ->
  forall w,
    Forall (fun b => In b plain_bytes) w ->
    forall pos prev caps,
      first_match (Star true R) (MState pos prev w caps)
                  (MState (pos + len w) (last w prev) [] caps).
Proof.
  intros HR Hend w Hw pos prev caps. unfold first_match. cbn [run m_rest].
  assert (G : forall fuel pos prev,
             (length w <= fuel)%nat ->
             hd_error (star_loop (run R) true fuel (MState pos prev w caps))
             = Some (MState (pos + len w) (last w prev) [] caps));
    [|apply G; apply le_n].
  clear pos prev.
  induction Hw as [|b w Hb Hw IH]; intros fuel pos prev Hfuel.
  - cbn [len length last Z.of_nat]. rewrite Z.add_0_r.
    destruct fuel; cbn [star_loop]; [reflexivity|]. rewrite Hend. reflexivity.
  - destruct fuel as [|fuel]; [cbn in Hfuel; lia|].
    cbn [star_loop]. rewrite HR by exact Hb.
    cbn [flat_map m_pos]. rewrite app_nil_r.
    assert (E : (pos <? pos + 1) = true) by (apply Z.ltb_lt; lia).
    rewrite E. specialize (IH fuel (pos + 1) b ltac:(cbn in Hfuel; lia)).
    destruct (star_loop (run R) true fuel _) as [|x l]; [discriminate|].
    cbn [app hd_error] in *. rewrite IH, last_cons. f_equal. f_equal.
    unfold len. cbn [length]. lia.
Qed.

Lemma run_take_plain (f : Z -> bool) (pos prev b : Z) (rest : bytes) (caps : list Z) :
  In b plain_bytes -> f b = true ->
  take f (MState pos prev (b :: rest) caps) = [MState (pos + 1) b rest caps].
Proof.
  intros Hb Hf. pose proof plain_bytes_ascii as A. rewrite Forall_forall in A.
  rewrite take_ascii by (apply A; exact Hb). rewrite Hf. reflexivity.
Qed.

Lemma first_not_LF_star (w : bytes) (pos prev : Z) (caps : list Z) :
  Forall (fun b => In b plain_bytes) w ->
  first_match (Star true (Cls true [One LF])) (MState pos prev w caps)
              (MState (pos + len w) (last w prev) [] caps).
Proof.
  intros Hw. apply first_star_plain; auto.
  intros pos' prev' b rest caps' Hb. cbn [run]. apply run_take_plain; [exact Hb|].
  pose proof (plain_not_LF b Hb) as E. apply Z.eqb_neq in E.
  unfold in_class, One, in_item, within. cbn [existsb]. rewrite orb_false_r.
  destruct ((LF <=? b) && (b <=? LF)) eqn:E'; [|reflexivity].
  apply andb_prop in E' as [E1 E2]. apply Z.leb_le in E1, E2. lia.
Qed.

Lemma first_DotAll_star (w : bytes) (pos prev : Z) (caps : list Z) :
  Forall (fun b => In b plain_bytes) w ->
  first_match (Star true DotAll) (MState pos prev w caps)
              (MState (pos + len w) (last w prev) [] caps).
Proof.
  intros Hw. apply first_star_plain; auto.
  intros pos' prev' b rest caps' Hb. cbn [run]. apply run_take_plain; auto.
Qed.

Lemma run_sp_other (pos prev b : Z) (rest : bytes) (caps : list Z) :
  b <> 32 -> run sp (MState pos prev (b :: rest) caps) = [].
Proof. intros Hb. apply run_Chr_other; [lia|exact Hb]. Qed.

Lemma alnum_plain (b : Z) : is_alnum b = true -> In b plain_bytes /\ b <> 32 /\ b <> 62.
Proof.
  intros H. split; [apply is_plain_In; left; exact H|].
  unfold is_alnum, within in H.
  rewrite !orb_true_iff, !andb_true_iff, !Z.leb_le in H. lia.
Qed.

(** The block quote pattern on [> ] and a plain text. *)
Lemma patternBlockQuote_line (b : Z) (w : bytes) :
  is_alnum b = true -> Forall is_plain w ->
  FindStringSubmatchIndex patternBlockQuote (62 :: 32 :: b :: w)
  = Some [0; 3 + len w; -1; -1; 2; 3 + len w].
Proof.
  intros Hb Hw.
  destruct (alnum_plain b Hb) as (Hb1 & Hb2 & Hb3).
  assert (Hin : Forall (fun c => In c plain_bytes) (b :: w)).
  { apply Forall_cons; [exact Hb1|].
    eapply Forall_impl; [|exact Hw]. apply is_plain_In. }
  rewrite Find_anchored by reflexivity.
  erewrite match_at_start_first.
  2:{ unfold init_state. change (repeat (-1) _) with [-1; -1; -1; -1].
      change patternBlockQuote
        with (Cat Bol
                  (Alt (Cat (Star true sp)
                            (Cat (Cat (Chr 62) (Cat (Chr 62) (Chr 62)))
                                 (Cat (Cat sp (Star true sp))
                                      (Cap 1 (Star true DotAll)))))
                       (Cat (Star true sp)
                            (Cat (Chr 62)
                                 (Cat (Cat sp (Star true sp))
                                      (Cap 2 (Cat (Star true (Cls true [One LF]))
                                                  (Alt (Chr LF) Eps)))))))).
      eapply first_Cat; [apply first_Bol; reflexivity|].
      apply first_Alt_r.
      - apply run_Cat_all. intros st1 H1.
        assert (E : run (Star true sp) (MState 0 (-1) (62 :: 32 :: b :: w)
                                               [-1; -1; -1; -1])
                    = [MState 0 (-1) (62 :: 32 :: b :: w) [-1; -1; -1; -1]]).
        { cbn [run m_rest length star_loop]. rewrite run_sp_other by lia. reflexivity. }
        rewrite E in H1. destruct H1 as [<-|[]].
        apply run_Cat_nil.
        rewrite (run_Cat_single _ _ _ _ (run_Chr_eq 62 _ _ _ _ ltac:(lia))).
        apply run_Cat_nil. apply run_Chr_other; lia.
      - eapply first_Cat.
        { apply first_star_none. apply run_sp_other. lia. }
        eapply first_Cat; [apply first_Chr; lia|].
        eapply first_Cat.
        { eapply first_Cat; [apply first_Chr; lia|].
          apply first_star_none. apply run_sp_other. exact Hb2. }
        apply first_Cap. eapply first_Cat.
        + apply first_not_LF_star. exact Hin.
        + apply first_Alt_r; [reflexivity|apply first_Eps]. }
  cbn [m_pos m_caps set_nth Nat.mul Nat.add Nat.sub set_cap].
  unfold len. cbn [length]. list_eq.
Qed.

(** The block quote pattern on [>>> ] and a plain text. *)
Lemma patternBlockQuote_block (b : Z) (w : bytes) :
  is_alnum b = true -> Forall is_plain w ->
  FindStringSubmatchIndex patternBlockQuote (62 :: 62 :: 62 :: 32 :: b :: w)
  = Some [0; 5 + len w; 4; 5 + len w; -1; -1].
Proof.
  intros Hb Hw.
  destruct (alnum_plain b Hb) as (Hb1 & Hb2 & Hb3).
  assert (Hin : Forall (fun c => In c plain_bytes) (b :: w)).
  { apply Forall_cons; [exact Hb1|].
    eapply Forall_impl; [|exact Hw]. apply is_plain_In. }
  rewrite Find_anchored by reflexivity.
  erewrite match_at_start_first.
  2:{ unfold init_state. change (repeat (-1) _) with [-1; -1; -1; -1].
      change patternBlockQuote
        with (Cat Bol
                  (Alt (Cat (Star true sp)
                            (Cat (Cat (Chr 62) (Cat (Chr 62) (Chr 62)))
                                 (Cat (Cat sp (Star true sp))
                                      (Cap 1 (Star true DotAll)))))
                       (Cat (Star true sp)
                            (Cat (Chr 62)
                                 (Cat (Cat sp (Star true sp))
                                      (Cap 2 (Cat (Star true (Cls true [One LF]))
                                                  (Alt (Chr LF) Eps)))))))).
      eapply first_Cat; [apply first_Bol; reflexivity|].
      apply first_Alt_l.
      eapply first_Cat.
      { apply first_star_none. apply run_sp_other. lia. }
      eapply first_Cat.
      { eapply first_Cat; [apply first_Chr; lia|].
        eapply first_Cat; apply first_Chr; lia. }
      eapply first_Cat.
      { eapply first_Cat; [apply first_Chr; lia|].
        apply first_star_none. apply run_sp_other. exact Hb2. }
      apply first_Cap. apply first_DotAll_star. exact Hin. }
  cbn [m_pos m_caps set_nth Nat.mul Nat.add Nat.sub set_cap].
  unfold len. cbn [length]. list_eq.
Qed.

End BlockQuotes.

Lemma slice_tail (pre d : bytes) (a b : Z) :
  a = len pre -> b = len pre + len d -> slice (pre ++ d) a b = Some d.
Proof.
  intros -> ->. rewrite <- (app_nil_r d) at 1. apply slice_middle.
Qed.

Lemma group_tail (pre d : bytes) (g : list Z) (k : nat) :
  nth (k * 2) g 0 = len pre -> nth (k * 2 + 1) g 0 = len pre + len d ->
  group (Match (pre ++ d) g) k = d.
Proof.
  intros H1 H2. rewrite <- (app_nil_r d) at 1. apply group_middle; assumption.
Qed.

Lemma select_BlockQuote (options : option ParserOptions) (rest : bytes) (g : list Z) :
  EnableBlockQuote (effective options) = true ->
  FindStringSubmatchIndex patternBlockQuote (62 :: rest) = Some g ->
  select_rule (rules (NewParser options)) [] 0 0 (62 :: rest)
  = Some (ruleBlockQuote, g).
Proof.
  intros Hon Hfind.
  assert (H1 : rejected [] 0 0 (62 :: rest) ruleSoftHyphen) by (right; no_match).
  assert (H2 : rejected [] 0 0 (62 :: rest) ruleEscape) by (right; no_match).
  unfold NewParser. cbn [rules]. fold (effective options). rewrite Hon. cbn [app].
  rewrite !select_rule_rejected by assumption.
  apply select_rule_candidate. split; [reflexivity|exact Hfind].
Qed.

(** X19: with the block quotes enabled, a plain text (ASCII letters, digits
    and blanks) that starts with a letter or a digit parses, after [> ] and
    after [>>> ], to the root with one [BlockQuoteNode] and one [TextNode]
    with the text below it. *)
Theorem block_quote_of_plain_text
        (options : option ParserOptions) (b : Z) (w : bytes) (fuel : nat) :
  EnableBlockQuote (effective options) = true ->
  is_alnum b = true -> Forall is_plain w -> (3 <= fuel)%nat ->
  let p := NewParser options in
  let quote := Tree rootNode [Tree BlockQuoteNode [Tree (TextNode (b :: w)) []]] in
  Parse fuel p (bytes_of_string "> " ++ b :: w) = Returned quote /\
  Parse fuel p (bytes_of_string ">>> " ++ b :: w) = Returned quote.
Proof.
  intros Hon Hb Hw Hfuel p quote.
  assert (Hplain : Forall is_plain (b :: w))
    by (apply Forall_cons; [left; exact Hb|exact Hw]).
  assert (Hlen : len (b :: w) = 1 + len w) by (unfold len; cbn [length]; lia).
  change (bytes_of_string "> ") with [62; 32].
  change (bytes_of_string ">>> ") with [62; 62; 62; 32].
  split.
  - eapply (Parse_container_of_plain_text
              options ([62; 32] ++ b :: w) ruleBlockQuote
              [0; 3 + len w; -1; -1; 2; 3 + len w]
              BlockQuoteNode 0 2 (3 + len w) (b :: w)).
    + apply select_BlockQuote; [exact Hon|].
      apply patternBlockQuote_line; assumption.
    + unfold ruleBlockQuote. cbn [parser].
      rewrite (group_unset _ 1) by reflexivity. reflexivity.
    + unfold effective_end. cbn [matchEnd Z.eqb nth].
      unfold len. rewrite length_app. cbn [length]. lia.
    + lia.
    + apply slice_tail; [reflexivity|]. rewrite Hlen. unfold len. cbn [length]. lia.
    + discriminate.
    + exact Hplain.
    + exact Hfuel.
  - eapply (Parse_container_of_plain_text
              options ([62; 62; 62; 32] ++ b :: w) ruleBlockQuote
              [0; 5 + len w; 4; 5 + len w; -1; -1]
              BlockQuoteNode 0 4 (5 + len w) (b :: w)).
    + apply select_BlockQuote; [exact Hon|].
      apply patternBlockQuote_block; assumption.
    + unfold ruleBlockQuote. cbn [parser].
      rewrite (group_tail [62; 62; 62; 32] (b :: w))
        by (cbn [nth Nat.mul Nat.add]; rewrite ?Hlen; unfold len; cbn [length]; lia).
      rewrite Hlen.
      assert (E : (0 <? 1 + len w) = true) by (apply Z.ltb_lt; unfold len; lia).
      rewrite E. reflexivity.
    + unfold effective_end. cbn [matchEnd Z.eqb nth].
      unfold len. rewrite length_app. cbn [length]. lia.
    + lia.
    + apply slice_tail; [reflexivity|]. rewrite Hlen. unfold len. cbn [length]. lia.
    + discriminate.
    + exact Hplain.
    + exact Hfuel.
Qed.

Lemma block_quote_of_plain_text_witness :
  let w := bytes_of_string "i there" in
  let p := NewParser None in
  let quote :=
      Tree rootNode [Tree BlockQuoteNode [Tree (TextNode (chr "h" :: w)) []]] in
  EnableBlockQuote (effective None) = true /\
  is_alnum (chr "h") = true /\ Forall is_plain w /\ (3 <= 3)%nat /\
  Parse 3 p (bytes_of_string "> " ++ chr "h" :: w) = Returned quote /\
  Parse 3 p (bytes_of_string ">>> " ++ chr "h" :: w) = Returned quote.
Proof.
  intros w p quote.
  assert (H2 : Forall is_plain w).
  { repeat (apply Forall_cons;
            [first [left; reflexivity|right; reflexivity]|]).
    apply Forall_nil. }
  split; [reflexivity|]. split; [reflexivity|]. split; [exact H2|].
  split; [apply le_n|].
  exact (block_quote_of_plain_text None (chr "h") w 3 eq_refl eq_refl H2 (le_n 3)).
Defined.

(** * Bare URLs *)

Section URLs.

Local Abbreviation url_char := (Cls true [PerlS; Of "<"]).
Local Abbreviation url_last :=
  (Cls true [Of "<"; Of "."; Of ","; Of ":"; Of ";"; One DQUOTE; Of "'";
             Of ")"; Of "]"; PerlS]).

Lemma in_class_url_char (b : Z) : url_byte b -> in_class true [PerlS; Of "<"] b = true.
Proof.
  intros [H1 H2]. unfold in_class, Of, One, in_item, is_space, within.
  change (chr "<") with 60. cbn [existsb xorb]. apply negb_true_iff.
  rewrite !orb_false_iff, andb_false_iff, !Z.eqb_neq, !Z.leb_gt. lia.
Qed.

Lemma in_class_url_last (c : Z) : url_end c -> in_class true
    [Of "<"; Of "."; Of ","; Of ":"; Of ";"; One DQUOTE; Of "'"; Of ")"; Of "]"; PerlS]
    c = true.
Proof.
  intros [[H1 H2] H3]. cbn [In] in H3. unfold DQUOTE in H3.
  unfold in_class, Of, One, in_item, is_space, within, DQUOTE.
  change (chr "<") with 60. change (chr ".") with 46. change (chr ",") with 44.
  change (chr ":") with 58. change (chr ";") with 59. change (chr "'") with 39.
  change (chr ")") with 41. change (chr "]") with 93.
  cbn [existsb xorb]. apply negb_true_iff.
  rewrite !orb_false_iff, !andb_false_iff, !Z.eqb_neq, !Z.leb_gt.
  repeat split; lia.
Qed.

Lemma run_url_char (pos prev b : Z) (rest : bytes) (caps : list Z) :
  url_byte b ->
  run url_char (MState pos prev (b :: rest) caps) = [MState (pos + 1) b rest caps].
Proof.
  intros Hb. cbn [run]. rewrite take_ascii by (destruct Hb; lia).
  rewrite in_class_url_char by exact Hb. reflexivity.
Qed.

(** A greedy star before an expression that needs one byte more: the
    star gives the last byte back. *)
Lemma greedy_star_gives_back (F : mstate -> list mstate) (caps : list Z) (c : Z) :
  url_byte c ->
  (forall pos prev, F (MState pos prev [] caps) = []) ->
  forall cs fuel pos prev x,
    Forall url_byte cs -> (length cs + 1 <= fuel)%nat ->
    hd_error (F (MState (pos + len cs) (last cs prev) [c] caps)) = Some x ->
    hd_error (flat_map F (star_loop (run url_char) true fuel
                                    (MState pos prev (cs ++ [c]) caps)))
    = Some x.
Proof.
  intros Hc Hend. induction cs as [|b cs IH]; intros fuel pos prev x Hcs Hfuel Hx.
  - cbn [len length last Z.of_nat app] in *. rewrite Z.add_0_r in Hx.
    destruct fuel as [|fuel]; [lia|].
    cbn [star_loop]. rewrite run_url_char by exact Hc.
    cbn [flat_map m_pos]. rewrite app_nil_r.
    assert (E : (pos <? pos + 1) = true) by (apply Z.ltb_lt; lia).
    rewrite E.
    assert (Hstop : star_loop (run url_char) true fuel (MState (pos + 1) c [] caps)
                    = [MState (pos + 1) c [] caps])
      by (destruct fuel; reflexivity).
    rewrite Hstop. cbn [app flat_map]. rewrite Hend, app_nil_r. exact Hx.
  - destruct fuel as [|fuel]; [cbn in Hfuel; lia|].
    inversion Hcs as [|? ? Hb Hcs']; subst.
    cbn [star_loop app]. rewrite run_url_char by exact Hb.
    cbn [flat_map m_pos]. rewrite app_nil_r.
    assert (E : (pos <? pos + 1) = true) by (apply Z.ltb_lt; lia).
    rewrite E, flat_map_app. apply hd_error_app.
    apply IH; [exact Hcs'|cbn in Hfuel; lia|].
    rewrite last_cons in Hx.
    replace (pos + 1 + len cs) with (pos + len (b :: cs))
      by (unfold len; cbn [length]; lia).
    exact Hx.
Qed.

(** The bytes of a URL after the scheme: one byte, a greedy run and the
    last byte. *)
Lemma url_rest_matches (pos prev b : Z) (cs : bytes) (c : Z) (caps : list Z) :
  url_byte b -> Forall url_byte cs -> url_end c ->
  first_match (Cat (Cat url_char (Star true url_char)) url_last)
              (MState pos prev (b :: cs ++ [c]) caps)
              (MState (pos + 1 + len cs + 1) c [] caps).
Proof.
  intros Hb Hcs Hc. unfold first_match.
  change (hd_error
            (flat_map (run url_last)
                      (flat_map (run (Star true url_char))
                                (run url_char (MState pos prev (b :: cs ++ [c]) caps))))
          = Some (MState (pos + 1 + len cs + 1) c [] caps)).
  rewrite run_url_char by exact Hb. cbn [flat_map]. rewrite app_nil_r.
  cbn [run m_rest].
  apply (greedy_star_gives_back (run url_last)).
  - apply Hc.
  - reflexivity.
  - exact Hcs.
  - rewrite length_app. cbn [length]. lia.
  - cbn [run]. rewrite take_ascii by (destruct Hc as [[? ?] ?]; lia).
    rewrite in_class_url_last by exact Hc. reflexivity.
Qed.

(** The URL pattern on a scheme and the bytes of a URL. *)
Lemma patternURL_matches (secure : bool) (b : Z) (cs : bytes) (c : Z) :
  url_byte b -> Forall url_byte cs -> url_end c ->
  let source := scheme secure ++ b :: cs ++ [c] in
  FindStringSubmatchIndex patternURL source = Some [0; len source; 0; len source].
Proof.
  intros Hb Hcs Hc source. subst source.
  assert (Es : scheme true = [104; 116; 116; 112; 115; 58; 47; 47]) by reflexivity.
  assert (Ep : scheme false = [104; 116; 116; 112; 58; 47; 47]) by reflexivity.
  rewrite Find_anchored by reflexivity.
  change patternURL
    with (Cat Bol
              (Cap 1 (Cat (Cat (Chr 104) (Cat (Chr 116) (Cat (Chr 116) (Chr 112))))
                     (Cat (Alt (Chr 115) Eps)
                     (Cat (Cat (Chr 58) (Cat (Chr 47) (Chr 47)))
                     (Cat (Cat url_char (Star true url_char)) url_last)))))).
  destruct secure; rewrite ?Es, ?Ep; cbn [app].
  - erewrite match_at_start_first.
    2:{ eapply first_Cat; [apply first_Bol; reflexivity|].
        apply first_Cap.
        eapply first_Cat.
        { (eapply first_Cat; [apply first_Chr; lia|]);
          (eapply first_Cat; [apply first_Chr; lia|]);
          (eapply first_Cat; apply first_Chr; lia). }
        eapply first_Cat; [apply first_Alt_l; apply first_Chr; lia|].
        eapply first_Cat.
        { (eapply first_Cat; [apply first_Chr; lia|]);
          (eapply first_Cat; apply first_Chr; lia). }
        apply url_rest_matches; assumption. }
    unfold set_cap, init_state, len. cbn [m_pos m_caps].
    change (repeat (-1) _) with [-1; -1].
    cbn [set_nth Nat.mul Nat.add Nat.sub length].
    rewrite !length_app; cbn [length]; list_eq.
  - erewrite match_at_start_first.
    2:{ eapply first_Cat; [apply first_Bol; reflexivity|].
        apply first_Cap.
        eapply first_Cat.
        { (eapply first_Cat; [apply first_Chr; lia|]);
          (eapply first_Cat; [apply first_Chr; lia|]);
          (eapply first_Cat; apply first_Chr; lia). }
        eapply first_Cat;
          [apply first_Alt_r; [apply run_Chr_other; lia|apply first_Eps]|].
        eapply first_Cat.
        { (eapply first_Cat; [apply first_Chr; lia|]);
          (eapply first_Cat; apply first_Chr; lia). }
        apply url_rest_matches; assumption. }
    unfold set_cap, init_state, len. cbn [m_pos m_caps].
    change (repeat (-1) _) with [-1; -1].
    cbn [set_nth Nat.mul Nat.add Nat.sub length].
    rewrite !length_app; cbn [length]; list_eq.
Qed.

End URLs.

Lemma select_URL (options : option ParserOptions) (secure : bool)
      (b : Z) (cs : bytes) (c : Z) :
  url_byte b -> Forall url_byte cs -> url_end c ->
  let source := scheme secure ++ b :: cs ++ [c] in
  select_rule (rules (NewParser options)) [] 0 0 source
  = Some (ruleURL, [0; len source; 0; len source]).
Proof.
  intros Hb Hcs Hc source.
  assert (Hcand : candidate [] 0 0 source ruleURL [0; len source; 0; len source])
    by (split; [apply skipped_init|apply patternURL_matches; assumption]).
  assert (Hs : exists rest, source = 104 :: rest)
    by (subst source; destruct secure; eexists; reflexivity).
  destruct Hs as [rest Hs]. clearbody source. subst source.
  assert (H1 : rejected [] 0 0 (104 :: rest) ruleSoftHyphen) by (right; no_match).
  assert (H2 : rejected [] 0 0 (104 :: rest) ruleEscape) by (right; no_match).
  assert (H3 : rejected [] 0 0 (104 :: rest) ruleBlockQuote) by (right; no_match).
  assert (H4 : rejected [] 0 0 (104 :: rest) ruleCodeBlock) by (right; no_match).
  assert (H5 : rejected [] 0 0 (104 :: rest) ruleCodeInline) by (right; no_match).
  assert (H6 : rejected [] 0 0 (104 :: rest) ruleSpoiler) by (right; no_match).
  assert (H7 : rejected [] 0 0 (104 :: rest) ruleMaskedLink) by (right; no_match).
  assert (H8 : rejected [] 0 0 (104 :: rest) ruleURLNoEmbed) by (right; no_match).
  unfold NewParser. cbn [rules].
  destruct (EnableBlockQuote _), (EnableMaskedLinks _); cbn [app];
    rewrite ?select_rule_rejected by assumption;
    apply select_rule_candidate; exact Hcand.
Qed.

(** X20: a message that is [http://] or [https://] and then two or more
    visible ASCII bytes other than [<], the last of them not a double
    quote and none of [.,:;')]], parses to the root with one [URLNode] that
    holds the whole message and no mask, whatever the options. *)
Theorem bare_url_is_one_url_node
        (options : option ParserOptions) (secure : bool)
        (b : Z) (cs : bytes) (c : Z) (fuel : nat) :
  url_byte b -> Forall url_byte cs -> url_end c -> (2 <= fuel)%nat ->
  let source := scheme secure ++ b :: cs ++ [c] in
  Parse fuel (NewParser options) source
  = Returned (Tree rootNode [Tree (URLNode source []) []]).
Proof.
  intros Hb Hcs Hc Hfuel source.
  assert (Hne : source <> []) by (subst source; destruct secure; discriminate).
  eapply Parse_single_leaf.
  - exact Hne.
  - apply (select_URL options secure b cs c Hb Hcs Hc).
  - unfold ruleURL, leaf. cbn [parser].
    assert (G : group (Match source [0; len source; 0; len source]) 1 = source)
      by (apply group_whole; reflexivity).
    fold source. rewrite G. reflexivity.
  - reflexivity.
  - exact Hfuel.
Qed.

Lemma bare_url_is_one_url_node_witness :
  let source := bytes_of_string "https://go.dev/doc?a=1" in
  Parse 2 (NewParser None) source
  = Returned (Tree rootNode [Tree (URLNode source []) []]).
Proof.
  assert (Hb : url_byte 103) by (unfold url_byte; lia).
  assert (Hc : url_end 49).
  { split; [unfold url_byte; lia|]. unfold DQUOTE. cbn [In]. lia. }
  assert (Hcs : Forall url_byte (bytes_of_string "o.dev/doc?a=")).
  { change (bytes_of_string "o.dev/doc?a=")
      with [111; 46; 100; 101; 118; 47; 100; 111; 99; 63; 97; 61].
    repeat (apply Forall_cons; [unfold url_byte; lia|]). apply Forall_nil. }
  exact (bare_url_is_one_url_node None true 103 (bytes_of_string "o.dev/doc?a=") 49 2
                                  Hb Hcs Hc (le_n 2)).
Defined.
